(** * mlpack / fastlib: rectangle tree, statistic propagation, grain defaults
      and all-k-nearest-neighbour search

    A shallow embedding of
    - [src/mlpack/core/tree/rectangle_tree/rectangle_tree_impl.hpp]
      (module [RTree]),
    - [fastlib/u/garryb/nbr/nbr_utils.h] (module [NbrUtils]),
    - the all-k-nearest-neighbour search exercised by
      [fastlib/.../neighbor_search/allknn_test.cc] (module [AllkNN]).

    Conventions.  A [size_t] is a [Z] in [0, 2^64) and every arithmetic
    operation of the source on it is followed by [wrap].  A [double] is an
    exact rational ([Qc], canonical rationals, so that equal numbers are
    equal terms); rounding is not modelled.  Code that can stop the run
    (a failed [assert], an index outside a vector, a null pointer) returns
    an [outcome]. *)

From Stdlib Require Import ZArith QArith Qcanon Lia Lqa.
From stdpp Require Import base option list sorting gmap strings.

#[local] Open Scope Z_scope.

(** ** Outcomes of operations that may stop the run *)

Inductive fault : Set :=
| AssertionFailed
| IndexOutOfBounds
| NullDereference
| UninitialisedRead.

Inductive outcome (A : Type) : Type :=
| Returned (a : A)
| Aborted (f : fault).
Arguments Returned {A} a.
Arguments Aborted {A} f.

Definition obind {A B} (m : outcome A) (k : A → outcome B) : outcome B :=
  match m with
  | Returned a => k a
  | Aborted f => Aborted f
  end.

Notation "x ←! m ; k" := (obind m (λ x, k))
  (at level 20, m at level 100, k at level 200, right associativity,
   format "x  ←!  m ;  '/' k").

(** ** Machine integers *)

Definition size_t_modulus : Z := 2 ^ 64.
Definition wrap (z : Z) : Z := z mod size_t_modulus.

Lemma wrap_small z : 0 ≤ z < size_t_modulus → wrap z = z.
Proof. intros Hz. unfold wrap. by apply Z.mod_small. Qed.

Lemma wrap_minus_one : wrap (0 - 1) = size_t_modulus - 1.
Proof. reflexivity. Qed.

(** [std::vector::operator[]] with a [size_t] index: the element, or nothing
    when the index is not below the size. *)
Fixpoint vec_at {A} (v : list A) (i : Z) : option A :=
  match v with
  | [] => None
  | x :: v' => if i =? 0 then Some x else vec_at v' (i - 1)
  end.

Lemma vec_at_lookup {A} (v : list A) (i : Z) :
  0 ≤ i → vec_at v i = v !! Z.to_nat i.
Proof.
  revert i. induction v as [|x v IH]; intros i Hi; simpl.
  - by rewrite lookup_nil.
  - destruct (Z.eqb_spec i 0) as [->|Hne]; [done|].
    rewrite IH by lia.
    replace (Z.to_nat i) with (S (Z.to_nat (i - 1))) by lia. done.
Qed.

Lemma vec_at_ge {A} (v : list A) (i : Z) :
  Z.of_nat (length v) ≤ i → vec_at v i = None.
Proof.
  intros Hi. rewrite vec_at_lookup by lia.
  apply lookup_ge_None_2. lia.
Qed.

(** ** Doubles *)

Definition half : Qc := Q2Qc (1 # 2).

#[export] Instance Q_eq_dec : EqDecision Q.
Proof. solve_decision. Defined.

Definition Qcleb (x y : Qc) : bool := Qle_bool x y.
Definition Qcltb (x y : Qc) : bool := negb (Qcleb y x).

(** ** The bound interface *)

(** Modelled from the spec: [HRectBound], which is declared outside the
    files at hand; the tree uses it through [operator|=], [Dim], [Diameter]
    and the constructor that takes a dimension.  The interface is what the
    tree code relies on. *)

Class BoundOps (point bound : Type) := {
  vec_n_elem : point → Z;                  (* arma::vec::n_elem *)
  bound_new : Z → bound;                   (* HRectBound(dim): empty *)
  bound_Dim : bound → Z;                   (* Dim() *)
  bound_expand : bound → point → bound;    (* operator|= *)
  bound_Contains : bound → point → Prop;
}.

(** [Diameter()] of the bound. *)
Class BoundDiameter (bound : Type) := bound_Diameter : bound → Qc.

(** Modelled from the spec: the contract of section 4.1 on the absent
    bound: after a union the bound contains what it contained before, and
    the point that was added. *)
Class BoundLaws (point bound : Type) `{BoundOps point bound} := {
  bound_Dim_new d : 0 ≤ d → bound_Dim (bound_new d) = d;
  bound_Dim_expand b p :
    vec_n_elem p = bound_Dim b → bound_Dim (bound_expand b p) = bound_Dim b;
  bound_expand_covers b p :
    vec_n_elem p = bound_Dim b → bound_Contains (bound_expand b p) p;
  bound_expand_subsumes b p x :
    vec_n_elem p = bound_Dim b →
    bound_Contains b x → bound_Contains (bound_expand b p) x;
}.

Module RTree.

(** *** Data *)

(** [arma::mat]: [n_rows] and the columns.  A column that was allocated and
    never written holds no point. *)
Record Mat (point : Type) := mkMat {
  n_rows : Z;
  cols : list (option point);
}.
Arguments mkMat {point} _ _.
Arguments n_rows {point} _.
Arguments cols {point} _.

Definition n_cols {point} (m : Mat point) : Z := Z.of_nat (length (cols m)).

(** [MatType(n_rows, n_cols)]. *)
Definition Mat_new {point} (rows ncols : Z) : Mat point :=
  mkMat rows (replicate (Z.to_nat ncols) None).

(** [m.col(i) = p]. *)
Definition Mat_set_col {point} (m : Mat point) (i : Z) (p : point)
  : outcome (Mat point) :=
  if (0 <=? i) && (i <? n_cols m)
  then Returned (mkMat (n_rows m) (<[Z.to_nat i := Some p]> (cols m)))
  else Aborted IndexOutOfBounds.

(** The node.  [parent] is not a field here: a node is reached through the
    path from the root ([loc] below).  [stat] and [parentDistance] play no
    part in the functions modelled. *)
#[warnings="-register-all"]
Inductive RectangleTree (point bound : Type) : Type := mkRectangleTree {
  maxNumChildren : Z;
  minNumChildren : Z;
  numChildren : Z;
  children : list (option (RectangleTree point bound));
  begin : Z;
  count : Z;
  maxLeafSize : Z;
  minLeafSize : Z;
  bound : bound;
  dataset : Mat point;
}.
Arguments mkRectangleTree {point bound}.
Arguments maxNumChildren {point bound} _.
Arguments minNumChildren {point bound} _.
Arguments numChildren {point bound} _.
Arguments children {point bound} _.
Arguments begin {point bound} _.
Arguments count {point bound} _.
Arguments maxLeafSize {point bound} _.
Arguments minLeafSize {point bound} _.
Arguments bound {point bound} _.
Arguments dataset {point bound} _.

Section Tree.
Context {point boundT : Type} `{BoundOps point boundT, BoundDiameter boundT}.

Abbreviation Tree := (RectangleTree point boundT).

Definition set_bound (t : Tree) (b : boundT) : Tree :=
  mkRectangleTree (maxNumChildren t) (minNumChildren t) (numChildren t)
    (children t) (begin t) (count t) (maxLeafSize t) (minLeafSize t)
    b (dataset t).

Definition set_children (t : Tree) (cs : list (option Tree)) : Tree :=
  mkRectangleTree (maxNumChildren t) (minNumChildren t) (numChildren t)
    cs (begin t) (count t) (maxLeafSize t) (minLeafSize t)
    (bound t) (dataset t).

Definition set_points (t : Tree) (c : Z) (d : Mat point) : Tree :=
  mkRectangleTree (maxNumChildren t) (minNumChildren t) (numChildren t)
    (children t) (begin t) c (maxLeafSize t) (minLeafSize t)
    (bound t) d.

(** [static_cast<int>(x)] on a 32-bit [int]. *)
Definition static_cast_int (x : Z) : Z := (x + 2 ^ 31) mod 2 ^ 32 - 2 ^ 31.

(** The node left by the initialiser list of the first constructor
    (lines 31-42), before any point is inserted. *)
Definition RectangleTree_init (n_rows_data : Z)
    (maxLeafSize_ minLeafSize_ maxNumChildren_ minNumChildren_ : Z) : Tree :=
  mkRectangleTree maxNumChildren_ minNumChildren_ 0
    (replicate (Z.to_nat (wrap (maxNumChildren_ + 1))) None)
    0 0 maxLeafSize_ minLeafSize_
    (bound_new n_rows_data)
    (Mat_new n_rows_data (static_cast_int maxLeafSize_ + 1)).

(** The second constructor, [RectangleTree(parentNode)] (lines 59-75). *)
Definition RectangleTree_child (parentNode : Tree) : Tree :=
  mkRectangleTree (maxNumChildren parentNode) (minNumChildren parentNode) 0
    (replicate (Z.to_nat (wrap (maxNumChildren parentNode + 1))) None)
    0 0 (maxLeafSize parentNode) (minLeafSize parentNode)
    (bound_new (bound_Dim (bound parentNode)))
    (Mat_new (static_cast_int (bound_Dim (bound parentNode)))
       (static_cast_int (maxLeafSize parentNode) + 1)).

(** *** Accessors *)

Definition IsLeaf (t : Tree) : bool := numChildren t =? 0.

Definition FurthestPointDistance (t : Tree) : Qc :=
  if negb (IsLeaf t) then 0%Qc
  else (half * bound_Diameter (bound t))%Qc.

Definition NumPoints (t : Tree) : Z :=
  if negb (numChildren t =? 0) then 0 else count t.

Definition Descendant (t : Tree) (index : Z) : Z := wrap (begin t + index).
Definition Point (t : Tree) (index : Z) : Z := wrap (begin t + index).

(** [End()], lines 322-327.  On the path where [numChildren] is zero the
    index [numChildren-1] is computed on [size_t]. *)
Fixpoint End (t : Tree) : outcome Z :=
  if negb (numChildren t =? 0) then Returned (wrap (begin t + count t))
  else
    (fix at_ (cs : list (option Tree)) (i : Z) {struct cs} : outcome Z :=
       match cs with
       | [] => Aborted IndexOutOfBounds
       | c :: cs' =>
           if i =? 0 then
             match c with
             | Some child => End child
             | None => Aborted NullDereference
             end
           else at_ cs' (i - 1)
       end) (children t) (wrap (numChildren t - 1)).

(** The loops of [TreeSize], [TreeDepth] and [NumDescendants] over
    [children[i]] for [i] from 0 while [i < numChildren]: [k] rounds, each
    taking what [f] returns on the next child into the accumulator. *)
Definition for_children {T A : Type} (f : T → outcome Z) (step : A → Z → A)
  : list (option T) → nat → A → outcome A :=
  fix loop (cs : list (option T)) (k : nat) (acc : A) {struct cs}
    : outcome A :=
    match k with
    | O => Returned acc
    | S k' =>
        match cs with
        | [] => Aborted IndexOutOfBounds
        | None :: _ => Aborted NullDereference
        | Some c :: cs' => x ←! f c; loop cs' k' (step acc x)
        end
    end.

(** [TreeSize()], lines 172-180.  The accumulator [n] is an [int]: in
    [n += children[i]->TreeSize()] the sum is taken on [size_t] and brought
    back to [int]; [n + 1] is an [int] sum, returned as a [size_t].  The
    [int] operations are those of a two's-complement machine. *)
Fixpoint TreeSize (t : Tree) : outcome Z :=
  n ←! for_children TreeSize
         (λ n x, static_cast_int (wrap (wrap n + x)))
         (children t) (Z.to_nat (numChildren t)) 0;
  Returned (wrap (static_cast_int (n + 1))).

(** [TreeDepth()], lines 188-203; [int d = children[i]->TreeDepth()]. *)
Fixpoint TreeDepth (t : Tree) : outcome Z :=
  maxSubDepth ←! for_children TreeDepth
         (λ maxSubDepth x,
            let d := static_cast_int x in
            if d >? maxSubDepth then d else maxSubDepth)
         (children t) (Z.to_nat (numChildren t)) 0;
  Returned (wrap (static_cast_int (maxSubDepth + 1))).

(** [NumDescendants()], lines 274-286; [n] is a [size_t]. *)
Fixpoint NumDescendants (t : Tree) : outcome Z :=
  if numChildren t =? 0 then Returned (count t)
  else for_children NumDescendants (λ n x, wrap (n + x))
         (children t) (Z.to_nat (numChildren t)) 0.

(** *** A node inside its tree *)

(** The node [this] together with the way up to the root: each step records
    the parent and the slot of [children] the node hangs in. *)
Record loc := mkLoc {
  ctx : list (Tree * Z);
  this : Tree;
}.

Definition plug_frame (f : Tree * Z) (c : Tree) : Tree :=
  set_children f.1 (<[Z.to_nat f.2 := Some c]> (children f.1)).

(** The root of the tree a location lives in. *)
Definition root_of (l : loc) : Tree :=
  fold_left (λ c f, plug_frame f c) (ctx l) (this l).

(** *** SplitNode, lines 339-352 *)

Section Policies.
(** [SplitType::SplitLeafNode(this)]: the split policy is a template
    argument; it receives the node inside its tree and leaves a tree. *)
Variable SplitLeafNode : loc → loc.
(** [DescentType::EvalNode(bound, point)]. *)
Variable EvalNode : boundT → point → Qc.

Definition SplitNode (l : loc) : outcome loc :=
  if negb (numChildren (this l) =? 0) then Aborted AssertionFailed
  else if count (this l) <? maxLeafSize (this l) then Returned l
  else Returned (SplitLeafNode l).

(** *** InsertPoint, lines 140-166 *)

(** [children[i]->Bound()]. *)
Definition child_Bound (t : Tree) (i : Z) : outcome boundT :=
  match vec_at (children t) i with
  | None => Aborted IndexOutOfBounds
  | Some None => Aborted NullDereference
  | Some (Some c) => Returned (bound c)
  end.

(** The loop of lines 158-164 over [i = from, from+1, ...], [n] rounds. *)
Fixpoint best_child_loop (t : Tree) (p : point) (n : nat) (i : Z)
    (minScore : Qc) (bestIndex : Z) : outcome Z :=
  match n with
  | O => Returned bestIndex
  | S n' =>
      b ←! child_Bound t i;
      let score := EvalNode b p in
      if Qcltb score minScore
      then best_child_loop t p n' (i + 1) score i
      else best_child_loop t p n' (i + 1) minScore bestIndex
  end.

Definition best_child (t : Tree) (p : point) : outcome Z :=
  b0 ←! child_Bound t 0;
  best_child_loop t p (Z.to_nat (numChildren t - 1)) 1 (EvalNode b0 p) 0.

Fixpoint InsertPoint (up : list (Tree * Z)) (node : Tree) (p : point)
    {struct node} : outcome loc :=
  let node1 := set_bound node (bound_expand (bound node) p) in
  if numChildren node =? 0 then
    d ←! Mat_set_col (dataset node1) (count node1) p;
    SplitNode (mkLoc up (set_points node1 (wrap (count node1 + 1)) d))
  else
    bestIndex ←! best_child node p;
    (fix at_ (cs : list (option Tree)) (i : Z) {struct cs} : outcome loc :=
       match cs with
       | [] => Aborted IndexOutOfBounds
       | c :: cs' =>
           if i =? 0 then
             match c with
             | Some child => InsertPoint ((node1, bestIndex) :: up) child p
             | None => Aborted NullDereference
             end
           else at_ cs' (i - 1)
       end) (children node) bestIndex.

(** *** The constructor, lines 24-53 *)

(** [root->InsertPoint(data.col(i))] for the columns from [firstDataIndex]
    on; [root] stays the root. *)
Fixpoint insert_all (root : Tree) (ps : list (option point))
  : outcome Tree :=
  match ps with
  | [] => Returned root
  | None :: _ => Aborted UninitialisedRead
  | Some p :: ps' =>
      l ←! InsertPoint [] root p;
      insert_all (root_of l) ps'
  end.

Definition RectangleTree_new (data : Mat point)
    (maxLeafSize_ minLeafSize_ maxNumChildren_ minNumChildren_
     firstDataIndex : Z) : outcome Tree :=
  let root := RectangleTree_init (n_rows data)
                maxLeafSize_ minLeafSize_ maxNumChildren_ minNumChildren_ in
  let i0 := static_cast_int firstDataIndex in
  if (0 <=? i0) && (i0 <? n_cols data)
  then insert_all root (drop (Z.to_nat i0) (cols data))
  else Returned root.

End Policies.

(** *** Invariants *)

(** [c] is [children[i]] of [t] for an [i] below [numChildren]. *)
Definition Child_at (t : Tree) (i : Z) (c : Tree) : Prop :=
  0 ≤ i < numChildren t ∧ children t !! Z.to_nat i = Some (Some c).

(** [p] is stored in the subtree of [t]: in one of the first [count]
    columns of a leaf below [t]. *)
Inductive Stored (p : point) : Tree → Prop :=
| Stored_leaf t i :
    numChildren t = 0 → 0 ≤ i < count t →
    cols (dataset t) !! Z.to_nat i = Some (Some p) → Stored p t
| Stored_child t i c :
    Child_at t i c → Stored p c → Stored p t.

(** [n] is a node of the tree rooted at [t]. *)
Inductive Node_of (n : Tree) : Tree → Prop :=
| Node_self : Node_of n n
| Node_child t i c : Child_at t i c → Node_of n c → Node_of n t.

(** Every node's bound contains every point stored in that node's
    subtree. *)
Definition BoundInv (t : Tree) : Prop :=
  ∀ n, Node_of n t → ∀ p, Stored p n → bound_Contains (bound n) p.

(** What the code needs of a node so as not to stop: the vectors have the
    sizes the constructors give them, the first [numChildren] children are
    there, and a leaf has room for one more point.  [d] is the dimension,
    [M] is [maxLeafSize], [C] is [maxNumChildren]. *)
Record node_shape (d M C : Z) (n : Tree) : Prop := {
  shape_maxLeafSize : maxLeafSize n = M;
  shape_maxNumChildren : maxNumChildren n = C;
  shape_Dim : bound_Dim (bound n) = d;
  shape_children : Z.of_nat (length (children n)) = C + 1;
  shape_numChildren : 0 ≤ numChildren n ≤ C + 1;
  shape_child i : 0 ≤ i < numChildren n → ∃ c, Child_at n i c;
  shape_dataset : n_cols (dataset n) = M + 1;
}.

Definition node_ok (d M C : Z) (n : Tree) : Prop :=
  node_shape d M C n ∧ (numChildren n = 0 → 0 ≤ count n < M).

Definition WF (d M C : Z) (t : Tree) : Prop :=
  ∀ n, Node_of n t → node_ok d M C n.

Definition Inv (d M C : Z) (t : Tree) : Prop :=
  WF d M C t ∧ BoundInv t.

(** The way up from a subtree whose stored points satisfy [P]: every
    parent is well shaped, its bound contains the points of the subtree and
    of its other children, and the other children satisfy the invariant. *)
Section Way_up.
Variables d M C : Z.

Fixpoint ctx_ok (P : point → Prop) (up : list (Tree * Z)) : Prop :=
  match up with
  | [] => True
  | (parent, i) :: up' =>
      node_ok d M C parent ∧ 0 ≤ i < numChildren parent ∧
      (∀ p, P p → bound_Contains (bound parent) p) ∧
      (∀ j c, j ≠ i → Child_at parent j c →
         Inv d M C c ∧ ∀ p, Stored p c → bound_Contains (bound parent) p) ∧
      ctx_ok (λ p, P p ∨ ∃ j c, j ≠ i ∧ Child_at parent j c ∧ Stored p c) up'
  end.

End Way_up.

(** The state in which [SplitNode] hands a leaf to the split policy: the
    leaf has just reached [maxLeafSize] points, and nothing else is out of
    order. *)
Record SplitPre (d M C : Z) (l : loc) : Prop := {
  pre_shape : node_shape d M C (this l);
  pre_leaf : numChildren (this l) = 0;
  pre_full : count (this l) = M;
  pre_bound : ∀ p, Stored p (this l) → bound_Contains (bound (this l)) p;
  pre_ctx : ctx_ok d M C (λ p, Stored p (this l)) (ctx l);
}.

(** The state in which [InsertPoint] calls [SplitNode] after it came down
    from [up] with the point [p]: [p] is in the leaf, and the bound of the
    leaf and of every node passed on the way down contains [p]. *)
Record Arrived (d M C : Z) (p : point) (up : list (Tree * Z)) (l : loc)
  : Prop := {
  arr_shape : node_shape d M C (this l);
  arr_leaf : numChildren (this l) = 0;
  arr_count : 1 ≤ count (this l) ≤ M;
  arr_stored : Stored p (this l);
  arr_bound : ∀ x, Stored x (this l) → bound_Contains (bound (this l)) x;
  arr_ctx : ctx_ok d M C (λ x, Stored x (this l)) (ctx l);
  arr_path : ∃ path, ctx l = path ++ up ∧
                     Forall (λ f, bound_Contains (bound f.1) p) path;
}.

(** *** A split policy

    Halves a full leaf: the node keeps its bound and becomes the parent of
    two new leaves, built by the second constructor, which take the first
    [count/2] columns and the rest.  Both get the bound of the node. *)
Definition half_leaf (parentNode : Tree) (from n : Z) : Tree :=
  let c := RectangleTree_child parentNode in
  set_bound
    (set_points c n
       (mkMat (n_rows (dataset c))
          (take (Z.to_nat n) (drop (Z.to_nat from) (cols (dataset parentNode)))
           ++ drop (Z.to_nat n) (cols (dataset c)))))
    (bound parentNode).

Definition halve_leaf (t : Tree) : Tree :=
  let h := count t / 2 in
  mkRectangleTree (maxNumChildren t) (minNumChildren t) 2
    (<[0%nat := Some (half_leaf t 0 h)]>
       (<[1%nat := Some (half_leaf t h (count t - h))]> (children t)))
    (begin t) 0 (maxLeafSize t) (minLeafSize t) (bound t) (dataset t).

Definition HalveSplit (l : loc) : loc := mkLoc (ctx l) (halve_leaf (this l)).

End Tree.
End RTree.

(** ** nbr_utils.h *)

Module NbrUtils.

(** *** StatFixer *)

(** The statistic of a node, as [FixRecursively_] uses it.  [Param],
    [Point], the bound and the statistic are template arguments. *)
Class StatOps (Param Point Bound Stat : Type) := {
  Reset : Param → Stat → Stat;
  AccumulatePoint : Param → Point → Stat → Stat;
  AccumulateChild : Param → Stat → Bound → Z → Stat → Stat;
  Postprocess : Param → Bound → Z → Stat → Stat;
}.

(** A tree node as [FixRecursively_] reads it: [stat()], [bound()],
    [begin()], [count()], [is_leaf()] and [child(k)]. *)
Record Node (Bound Stat : Type) := mkNode {
  stat : Stat;
  bound : Bound;
  begin : Z;
  count : Z;
  is_leaf : bool;
  child : Z → Z;
}.
Arguments mkNode {Bound Stat}.
Arguments stat {Bound Stat} _.
Arguments bound {Bound Stat} _.
Arguments begin {Bound Stat} _.
Arguments count {Bound Stat} _.
Arguments is_leaf {Bound Stat} _.
Arguments child {Bound Stat} _ _.

Section StatFixer.
Context {Param Point Bound Stat : Type} `{StatOps Param Point Bound Stat}.
Variable param_ : Param.
Variable points_ : list Point.

Abbreviation Nodes := (list (Node Bound Stat)).

(** Reading an element of a [CacheArray]. *)
Definition cache_read {A} (a : list A) (i : Z) : outcome A :=
  match vec_at a i with
  | Some x => Returned x
  | None => Aborted IndexOutOfBounds
  end.

(** [node->stat().f(...)] through the [CacheWrite] handle of node
    [node_index]: the statistic in the array changes. *)
Definition with_stat (nodes : Nodes) (node_index : Z)
    (f : Node Bound Stat → Stat → Stat) : outcome Nodes :=
  node ←! cache_read nodes node_index;
  Returned (<[Z.to_nat node_index :=
               mkNode (f node (stat node)) (bound node) (begin node)
                 (count node) (is_leaf node) (child node)]> nodes).

(** The loop of lines 69-71: [n] rounds from point [i] on. *)
Fixpoint accumulate_points (nodes : Nodes) (node_index : Z) (n : nat)
    (i : Z) : outcome Nodes :=
  match n with
  | O => Returned nodes
  | S n' =>
      point ←! cache_read points_ i;
      nodes1 ←! with_stat nodes node_index
                  (λ _, AccumulatePoint param_ point);
      accumulate_points nodes1 node_index n' (i + 1)
  end.

(** [FixRecursively_], lines 49-75.  The recursion follows the child
    indices stored in the array; [fuel] bounds its depth. *)
Fixpoint FixRecursively_ (fuel : nat) (node_index : Z) (nodes : Nodes)
  : option (outcome Nodes) :=
  match fuel with
  | O => None
  | S fuel' =>
      let postprocess nodes :=
        with_stat nodes node_index
          (λ node, Postprocess param_ (bound node) (count node)) in
      let fix_child (k : Z) (r : option (outcome Nodes)) :=
        match r with
        | Some (Returned nodes) =>
            match cache_read nodes node_index with
            | Aborted f => Some (Aborted f)
            | Returned node =>
                let child_index := child node k in
                match FixRecursively_ fuel' child_index nodes with
                | Some (Returned nodes1) =>
                    Some (c ←! cache_read nodes1 child_index;
                          with_stat nodes1 node_index
                            (λ _, AccumulateChild param_ (stat c) (bound c)
                                    (count c)))
                | other => other
                end
            end
        | other => other
        end in
      match with_stat nodes node_index (λ _, Reset param_) with
      | Aborted f => Some (Aborted f)
      | Returned nodes1 =>
          match cache_read nodes1 node_index with
          | Aborted f => Some (Aborted f)
          | Returned node =>
              if negb (is_leaf node) then
                match fix_child 1 (fix_child 0 (Some (Returned nodes1))) with
                | Some (Returned nodes2) =>
                    Some (nodes3 ←! postprocess nodes2; postprocess nodes3)
                | other => other
                end
              else
                Some (nodes2 ←! accumulate_points nodes1 node_index
                                  (Z.to_nat (count node)) (begin node);
                      postprocess nodes2)
          end
      end
  end.

End StatFixer.

(** The statistic that keeps the list of the operations applied to it,
    the latest first. *)
Inductive stat_op (Point : Type) : Type :=
| OpReset
| OpAccumulatePoint (p : Point)
| OpAccumulateChild (child_count : Z)
| OpPostprocess.
Arguments OpReset {Point}.
Arguments OpAccumulatePoint {Point} p.
Arguments OpAccumulateChild {Point} child_count.
Arguments OpPostprocess {Point}.

#[export] Instance stat_log (Point : Type)
  : StatOps unit Point unit (list (stat_op Point)) := {|
  Reset _ s := OpReset :: s;
  AccumulatePoint _ p s := OpAccumulatePoint p :: s;
  AccumulateChild _ _ _ n s := OpAccumulateChild n :: s;
  Postprocess _ _ _ s := OpPostprocess :: s;
|}.

Definition is_postprocess {Point} (o : stat_op Point) : bool :=
  match o with OpPostprocess => true | _ => false end.

(** How often [Postprocess] was applied since the last [Reset]. *)
Fixpoint postprocess_count {Point} (log : list (stat_op Point)) : nat :=
  match log with
  | [] => 0
  | OpReset :: _ => 0
  | OpPostprocess :: log' => S (postprocess_count log')
  | _ :: log' => postprocess_count log'
  end.

(** A root over two leaves of one point each. *)
Definition three_nodes : list (Node unit (list (stat_op nat))) :=
  [ mkNode [] () 0 2 false (λ k, k + 1);
    mkNode [] () 0 1 true (λ _, -1);
    mkNode [] () 1 1 true (λ _, -1) ].

(** *** StatFixer on a whole tree *)

Section Fixed.
Context {Param Point Bound Stat : Type} `{StatOps Param Point Bound Stat}.
Variable param_ : Param.
Variable points_ : list Point.

(** [InitFix], lines 38-46: [FixRecursively_(0)] between the set-up of the
    two cache arrays and their flush. *)
Definition InitFix (fuel : nat) (nodes : list (Node Bound Stat))
  : option (outcome (list (Node Bound Stat))) :=
  FixRecursively_ param_ points_ fuel 0 nodes.

(** What [FixRecursively_] never touches in a node. *)
Definition structure (n : Node Bound Stat)
  : Bound * Z * Z * bool * (Z → Z) :=
  (bound n, begin n, count n, is_leaf n, child n).

Definition set_stat (n : Node Bound Stat) (s : Stat) : Node Bound Stat :=
  mkNode s (bound n) (begin n) (count n) (is_leaf n) (child n).

(** The layout of a tree in the node array: the index of each node with
    the node found there, and the two subtrees below a node that is not a
    leaf. *)
Inductive shape : Type :=
| SLeaf (i : Z) (n : Node Bound Stat)
| SNode (i : Z) (n : Node Bound Stat) (l r : shape).

Definition shape_root (s : shape) : Z :=
  match s with SLeaf i _ => i | SNode i _ _ _ => i end.

Definition shape_node (s : shape) : Node Bound Stat :=
  match s with SLeaf _ n => n | SNode _ n _ _ => n end.

Fixpoint shape_indices (s : shape) : list Z :=
  match s with
  | SLeaf i _ => [i]
  | SNode i _ l r => i :: shape_indices l ++ shape_indices r
  end.

Fixpoint shape_height (s : shape) : nat :=
  match s with
  | SLeaf _ _ => 1
  | SNode _ _ l r => S (shape_height l `max` shape_height r)
  end.

(** The points a leaf owns: [count] points from [begin] on. *)
Definition owned_points (n : Node Bound Stat) : list Point :=
  take (Z.to_nat (count n)) (drop (Z.to_nat (begin n)) points_).

(** The array holds the tree: every node is where the layout has it, the
    children of a node are the roots of its subtrees, no index occurs
    twice, and the points of a leaf exist. *)
Fixpoint shape_ok (nodes : list (Node Bound Stat)) (s : shape) : Prop :=
  match s with
  | SLeaf i n =>
      vec_at nodes i = Some n ∧ is_leaf n = true ∧
      0 ≤ begin n ∧ 0 ≤ count n ∧
      begin n + count n ≤ Z.of_nat (length points_)
  | SNode i n l r =>
      vec_at nodes i = Some n ∧ is_leaf n = false ∧
      child n 0 = shape_root l ∧ child n 1 = shape_root r ∧
      (i ∉ shape_indices l) ∧ (i ∉ shape_indices r) ∧
      (∀ j, j ∈ shape_indices l → j ∉ shape_indices r) ∧
      shape_ok nodes l ∧ shape_ok nodes r
  end.

(** The statistic a node ends with, bottom-up. *)
Fixpoint fixed_stat (s : shape) : Stat :=
  match s with
  | SLeaf _ n =>
      Postprocess param_ (bound n) (count n)
        (foldl (λ st p, AccumulatePoint param_ p st)
           (Reset param_ (stat n)) (owned_points n))
  | SNode _ n l r =>
      Postprocess param_ (bound n) (count n)
        (Postprocess param_ (bound n) (count n)
           (AccumulateChild param_ (fixed_stat r)
              (bound (shape_node r)) (count (shape_node r))
              (AccumulateChild param_ (fixed_stat l)
                 (bound (shape_node l)) (count (shape_node l))
                 (Reset param_ (stat n)))))
  end.

(** The array with every node of the tree at its final statistic. *)
Fixpoint fixed_nodes (s : shape) (nodes : list (Node Bound Stat))
  : list (Node Bound Stat) :=
  match s with
  | SLeaf i n => <[Z.to_nat i := set_stat n (fixed_stat s)]> nodes
  | SNode i n l r =>
      <[Z.to_nat i := set_stat n (fixed_stat s)]>
        (fixed_nodes r (fixed_nodes l nodes))
  end.

End Fixed.

(** The layout of [three_nodes]. *)
Definition three_shape : shape (Bound := unit) (Stat := list (stat_op nat)) :=
  SNode 0 (mkNode [] () 0 2 false (λ k, k + 1))
    (SLeaf 1 (mkNode [] () 0 1 true (λ _, -1)))
    (SLeaf 2 (mkNode [] () 1 1 true (λ _, -1))).

(** *** The number of grains *)

(** Modelled from the spec: [fx_param_int], which is declared outside the
    files at hand: the parameter of that name among the algorithm
    parameters of section 6, or the default given when there is none. *)
Definition fx_param_int (module : gmap string Z) (name : string) (def : Z)
  : Z :=
  default def (module !! name).

(** [index_t] and [int] hold 32 bits: what is stored is the value modulo
    [2^32], from [-2^31] up to [2^31 - 1]. *)
Definition to_int (x : Z) : Z := (x + 2 ^ 31) mod 2 ^ 32 - 2 ^ 31.

(** The [n_grains] that [ThreadedDualTreeSolver::Solve] hands to
    [SimpleWorkQueue::Init], lines 146-150; [n_threads] and [n_grains] are
    [index_t], and so is the product. *)
Definition Solve_n_grains (module : gmap string Z) : Z :=
  let n_threads := to_int (fx_param_int module "n_threads" 1) in
  to_int (fx_param_int module "n_grains"
            (if n_threads =? 1 then 1 else to_int (n_threads * 3))).

(** The [n_grains] that [SetupMaster_] hands to [SimpleWorkQueue::Init],
    lines 399 and 410-412; [n_peers] is [rpc::n_peers()]; [n_threads] of
    the Config (line 277) and [n_grains] are [int], and so are the
    products. *)
Definition SetupMaster_n_grains (module : gmap string Z) (n_peers : Z) : Z :=
  let n_threads := to_int (fx_param_int module "n_threads" 1) in
  to_int (fx_param_int module "n_grains"
            (to_int (to_int (n_threads * to_int n_peers) * 3))).

(** [n] runs of [size] nodes each, as far as the nodes go. *)
Fixpoint runs (size n : nat) (nodes : list Z) : list (list Z) :=
  match n with
  | O => []
  | S n' => take size nodes :: runs size n' (drop size nodes)
  end.

(** Modelled from the spec: [SimpleWorkQueue::Init], whose code is absent:
    section 4.5 has it partition the node set into [n_grains] disjoint
    groups; here the groups are runs of the node array, all of the length
    that makes [n_grains] of them hold every node, the last ones shorter or
    empty.  The queue is the list of the groups. *)
Definition SimpleWorkQueue_Init (nodes : list Z) (n_grains : Z)
  : list (list Z) :=
  let n := Z.to_nat n_grains in
  runs ((length nodes + n - 1) / n) n nodes.

(** The work queue of [Solve], lines 146-150, and of [SetupMaster_], lines
    408-412. *)
Definition Solve_work_queue (module : gmap string Z) (q_nodes : list Z)
  : list (list Z) :=
  SimpleWorkQueue_Init q_nodes (Solve_n_grains module).

Definition SetupMaster_work_queue (module : gmap string Z) (n_peers : Z)
    (data_nodes : list Z) : list (list Z) :=
  SimpleWorkQueue_Init data_nodes (SetupMaster_n_grains module n_peers).

(** *** ThreadedDualTreeSolver

    The worker threads of lines 79-123 and 163-206.  What the threads share
    is the work queue, the module under which each grain gets its
    submodule, and the global result; the mutex makes each access one
    step.  [WorkQueueInterface], the serial solver and the global result
    are declared outside the file: the queue is a parameter, and of a grain
    the model keeps its index.  All workers are there from the start (the
    code starts them one after the other, which allows fewer orders of
    steps, not more). *)

Section Threads.
Variable Queue : Type.
(** [work_queue_->GetWork(&work)]: the indices handed out, and the queue
    afterwards. *)
Variable GetWork : Queue → list Z * Queue.

(** Where a worker is in [WorkerTask::Run]: before [GetWork] (lines 93-95),
    or in round [i] of the loop over [work] before [fx_submodule] (lines
    105-108), before [solver.InitSolve] (lines 110-113) or before
    [Accumulate] (lines 115-118), or past the [break] of line 98. *)
Inductive worker : Type :=
| AtGetWork
| AtSubmodule (work : list Z) (i : nat)
| AtInitSolve (work : list Z) (i : nat)
| AtAccumulate (work : list Z) (i : nat)
| Stopped.

Record solver := mkSolver {
  work_queue_ : Queue;
  (** the grains that were given a submodule of [module_], in order *)
  grains_ : list Z;
  (** the grains whose result [global_result_] has accumulated, in order *)
  global_result_ : list Z;
  workers : list worker;
}.

(** The next step of thread [t] of the solver; none when the thread has
    stopped or is not there. *)
Definition WorkerTask_step (s : solver) (t : nat) : option solver :=
  match workers s !! t with
  | Some AtGetWork =>
      let (work, q) := GetWork (work_queue_ s) in
      Some (mkSolver q (grains_ s) (global_result_ s)
              (<[t := if decide (length work = 0%nat) then Stopped
                      else AtSubmodule work 0]> (workers s)))
  | Some (AtSubmodule work i) =>
      match work !! i with
      | Some x =>
          Some (mkSolver (work_queue_ s) (grains_ s ++ [x])
                  (global_result_ s)
                  (<[t := AtInitSolve work i]> (workers s)))
      | None => None
      end
  | Some (AtInitSolve work i) =>
      Some (mkSolver (work_queue_ s) (grains_ s) (global_result_ s)
              (<[t := AtAccumulate work i]> (workers s)))
  | Some (AtAccumulate work i) =>
      match work !! i with
      | Some x =>
          Some (mkSolver (work_queue_ s) (grains_ s)
                  (global_result_ s ++ [x])
                  (<[t := if (S i <? length work)%nat
                          then AtSubmodule work (S i)
                          else AtGetWork]> (workers s)))
      | None => None
      end
  | Some Stopped | None => None
  end.

(** [InitSolve], lines 184-195: [n_threads] workers are started. *)
Definition InitSolve_start (n_threads : Z) (q : Queue) : solver :=
  mkSolver q [] [] (replicate (Z.to_nat n_threads) AtGetWork).

(** The threads run in some order: a schedule names the thread of each
    step. *)
Fixpoint run (schedule : list nat) (s : solver) : option solver :=
  match schedule with
  | [] => Some s
  | t :: schedule' =>
      match WorkerTask_step s t with
      | Some s' => run schedule' s'
      | None => None
      end
  end.

(** Every [WaitStop] of lines 197-200 returns. *)
Definition joined (s : solver) : Prop :=
  Forall (λ w, w = Stopped) (workers s).

(** What the first [m] calls of [GetWork] hand out, and the queue they
    leave. *)
Fixpoint handed (q : Queue) (m : nat) : list (list Z) :=
  match m with
  | O => []
  | S m' => let (work, q') := GetWork q in work :: handed q' m'
  end.

Fixpoint queue_after (q : Queue) (m : nat) : Queue :=
  match m with
  | O => q
  | S m' => queue_after (GetWork q).2 m'
  end.

(** The grains a worker holds that have no submodule yet, and those whose
    result is not accumulated yet. *)
Definition to_register (w : worker) : list Z :=
  match w with
  | AtSubmodule work i => drop i work
  | AtInitSolve work i | AtAccumulate work i => drop (S i) work
  | AtGetWork | Stopped => []
  end.

Definition to_accumulate (w : worker) : list Z :=
  match w with
  | AtSubmodule work i | AtInitSolve work i | AtAccumulate work i =>
      drop i work
  | AtGetWork | Stopped => []
  end.

(** The worker holds grains at valid rounds of its loop. *)
Definition worker_ok (w : worker) : Prop :=
  match w with
  | AtSubmodule work i | AtInitSolve work i | AtAccumulate work i =>
      (i < length work)%nat
  | AtGetWork | Stopped => True
  end.

(** The steps a worker has taken on the grain it is at. *)
Definition steps_on_grain (w : worker) : nat :=
  match w with
  | AtInitSolve _ _ => 1
  | AtAccumulate _ _ => 2
  | AtSubmodule _ _ | AtGetWork | Stopped => 0
  end.

Definition stopped (w : worker) : nat :=
  match w with Stopped => 1 | _ => 0 end.

(** What holds of the solver after [n] steps, [m] of them calls of
    [GetWork], when it started from the queue [q0]: the grains handed out
    are those with a submodule and those still to get one, and they are
    those accumulated and those still to be. *)
Record solver_inv (q0 : Queue) (m n : nat) (s : solver) : Prop := {
  inv_queue : work_queue_ s = queue_after q0 m;
  inv_workers : Forall worker_ok (workers s);
  inv_grains :
    concat (handed q0 m) ≡ₚ grains_ s ++ concat (to_register <$> workers s);
  inv_result :
    concat (handed q0 m)
      ≡ₚ global_result_ s ++ concat (to_accumulate <$> workers s);
  inv_steps :
    n = (m + 3 * length (global_result_ s)
         + sum_list (steps_on_grain <$> workers s))%nat;
}.

End Threads.

Arguments mkSolver {Queue}.
Arguments work_queue_ {Queue} _.
Arguments grains_ {Queue} _.
Arguments global_result_ {Queue} _.
Arguments workers {Queue} _.
Arguments WorkerTask_step {Queue} GetWork s t.
Arguments InitSolve_start {Queue} n_threads q.
Arguments run {Queue} GetWork schedule s.
Arguments joined {Queue} s.
Arguments handed {Queue} GetWork q m.
Arguments queue_after {Queue} GetWork q m.
Arguments solver_inv {Queue} GetWork q0 m n s.

(** A queue that is a list of batches; an empty one hands out nothing. *)
Definition list_GetWork (q : list (list Z)) : list Z * list (list Z) :=
  match q with
  | [] => ([], [])
  | work :: q' => (work, q')
  end.

(** Two batches of grains, and an order of steps in which two workers
    share them and stop. *)
Definition two_batches : list (list Z) := [[1; 2]; [3]].

Definition two_workers_schedule : list nat :=
  [0; 1; 0; 0; 0; 1; 1; 1; 0; 0; 0; 0; 1]%nat.

End NbrUtils.

(** ** All-k-nearest-neighbour search

    [AllkNN] and its [ComputeNeighbors] are exercised by allknn_test.cc and
    defined outside the files at hand; so are the tree, the bound and the
    metric it searches with. *)

Module AllkNN.

(** Modelled from the spec: the metric and the lower bounds of section 4.1,
    [minDistance(point)] and [minDistance(bound)], which are declared
    outside the files at hand.  The distances of the search are squared
    distances (allknn_test.cc, lines 66-69). *)
Class Metric (point bound : Type) := {
  Distance : point → point → Qc;
  MinDistancePoint : bound → point → Qc;
  MinDistanceBound : bound → bound → Qc;
}.

(** Modelled from the spec: the soundness contract of section 4.1 on the
    absent [minDistance]: it never overestimates the distance to a point
    of the bound. *)
Class MetricLaws (point bound : Type)
    `{BoundOps point bound, Metric point bound} := {
  MinDistancePoint_sound b p x :
    bound_Contains b x → (MinDistancePoint b p ≤ Distance p x)%Qc;
  MinDistanceBound_sound bq br x y :
    bound_Contains bq x → bound_Contains br y →
    (MinDistanceBound bq br ≤ Distance x y)%Qc;
}.

(** Modelled from the spec: the SpatialNode of section 3, absent from the
    files at hand, with two children as the midpoint builder of section 4.2
    makes them: a bound and either a range [begin, begin+count) of point
    indices or the children. *)
Inductive SpatialNode (bound : Type) : Type :=
| Leaf (b : bound) (begin count : nat)
| Internal (b : bound) (left right : SpatialNode bound).
Arguments Leaf {bound} b begin count.
Arguments Internal {bound} b left right.

(** Modelled from the spec: the Param of sections 3 and 6, absent from the
    files at hand. *)
Record Param := mkParam {
  k : nat;
  naive_mode : bool;
  single_mode : bool;
}.

(** Modelled from the spec: the QueryResult of one query point (section
    3), absent from the files at hand: reference indices with their
    distances, nearest first, at most [k] of them; a slot not yet filled is
    not in the list. *)
Abbreviation QueryResult := (list (nat * Qc)).

(** Modelled from the spec: the order of two entries that are as near
    (section 4.4, step 3), see [goes_before]. *)
Inductive tie_rule := SeenFirst | SeenLast | LowerIndex | HigherIndex.


Section Search.
Context {point bound : Type}
  `{BoundOps point bound, BoundDiameter bound, Metric point bound}.

Definition node_bound (t : SpatialNode bound) : bound :=
  match t with
  | Leaf b _ _ => b
  | Internal b _ _ => b
  end.

(** The points of the subtree of a node. *)
Fixpoint points_under (t : SpatialNode bound) : list nat :=
  match t with
  | Leaf _ begin count => seq begin count
  | Internal _ l r => points_under l ++ points_under r
  end.

(** Modelled from the spec: the ordered list of section 4.4, step 3, whose
    code is absent: insertion into the sorted list, and the list cut at [k].
    Among entries that are as near, section 4.4 has "ties broken by
    first-seen index to guarantee determinism under result merging".  Read
    by index, the entry with the lower reference index is first
    ([LowerIndex]); the neighbours that exhaustive_synthetic_test expects of
    points 1 and 5 have the higher index first ([HigherIndex]).  Read by the
    order of the visits, the entry seen first is first ([SeenFirst]), or
    the one seen last ([SeenLast]).  All four are covered. *)
Variable ties : tie_rule.

Definition goes_before (e e' : nat * Qc) : bool :=
  match ties with
  | SeenFirst => Qcltb e.2 e'.2
  | SeenLast => Qcleb e.2 e'.2
  | LowerIndex => Qcltb e.2 e'.2 || (Qcleb e.2 e'.2 && (e.1 <? e'.1)%nat)
  | HigherIndex => Qcltb e.2 e'.2 || (Qcleb e.2 e'.2 && (e'.1 <? e.1)%nat)
  end.

Fixpoint insert_sorted (e : nat * Qc) (row : QueryResult) : QueryResult :=
  match row with
  | [] => [e]
  | e' :: row' =>
      if goes_before e e' then e :: e' :: row'
      else e' :: insert_sorted e row'
  end.

Definition insert_topk (k : nat) (e : nat * Qc) (row : QueryResult)
  : QueryResult :=
  take k (insert_sorted e row).

(** The current k-th best distance of a query point, once there is one. *)
Definition kth_best (k : nat) (row : QueryResult) : option Qc :=
  snd <$> row !! (k - 1)%nat.

(** Modelled from the spec: the pruning test of section 4.4, step 2, whose
    code is absent: the bound exceeds the current k-th best distance. *)
Definition cannot_improve (k : nat) (lower : Qc) (row : QueryResult) : bool :=
  match kth_best k row with
  | Some d => Qcltb d lower
  | None => false
  end.

(** The number of neighbours asked for, [k] of the Param. *)
Variable k : nat.
(** The query set is the reference set: a point is not its own
    neighbour (the eleven points of the test have ten neighbours each). *)
Variable monochromatic : bool.
Variable queries references : list point.

(** The entry a reference point makes in the list of a query point. *)
Definition candidate (qi : nat) (x : point) (ri : nat) : option (nat * Qc) :=
  if monochromatic && (qi =? ri)%nat then None
  else (λ y, (ri, Distance x y)) <$> references !! ri.

(** One reference point against one query point. *)
Definition visit_point (qi : nat) (x : point) (row : QueryResult) (ri : nat)
  : QueryResult :=
  match candidate qi x ri with
  | Some e => insert_topk k e row
  | None => row
  end.

Definition visit_range (qi : nat) (x : point) (ris : list nat)
    (row : QueryResult) : QueryResult :=
  foldl (visit_point qi x) row ris.

(** Modelled from the spec: the base case of section 4.4, step 3, whose
    code is absent: every pair of a query point and a reference point of
    the two ranges. *)
Definition BaseCase (qis ris : list nat) (results : list QueryResult)
  : list QueryResult :=
  foldl (λ res qi,
           match queries !! qi with
           | Some x => alter (visit_range qi x ris) qi res
           | None => res
           end) results qis.

Definition prune_pair (q r : SpatialNode bound) (results : list QueryResult)
  : bool :=
  forallb (λ qi,
             match results !! qi with
             | Some row =>
                 cannot_improve k
                   (MinDistanceBound (node_bound q) (node_bound r)) row
             | None => false
             end) (points_under q).

(** Modelled from the spec: the recursion of section 4.4 over a query node
    and a reference node, whose code is absent: prune, or the base case on
    two leaves, or else the children of the inner node, of the one with the
    larger bound when both are inner nodes; the reference children nearest
    first. *)
Fixpoint DualTreeTraversal (q : SpatialNode bound)
  : SpatialNode bound → list QueryResult → list QueryResult :=
  fix on_reference (r : SpatialNode bound) (results : list QueryResult)
    {struct r} : list QueryResult :=
    if prune_pair q r results then results
    else
      match q, r with
      | Leaf _ qbegin qcount, Leaf _ rbegin rcount =>
          BaseCase (seq qbegin qcount) (seq rbegin rcount) results
      | Leaf bq _ _, Internal _ r1 r2 =>
          if Qcleb (MinDistanceBound bq (node_bound r1))
                   (MinDistanceBound bq (node_bound r2))
          then on_reference r2 (on_reference r1 results)
          else on_reference r1 (on_reference r2 results)
      | Internal _ q1 q2, Leaf _ _ _ =>
          DualTreeTraversal q2 r (DualTreeTraversal q1 r results)
      | Internal bq q1 q2, Internal br r1 r2 =>
          if Qcleb (bound_Diameter br) (bound_Diameter bq)
          then DualTreeTraversal q2 r (DualTreeTraversal q1 r results)
          else if Qcleb (MinDistanceBound bq (node_bound r1))
                        (MinDistanceBound bq (node_bound r2))
          then on_reference r2 (on_reference r1 results)
          else on_reference r1 (on_reference r2 results)
      end.

(** Modelled from the spec: the single-tree mode of section 4.4, whose code
    is absent: the query side is one point. *)
Fixpoint SingleTreeTraversal (qi : nat) (x : point) (r : SpatialNode bound)
    (results : list QueryResult) : list QueryResult :=
  if match results !! qi with
     | Some row =>
         cannot_improve k (MinDistancePoint (node_bound r) x) row
     | None => false
     end
  then results
  else
    match r with
    | Leaf _ rbegin rcount =>
        alter (visit_range qi x (seq rbegin rcount)) qi results
    | Internal _ r1 r2 =>
        if Qcleb (MinDistancePoint (node_bound r1) x)
                 (MinDistancePoint (node_bound r2) x)
        then SingleTreeTraversal qi x r2 (SingleTreeTraversal qi x r1 results)
        else SingleTreeTraversal qi x r1 (SingleTreeTraversal qi x r2 results)
    end.

Definition SingleTreeSearch (rtree : SpatialNode bound)
    (results : list QueryResult) : list QueryResult :=
  foldl (λ res qi,
           match queries !! qi with
           | Some x => SingleTreeTraversal qi x rtree res
           | None => res
           end) results (seq 0 (length queries)).

(** Modelled from the spec: the naive mode of section 4.4, whose code is
    absent: both sides are one leaf of all points, and the base case is
    always reached. *)
Definition NaiveSearch (results : list QueryResult) : list QueryResult :=
  BaseCase (seq 0 (length queries)) (seq 0 (length references)) results.

(** *** Well-formed trees *)

(** Every node's bound contains the points of its subtree, which exist. *)
Fixpoint bounds_ok (points : list point) (t : SpatialNode bound) : Prop :=
  Forall (λ i, ∃ x, points !! i = Some x ∧ bound_Contains (node_bound t) x)
    (points_under t) ∧
  match t with
  | Leaf _ _ _ => True
  | Internal _ l r => bounds_ok points l ∧ bounds_ok points r
  end.

(** A tree over a point array: its leaves hold every index once. *)
Definition tree_over (points : list point) (t : SpatialNode bound) : Prop :=
  bounds_ok points t ∧ points_under t ≡ₚ seq 0 (length points).

(** The distances from a query point to the reference points it is
    compared with. *)
Definition candidate_distances (qi : nat) (x : point) : list Qc :=
  (omap (candidate qi x) (seq 0 (length references))).*2.

(** *** What a traversal does to the results *)

Definition le_dist (a b : nat * Qc) : Prop := (a.2 ≤ b.2)%Qc.


(** The list of a query point is ascending and has at most [k] entries. *)
Definition row_ok (row : QueryResult) : Prop :=
  StronglySorted le_dist row ∧ (length row ≤ k)%nat.

(** [results'] is [results] after every query point of [qis] was compared
    with every reference point of [ris], in some order of [ris]. *)
Definition effect (qis ris : list nat) (results results' : list QueryResult)
  : Prop :=
  length results' = length results ∧
  ∀ qi,
    (qi ∉ qis → results' !! qi = results !! qi) ∧
    (qi ∈ qis → ∀ row, results !! qi = Some row →
       ∃ x l, queries !! qi = Some x ∧ l ≡ₚ ris ∧
              results' !! qi = Some (visit_range qi x l row)).

(** [results] is what a search leaves: every query point was compared
    with every reference point, in some order. *)
Definition searched (results : list QueryResult) : Prop :=
  length results = length queries ∧
  ∀ qi x, queries !! qi = Some x →
    ∃ l, l ≡ₚ seq 0 (length references) ∧
         results !! qi = Some (visit_range qi x l []).

End Search.

(** Modelled from the spec: [ComputeNeighbors], whose code is absent: the
    mode of the Param decides, and the result is the table of neighbour
    indices and the table of distances of section 6, one row per query
    point here. *)
Definition ComputeNeighbors {point bound : Type}
    `{BoundOps point bound, BoundDiameter bound, Metric point bound}
    (ties : tie_rule) (param : Param) (monochromatic : bool)
    (queries references : list point) (qtree rtree : SpatialNode bound)
  : list (list nat) * list (list Qc) :=
  let empty := replicate (length queries) [] in
  let results :=
    if naive_mode param then
      NaiveSearch ties (k param) monochromatic queries references
        empty
    else if single_mode param then
      SingleTreeSearch ties (k param) monochromatic queries
        references rtree empty
    else
      DualTreeTraversal ties (k param) monochromatic queries
        references qtree rtree empty in
  ((λ row : QueryResult, row.*1) <$> results,
   (λ row : QueryResult, row.*2) <$> results).

(** The three modes. *)
Definition naive (k : nat) : Param := mkParam k true false.
Definition single_tree (k : nat) : Param := mkParam k false true.
Definition dual_tree (k : nat) : Param := mkParam k false false.

(** Agreement up to a relative tolerance, for distances, which are not
    negative. *)
Definition within_tolerance (tol d e : Qc) : Prop :=
  (d - e ≤ tol * e)%Qc ∧ (e - d ≤ tol * e)%Qc.

End AllkNN.

(** ** Hyper-rectangles with rational corners *)

(** Modelled from the spec: the axis-aligned bound of sections 3 and 4.1
    ("min/max per dimension"), whose code is absent: per dimension a range,
    empty until the first point is added. *)

Module HRect.

Abbreviation vec := (list Qc).
Abbreviation Range := (option (Qc * Qc)).
Abbreviation HRectBound := (list Range).

Definition Qcmin (x y : Qc) : Qc := if Qcleb x y then x else y.
Definition Qcmax (x y : Qc) : Qc := if Qcleb x y then y else x.

Definition Range_expand (r : Range) (v : Qc) : Range :=
  match r with
  | None => Some (v, v)
  | Some (lo, hi) => Some (Qcmin lo v, Qcmax hi v)
  end.

Definition Range_Contains (r : Range) (v : Qc) : Prop :=
  match r with
  | None => False
  | Some (lo, hi) => (lo ≤ v)%Qc ∧ (v ≤ hi)%Qc
  end.

Definition Range_width (r : Range) : Qc :=
  match r with
  | None => 0%Qc
  | Some (lo, hi) => (hi - lo)%Qc
  end.

#[export] Instance HRect_ops : BoundOps vec HRectBound := {|
  vec_n_elem p := Z.of_nat (length p);
  bound_new d := replicate (Z.to_nat d) None;
  bound_Dim b := Z.of_nat (length b);
  bound_expand b p := zip_with Range_expand b p;
  bound_Contains b p := Forall2 Range_Contains b p;
|}.

(** [Diameter()] of [HRectBound<1>], the city-block instance, where no
    root is taken: the sum of the widths. *)
#[export] Instance HRect_Diameter : BoundDiameter HRectBound :=
  λ b, foldr (λ r acc, (Range_width r + acc)%Qc) 0%Qc b.

(** Modelled from the spec: the squared Euclidean distance and its lower
    bounds for hyper-rectangles, which are declared outside the files at
    hand. *)
Definition sq (x : Qc) : Qc := (x * x)%Qc.

Definition gap_point (r : Range) (v : Qc) : Qc :=
  match r with
  | None => 0%Qc
  | Some (lo, hi) =>
      if Qcltb v lo then (lo - v)%Qc
      else if Qcltb hi v then (v - hi)%Qc
      else 0%Qc
  end.

Definition gap_range (r1 r2 : Range) : Qc :=
  match r1, r2 with
  | Some (lo1, hi1), Some (lo2, hi2) =>
      if Qcltb hi1 lo2 then (lo2 - hi1)%Qc
      else if Qcltb hi2 lo1 then (lo1 - hi2)%Qc
      else 0%Qc
  | _, _ => 0%Qc
  end.

Definition sum_sq (gs : list Qc) : Qc :=
  foldr (λ g acc, (sq g + acc)%Qc) 0%Qc gs.

#[export] Instance HRect_metric : AllkNN.Metric vec HRectBound := {|
  AllkNN.Distance x y := sum_sq (zip_with Qcminus x y);
  AllkNN.MinDistancePoint b p := sum_sq (zip_with gap_point b p);
  AllkNN.MinDistanceBound b1 b2 := sum_sq (zip_with gap_range b1 b2);
|}.

(** A point of one coordinate, given in hundredths. *)
Definition pt1 (hundredths : Z) : vec := [Q2Qc (hundredths # 100)].

End HRect.

(** ** Sample trees *)

Module Samples.
Import RTree HRect.

(** A descent policy without preferences: every child scores [0]. *)
Definition EvalNode_flat (b : HRectBound) (p : vec) : Qc := 0%Qc.

(** The fresh root of the first constructor with its default arguments,
    for one-dimensional data. *)
Definition fresh_root : RectangleTree vec HRectBound :=
  RectangleTree_init 1 20 6 4 0.

Definition three_points : Mat vec :=
  mkMat 1 [Some (pt1 5); Some (pt1 35); Some (pt1 15)].

(** Three points in leaves of two: the root has split once, and so has its
    first child. *)
Definition small_tree : outcome (RectangleTree vec HRectBound) :=
  RectangleTree_new HalveSplit EvalNode_flat three_points 2 1 4 0 0.

(** The tree that [small_tree] returns. *)
Definition split_root : RectangleTree vec HRectBound :=
  match small_tree with
  | Returned t => t
  | Aborted _ => fresh_root
  end.

Definition no_points : Mat vec := mkMat 3 [].

(** The eleven points of exhaustive_synthetic_test. *)
Definition eleven_points : list vec :=
  [pt1 5; pt1 35; pt1 15; pt1 125; pt1 505; pt1 (-20); pt1 (-200);
   pt1 (-130); pt1 45; pt1 90; pt1 100].

Definition interval (lo hi : Z) : HRectBound :=
  [Some (Q2Qc (lo # 100), Q2Qc (hi # 100))].

(** A tree over the eleven points, in the order they are given. *)
Definition eleven_tree : AllkNN.SpatialNode HRectBound :=
  AllkNN.Internal (interval (-200) 505)
    (AllkNN.Internal (interval (-20) 505)
       (AllkNN.Leaf (interval 5 35) 0 3)
       (AllkNN.Leaf (interval (-20) 505) 3 3))
    (AllkNN.Internal (interval (-200) 100)
       (AllkNN.Leaf (interval (-200) 45) 6 3)
       (AllkNN.Leaf (interval 90 100) 9 2)).

(** The neighbours of point 0 and their squared distances, as
    exhaustive_synthetic_test expects them. *)
Definition neighbours_of_point_0 : list nat :=
  [2; 5; 1; 8; 9; 10; 3; 7; 6; 4]%nat.

Definition distances_of_point_0 : list Qc :=
  Q2Qc <$> [1 # 100; 625 # 10000; 9 # 100; 16 # 100; 7225 # 10000;
            9025 # 10000; 144 # 100; 18225 # 10000; 42025 # 10000; 25 # 1].

(** The whole table of neighbours that exhaustive_synthetic_test expects,
    point by point. *)
Definition expected_neighbours : list (list nat) :=
  [ [2; 5; 1; 8; 9; 10; 3; 7; 6; 4];
    [8; 2; 0; 9; 5; 10; 3; 7; 6; 4];
    [0; 1; 8; 5; 9; 10; 3; 7; 6; 4];
    [10; 9; 8; 1; 2; 0; 5; 7; 6; 4];
    [3; 10; 9; 8; 1; 2; 0; 5; 7; 6];
    [0; 2; 1; 8; 9; 7; 10; 3; 6; 4];
    [7; 5; 0; 2; 1; 8; 9; 10; 3; 4];
    [6; 5; 0; 2; 1; 8; 9; 10; 3; 4];
    [1; 2; 0; 9; 10; 5; 3; 7; 6; 4];
    [10; 3; 8; 1; 2; 0; 5; 7; 6; 4];
    [9; 3; 8; 1; 2; 0; 5; 7; 6; 4] ]%nat.

(** The distances that exhaustive_synthetic_test expects, point by point,
    in hundredths; the test squares them. *)
Definition expected_distances_hundredths : list (list Z) :=
  [ [10; 25; 30; 40; 85; 95; 120; 135; 205; 500];
    [10; 20; 30; 55; 55; 65; 90; 165; 235; 470];
    [10; 20; 30; 35; 75; 85; 110; 145; 215; 490];
    [25; 35; 80; 90; 110; 120; 145; 255; 325; 380];
    [380; 405; 415; 460; 470; 490; 500; 525; 635; 705];
    [25; 35; 55; 65; 110; 110; 120; 145; 180; 525];
    [70; 180; 205; 215; 235; 245; 290; 300; 325; 705];
    [70; 110; 135; 145; 165; 175; 220; 230; 255; 635];
    [10; 30; 40; 45; 55; 65; 80; 175; 245; 460];
    [10; 35; 45; 55; 75; 85; 110; 220; 290; 415];
    [10; 25; 55; 65; 85; 95; 120; 230; 300; 405] ].

Definition expected_distances : list (list Qc) :=
  (λ row : list Z, (λ h : Z, sq (Q2Qc (h # 100))) <$> row)
    <$> expected_distances_hundredths.

(** The tolerance of the test, [1e-5]. *)
Definition tolerance : Qc := Q2Qc (1 # 100000).

(** Four points of which two are equally far from the first, and a tree
    over them. *)
Definition tie_points : list vec := [pt1 0; pt1 200; pt1 (-200); pt1 (-100)].

Definition tie_tree : AllkNN.SpatialNode HRectBound :=
  AllkNN.Internal (interval (-200) 200)
    (AllkNN.Leaf (interval 0 0) 0 1)
    (AllkNN.Internal (interval (-200) 200)
       (AllkNN.Leaf (interval 200 200) 1 1)
       (AllkNN.Leaf (interval (-200) (-100)) 2 2)).

(** A node with two (empty) leaves below it. *)
Definition two_leaves : RectangleTree vec HRectBound := halve_leaf fresh_root.

End Samples.

(** * Facts shared by the modules *)

(** ** Comparing rationals *)

Lemma Qcleb_le (x y : Qc) : Qcleb x y = true ↔ (x ≤ y)%Qc.
Proof. unfold Qcleb, Qcle. apply Qle_bool_iff. Qed.

Lemma Qcleb_gt (x y : Qc) : Qcleb x y = false ↔ (y < x)%Qc.
Proof.
  split.
  - intros Hf. apply Qcnot_le_lt. intros Hle.
    apply Qcleb_le in Hle. congruence.
  - intros Hlt. destruct (Qcleb x y) eqn:Hb; [|done].
    apply Qcleb_le in Hb. by apply Qclt_not_le in Hlt.
Qed.

Lemma Qcltb_lt (x y : Qc) : Qcltb x y = true ↔ (x < y)%Qc.
Proof.
  unfold Qcltb. rewrite negb_true_iff. apply Qcleb_gt.
Qed.

Lemma Qcltb_ge (x y : Qc) : Qcltb x y = false ↔ (y ≤ x)%Qc.
Proof.
  unfold Qcltb. rewrite negb_false_iff. apply Qcleb_le.
Qed.

(** ** Hyper-rectangles satisfy the contract of a bound *)

Module HRectFacts.
Import HRect.

Lemma Qcmin_le_l x y : (Qcmin x y ≤ x)%Qc.
Proof.
  unfold Qcmin. destruct (Qcleb x y) eqn:Hb; [apply Qcle_refl|].
  apply Qcleb_gt in Hb. by apply Qclt_le_weak.
Qed.

Lemma Qcmin_le_r x y : (Qcmin x y ≤ y)%Qc.
Proof.
  unfold Qcmin. destruct (Qcleb x y) eqn:Hb; [by apply Qcleb_le|].
  apply Qcle_refl.
Qed.

Lemma Qcmax_ge_l x y : (x ≤ Qcmax x y)%Qc.
Proof.
  unfold Qcmax. destruct (Qcleb x y) eqn:Hb; [by apply Qcleb_le|].
  apply Qcle_refl.
Qed.

Lemma Qcmax_ge_r x y : (y ≤ Qcmax x y)%Qc.
Proof.
  unfold Qcmax. destruct (Qcleb x y) eqn:Hb; [apply Qcle_refl|].
  apply Qcleb_gt in Hb. by apply Qclt_le_weak.
Qed.

Lemma Range_expand_covers r v : Range_Contains (Range_expand r v) v.
Proof.
  destruct r as [[lo hi]|]; simpl.
  - split; [apply Qcmin_le_r|apply Qcmax_ge_r].
  - split; apply Qcle_refl.
Qed.

Lemma Range_expand_subsumes r v x :
  Range_Contains r x → Range_Contains (Range_expand r v) x.
Proof.
  destruct r as [[lo hi]|]; simpl; [|done]. intros [Hlo Hhi]. split.
  - eapply Qcle_trans; [apply Qcmin_le_l|done].
  - eapply Qcle_trans; [done|apply Qcmax_ge_l].
Qed.

Lemma HRect_laws : BoundLaws vec HRectBound.
Proof.
  split.
  - intros d Hd. cbn. rewrite length_replicate. lia.
  - intros b p Hp. cbn in *. rewrite length_zip_with. lia.
  - intros b p Hp. cbn in *.
    assert (Hlen : length b = length p) by lia. clear Hp.
    revert p Hlen. induction b as [|r b IH]; intros [|v p] Hlen;
      simplify_eq/=; constructor; auto using Range_expand_covers.
  - intros b p x Hp. cbn in *.
    assert (Hlen : length b = length p) by lia. clear Hp.
    intros Hx. revert p Hlen.
    induction Hx as [|r v b x Hr Hx IH]; intros [|w p] Hlen;
      simplify_eq/=; constructor; auto using Range_expand_subsumes.
Qed.
#[export] Existing Instance HRect_laws.

(** *** The squared distance and its lower bounds *)

Lemma sq_mono a b : (0 ≤ a)%Qc → (a ≤ b)%Qc → (sq a ≤ sq b)%Qc.
Proof.
  intros Ha Hab. unfold sq.
  apply Qcle_trans with (b * a)%Qc.
  - by apply Qcmult_le_compat_r.
  - rewrite (Qcmult_comm b a). apply Qcmult_le_compat_r; [done|].
    by eapply Qcle_trans.
Qed.

Lemma sq_opp a b : sq (a - b) = sq (b - a).
Proof. unfold sq. ring. Qed.

Lemma sq_nonneg a : (0 ≤ sq a)%Qc.
Proof.
  destruct (Qclt_le_dec a 0) as [Hneg|Hpos].
  - replace (sq a) with (sq (0 - a)) by (unfold sq; ring).
    replace 0%Qc with (sq 0) at 1 by (unfold sq; ring).
    apply sq_mono; [apply Qcle_refl|].
    apply Qclt_le_weak in Hneg. apply Qcle_minus_iff in Hneg. exact Hneg.
  - replace 0%Qc with (sq 0) at 1 by (unfold sq; ring).
    by apply sq_mono; [apply Qcle_refl|].
Qed.

Lemma Qcminus_nonneg a b : (a ≤ b)%Qc → (0 ≤ b - a)%Qc.
Proof. intros Hab. by apply Qcle_minus_iff in Hab. Qed.

Lemma Qcminus_le_l a b c : (a ≤ b)%Qc → (a - c ≤ b - c)%Qc.
Proof. intros Hab. apply Qcplus_le_compat; [done|apply Qcle_refl]. Qed.

Lemma Qcminus_le_r a b c : (a ≤ b)%Qc → (c - b ≤ c - a)%Qc.
Proof.
  intros Hab. apply Qcplus_le_compat; [apply Qcle_refl|].
  by apply Qcopp_le_compat.
Qed.

Lemma gap_point_sound r p x :
  Range_Contains r x → (sq (gap_point r p) ≤ sq (p - x))%Qc.
Proof.
  destruct r as [[lo hi]|]; simpl; [|done]. intros [Hlo Hhi].
  destruct (Qcltb p lo) eqn:H1.
  - apply Qcltb_lt, Qclt_le_weak in H1. rewrite (sq_opp p x).
    apply sq_mono; [by apply Qcminus_nonneg|by apply Qcminus_le_l].
  - destruct (Qcltb hi p) eqn:H2.
    + apply Qcltb_lt, Qclt_le_weak in H2.
      apply sq_mono; [by apply Qcminus_nonneg|by apply Qcminus_le_r].
    + apply sq_nonneg.
Qed.

Lemma gap_range_sound r1 r2 x y :
  Range_Contains r1 x → Range_Contains r2 y →
  (sq (gap_range r1 r2) ≤ sq (x - y))%Qc.
Proof.
  destruct r1 as [[lo1 hi1]|], r2 as [[lo2 hi2]|]; simpl; try done.
  intros [Hlo1 Hhi1] [Hlo2 Hhi2].
  destruct (Qcltb hi1 lo2) eqn:H1.
  - apply Qcltb_lt, Qclt_le_weak in H1. rewrite (sq_opp x y).
    apply sq_mono; [by apply Qcminus_nonneg|].
    eapply Qcle_trans; [by apply Qcminus_le_l|by apply Qcminus_le_r].
  - destruct (Qcltb hi2 lo1) eqn:H2.
    + apply Qcltb_lt, Qclt_le_weak in H2.
      apply sq_mono; [by apply Qcminus_nonneg|].
      eapply Qcle_trans; [by apply Qcminus_le_l|by apply Qcminus_le_r].
    + apply sq_nonneg.
Qed.

Lemma HRect_metric_laws : AllkNN.MetricLaws vec HRectBound.
Proof.
  split.
  - intros b p x Hx. cbn in *. revert p.
    induction Hx as [|r v b x Hr Hx IH]; intros [|w p]; simpl;
      try apply Qcle_refl.
    apply Qcplus_le_compat; [by apply gap_point_sound|apply IH].
  - intros bq br x y Hx. cbn in *. revert br y.
    induction Hx as [|r v bq x Hr Hx IH]; intros br y Hy;
      destruct Hy as [|r' v' br y Hr' Hy]; simpl; try apply Qcle_refl.
    apply Qcplus_le_compat; [by apply gap_range_sound|by apply IH].
Qed.
#[export] Existing Instance HRect_metric_laws.

End HRectFacts.

(** * Facts about the rectangle tree *)

Module RTreeFacts.
Import RTree.

Section Accessors.
Context {point boundT : Type} `{BoundOps point boundT, BoundDiameter boundT}.
Abbreviation Tree := (RectangleTree point boundT).

(** [End] with the inner loop over the vector read as one [vec_at]. *)
Lemma End_unfold (t : Tree) :
  End t =
  if negb (numChildren t =? 0) then Returned (wrap (begin t + count t))
  else match vec_at (children t) (wrap (numChildren t - 1)) with
       | None => Aborted IndexOutOfBounds
       | Some None => Aborted NullDereference
       | Some (Some child) => End child
       end.
Proof.
  destruct t as [a b n cs e f g h i j]; simpl.
  destruct (negb (n =? 0)); [done|].
  generalize (wrap (n - 1)). induction cs as [|c cs IH]; intros k; simpl.
  - done.
  - destruct (k =? 0); [by destruct c|]. apply IH.
Qed.

(** C9.  [End()] returns [begin + count] exactly on the nodes that have
    children; on a leaf it indexes [children] with [numChildren - 1], which
    is [2^64 - 1] there, outside the vector: the test is the opposite of
    the one in [IsLeaf] and [NumPoints]. *)
Theorem End_leaf_test_inverted (t : Tree) :
  Z.of_nat (length (children t)) < size_t_modulus →
  (numChildren t ≠ 0 → End t = Returned (wrap (begin t + count t))) ∧
  (numChildren t = 0 →
     wrap (numChildren t - 1) = size_t_modulus - 1 ∧
     vec_at (children t) (wrap (numChildren t - 1)) = None ∧
     End t = Aborted IndexOutOfBounds) ∧
  (∀ v, End t = Returned v → IsLeaf t = false ∧ NumPoints t = 0).
Proof.
  intros Hlen. rewrite End_unfold.
  assert (Hleaf : numChildren t = 0 →
          vec_at (children t) (wrap (numChildren t - 1)) = None).
  { intros ->. apply vec_at_ge. rewrite wrap_minus_one. lia. }
  split_and!.
  - intros Hn. by destruct (Z.eqb_spec (numChildren t) 0).
  - intros Hn. split_and!; [by rewrite Hn|by auto|].
    rewrite (Hleaf Hn), Hn. done.
  - intros v. unfold IsLeaf, NumPoints.
    destruct (Z.eqb_spec (numChildren t) 0) as [Hn|Hn]; simpl; [|done].
    by rewrite (Hleaf Hn).
Qed.

(** C10.  [FurthestPointDistance()] is [0] on a node with children and half
    the diameter of the bound on a leaf. *)
Theorem FurthestPointDistance_cases (t : Tree) :
  (numChildren t ≠ 0 → FurthestPointDistance t = 0%Qc) ∧
  (numChildren t = 0 →
     FurthestPointDistance t = (half * bound_Diameter (bound t))%Qc).
Proof.
  unfold FurthestPointDistance, IsLeaf.
  split; intros Hn; by destruct (Z.eqb_spec (numChildren t) 0).
Qed.

Section Split.
Variable SplitLeafNode : @loc point boundT → @loc point boundT.

(** C6.  On a leaf with fewer than [maxLeafSize] points [SplitNode] returns
    with the node and its tree as they were, and so does a second call. *)
Theorem SplitNode_noop_below_maxLeafSize (l : loc) :
  numChildren (this l) = 0 →
  count (this l) < maxLeafSize (this l) →
  SplitNode SplitLeafNode l = Returned l ∧
  (l' ←! SplitNode SplitLeafNode l; SplitNode SplitLeafNode l')
    = SplitNode SplitLeafNode l.
Proof.
  intros Hleaf Hcount.
  assert (Hs : SplitNode SplitLeafNode l = Returned l).
  { unfold SplitNode. rewrite Hleaf. simpl.
    by destruct (Z.ltb_spec (count (this l)) (maxLeafSize (this l))); [|lia]. }
  rewrite Hs. simpl. by rewrite Hs.
Qed.

(** C7.  On a node with children the assertion of [SplitNode] fails and the
    run stops there; on a leaf it holds and [SplitNode] returns. *)
Theorem SplitNode_asserts_leaf (l : loc) :
  (numChildren (this l) ≠ 0 →
     SplitNode SplitLeafNode l = Aborted AssertionFailed) ∧
  (numChildren (this l) = 0 →
     ∃ l', SplitNode SplitLeafNode l = Returned l').
Proof.
  unfold SplitNode. split; intros Hn.
  - by destruct (Z.eqb_spec (numChildren (this l)) 0).
  - rewrite Hn. simpl. destruct (_ <? _); eauto.
Qed.

End Split.
End Accessors.

(** ** Insertion keeps the bounds *)

Section Insertion.
Context {point boundT : Type} `{BoundLaws point boundT}.
Abbreviation Tree := (RectangleTree point boundT).

Lemma Tree_children_ind (P : Tree → Prop) :
  (∀ t, (∀ c, Some c ∈ children t → P c) → P t) → ∀ t, P t.
Proof.
  intros Hstep. fix IH 1. intros [a b n cs e f g h i j].
  apply Hstep. simpl.
  assert (HF : Forall (from_option P True) cs).
  { clear -IH. revert cs. fix IHcs 1. intros [|oc cs]; constructor.
    - destruct oc as [c|]; simpl; [apply IH|exact I].
    - apply IHcs. }
  intros c Hin. rewrite Forall_forall in HF. apply (HF _ Hin).
Qed.

(** *** Children, stored points and nodes *)

Lemma Child_at_vec_at (t : Tree) i c :
  Child_at t i c → vec_at (children t) i = Some (Some c).
Proof. intros [Hi Hc]. by rewrite vec_at_lookup by lia. Qed.

Lemma Child_at_elem (t : Tree) i c : Child_at t i c → Some c ∈ children t.
Proof. intros [_ Hc]. by eapply list_elem_of_lookup_2. Qed.

Lemma Child_at_inj (t : Tree) i c c' :
  Child_at t i c → Child_at t i c' → c = c'.
Proof. intros [_ Hc] [_ Hc']. congruence. Qed.

Lemma Node_of_trans (a b c : Tree) : Node_of a b → Node_of b c → Node_of a c.
Proof.
  intros Hab Hbc. induction Hbc as [|t i c' Hch Hbc IH]; [done|].
  eapply Node_child; eauto.
Qed.

Lemma Stored_Node (t n : Tree) x : Node_of n t → Stored x n → Stored x t.
Proof.
  intros Hn Hx. induction Hn as [|t i c Hch Hn IH]; [done|].
  eapply Stored_child; eauto.
Qed.

Lemma BoundInv_child (t : Tree) i c : BoundInv t → Child_at t i c → BoundInv c.
Proof.
  intros Ht Hc n Hn. apply Ht. eapply Node_child; eauto.
Qed.

Lemma Stored_leaf_inv (t : Tree) x :
  numChildren t = 0 → Stored x t →
  ∃ i, 0 ≤ i < count t ∧ cols (dataset t) !! Z.to_nat i = Some (Some x).
Proof.
  intros Hleaf Hx. destruct Hx as [t i _ Hi Hc|t i c [Hi _] _]; [eauto|lia].
Qed.

Lemma Node_of_leaf (t n : Tree) : numChildren t = 0 → Node_of n t → n = t.
Proof. intros Hleaf Hn. destruct Hn as [|t i c [Hi _] _]; [done|lia]. Qed.

Section Shape.
Variables d M C : Z.
Hypothesis Hd : 0 ≤ d.
Hypothesis HM : 1 ≤ M < 2 ^ 31 - 1.
Hypothesis HC : 0 ≤ C < size_t_modulus - 1.

Lemma Inv_child (t : Tree) i c : Inv d M C t → Child_at t i c → Inv d M C c.
Proof.
  intros [Hwf Hb] Hc. split.
  - intros n Hn. apply Hwf. eapply Node_child; eauto.
  - eapply BoundInv_child; eauto.
Qed.

Lemma ctx_ok_mono (P Q : point → Prop) up :
  (∀ x, P x → Q x) → ctx_ok d M C Q up → ctx_ok d M C P up.
Proof.
  revert P Q. induction up as [|[parent i] up IH]; intros P Q HPQ; simpl;
    [done|].
  intros (Hok & Hi & Hcov & Hsib & Hup).
  split; [done|]. split; [done|]. split; [auto|]. split; [done|].
  refine (IH _ _ _ Hup). intros x [Hx|Hx]; auto.
Qed.

(** Putting a subtree back under its parent. *)
Lemma Child_at_plug_frame (parent : Tree) i (t : Tree) j c :
  0 ≤ i → Z.of_nat (length (children parent)) > i →
  Child_at (plug_frame (parent, i) t) j c ↔
  (j = i ∧ c = t ∧ 0 ≤ i < numChildren parent) ∨
  (j ≠ i ∧ Child_at parent j c).
Proof.
  intros Hi Hlen. unfold Child_at, plug_frame. simpl.
  destruct (decide (j = i)) as [->|Hne].
  - rewrite list_lookup_insert_eq by lia. split.
    + intros [Hr Heq]. left. split; [done|]. split; [congruence|done].
    + intros [(_ & -> & Hr)|[Hne _]]; [done|done].
  - split.
    + intros [Hr Hl]. right. split; [done|].
      rewrite list_lookup_insert_ne in Hl by lia. done.
    + intros [[Heq _]|[_ [Hr Hl]]]; [done|].
      split; [done|]. rewrite list_lookup_insert_ne by lia. done.
Qed.

Lemma plug_Inv up : ∀ (t : Tree) (P : point → Prop),
  Inv d M C t → (∀ x, Stored x t → P x) → ctx_ok d M C P up →
  Inv d M C (root_of (mkLoc up t)).
Proof.
  induction up as [|[parent i] up IH]; intros t P Ht HP Hup; [done|].
  simpl in Hup. destruct Hup as (Hok & Hi & Hcov & Hsib & Hup).
  change (root_of (mkLoc ((parent, i) :: up) t))
    with (root_of (mkLoc up (plug_frame (parent, i) t))).
  destruct Hok as [Hshape Hleafc].
  assert (Hlen : Z.of_nat (length (children parent)) > i).
  { rewrite (shape_children _ _ _ _ Hshape).
    pose proof (shape_numChildren _ _ _ _ Hshape). lia. }
  assert (Hch : ∀ j c, Child_at (plug_frame (parent, i) t) j c →
            Inv d M C c ∧
            (∀ x, Stored x c →
               bound_Contains (bound parent) x ∧
               (P x ∨ ∃ j c, j ≠ i ∧ Child_at parent j c ∧ Stored x c))).
  { intros j c Hc. apply Child_at_plug_frame in Hc; [|lia|lia].
    destruct Hc as [(-> & -> & _)|[Hne Hc]].
    - split; [done|]. intros x Hx. split; [apply Hcov|left]; auto.
    - destruct (Hsib j c Hne Hc) as [Hc1 Hc2]. split; [done|].
      intros x Hx. split; [auto|]. right. eauto. }
  assert (Hst : ∀ x, Stored x (plug_frame (parent, i) t) →
            bound_Contains (bound parent) x ∧
            (P x ∨ ∃ j c, j ≠ i ∧ Child_at parent j c ∧ Stored x c)).
  { intros x Hx. inversion Hx as [t' k Hl|t' k c Hc Hxc]; subst.
    - simpl in Hl. lia.
    - destruct (Hch _ _ Hc) as [_ Hc2]. auto. }
  refine (IH _ _ _ (λ x Hx, proj2 (Hst x Hx)) Hup).
  split.
  - intros n Hn. inversion Hn as [|t' k c Hc Hnc]; subst.
    + split.
      * destruct Hshape. split; simpl; auto.
        -- by rewrite length_insert.
        -- intros k Hk. destruct (decide (k = i)) as [->|Hne].
           ++ exists t. apply Child_at_plug_frame; [lia|lia|]. left. done.
           ++ destruct (shape_child0 k Hk) as [c Hc]. exists c.
              apply Child_at_plug_frame; [lia|lia|]. right. done.
      * simpl. lia.
    + destruct (Hch _ _ Hc) as [[Hwf _] _]. by apply Hwf.
  - intros n Hn x Hx. inversion Hn as [|t' k c Hc Hnc]; subst.
    + apply (Hst x Hx).
    + destruct (Hch _ _ Hc) as [[_ Hb] _]. by apply Hb.
Qed.

Section Policies.
Variable SplitLeafNode : @loc point boundT → @loc point boundT.
Variable EvalNode : boundT → point → Qc.

Lemma InsertPoint_unfold up (node : Tree) p :
  InsertPoint SplitLeafNode EvalNode up node p =
  let node1 := set_bound node (bound_expand (bound node) p) in
  if numChildren node =? 0 then
    d ←! Mat_set_col (dataset node1) (count node1) p;
    SplitNode SplitLeafNode
      (mkLoc up (set_points node1 (wrap (count node1 + 1)) d))
  else
    bestIndex ←! best_child EvalNode node p;
    match vec_at (children node) bestIndex with
    | None => Aborted IndexOutOfBounds
    | Some None => Aborted NullDereference
    | Some (Some child) =>
        InsertPoint SplitLeafNode EvalNode ((node1, bestIndex) :: up) child p
    end.
Proof.
  destruct node as [a b n cs e f g h i j]; simpl.
  destruct (n =? 0); [done|].
  destruct (best_child _ _ _) as [k|]; simpl; [|done].
  match goal with
  | |- context [InsertPoint _ _ (?fr :: up)] => generalize fr
  end.
  intros fr. revert k.
  induction cs as [|c cs IH]; intros k; simpl; [done|].
  destruct (k =? 0); [by destruct c|]. apply IH.
Qed.

(** *** Choosing the child *)

Lemma best_child_loop_ok (t : Tree) p :
  node_shape d M C t →
  ∀ n i minScore bestIndex,
    0 ≤ bestIndex < numChildren t → 0 ≤ i →
    i + Z.of_nat n ≤ numChildren t →
    ∃ k, best_child_loop EvalNode t p n i minScore bestIndex = Returned k ∧
         0 ≤ k < numChildren t.
Proof.
  intros Hs. induction n as [|n IH]; intros i ms best Hb Hi Hn; simpl.
  - eauto.
  - destruct (shape_child _ _ _ _ Hs i) as [c Hc]; [lia|].
    unfold child_Bound. rewrite (Child_at_vec_at _ _ _ Hc). simpl.
    destruct (Qcltb _ _); apply IH; lia.
Qed.

Lemma best_child_ok (t : Tree) p :
  node_shape d M C t → numChildren t ≠ 0 →
  ∃ k, best_child EvalNode t p = Returned k ∧ 0 ≤ k < numChildren t.
Proof.
  intros Hs Hn. pose proof (shape_numChildren _ _ _ _ Hs) as Hr.
  destruct (shape_child _ _ _ _ Hs 0) as [c Hc]; [lia|].
  unfold best_child, child_Bound. rewrite (Child_at_vec_at _ _ _ Hc). simpl.
  apply best_child_loop_ok; [done|lia|lia|lia].
Qed.

(** *** The way down *)

Lemma InsertPoint_arrives (node : Tree) : ∀ up p,
  vec_n_elem p = d → Inv d M C node →
  ctx_ok d M C (λ x, x = p ∨ Stored x node) up →
  ∃ l0, InsertPoint SplitLeafNode EvalNode up node p
          = SplitNode SplitLeafNode l0 ∧
        Arrived d M C p up l0.
Proof.
  induction node as [node IH] using Tree_children_ind.
  intros up p Hp Hinv Hup. rewrite InsertPoint_unfold. cbv zeta.
  destruct Hinv as [Hwf Hb].
  destruct (Hwf node (Node_self _)) as [Hs Hleafc].
  assert (Hdim : vec_n_elem p = bound_Dim (bound node)).
  { by rewrite (shape_Dim _ _ _ _ Hs). }
  assert (Hcov : ∀ x, x = p ∨ Stored x node →
                      bound_Contains (bound_expand (bound node) p) x).
  { intros x [->|Hx].
    - by apply bound_expand_covers.
    - apply bound_expand_subsumes; [done|]. apply (Hb node); [constructor|done]. }
  destruct (Z.eqb_spec (numChildren node) 0) as [Hleaf|Hint].
  - (* a leaf: the point goes into column [count] *)
    specialize (Hleafc Hleaf). pose proof (shape_dataset _ _ _ _ Hs) as Hcols.
    unfold Mat_set_col. simpl.
    destruct (Z.leb_spec 0 (count node)); [|lia].
    destruct (Z.ltb_spec (count node) (n_cols (dataset node))); [|lia].
    simpl. eexists. split; [reflexivity|].
    assert (Hw : wrap (count node + 1) = count node + 1).
    { apply wrap_small. unfold size_t_modulus. lia. }
    assert (Hst : ∀ x,
      Stored x (set_points
                  (set_bound node (bound_expand (bound node) p))
                  (wrap (count node + 1))
                  (mkMat (n_rows (dataset node))
                     (<[Z.to_nat (count node) := Some p]>
                        (cols (dataset node))))) →
      x = p ∨ Stored x node).
    { intros x Hx. apply Stored_leaf_inv in Hx; [|done].
      destruct Hx as (i & Hi & Hx). simpl in Hi, Hx. rewrite Hw in Hi.
      destruct (decide (i = count node)) as [->|Hne].
      - rewrite list_lookup_insert_eq in Hx by (unfold n_cols in *; lia).
        left. congruence.
      - rewrite list_lookup_insert_ne in Hx by lia.
        right. eapply Stored_leaf; [done| |exact Hx]. lia. }
    split; simpl.
    + destruct Hs. split; simpl; auto.
      * by rewrite bound_Dim_expand.
      * unfold n_cols in *. simpl. by rewrite length_insert.
    + done.
    + lia.
    + eapply (Stored_leaf _ _ (count node)); simpl; [done|lia|].
      apply list_lookup_insert_eq. unfold n_cols in *. lia.
    + intros x Hx. apply Hcov. by apply Hst.
    + revert Hup. apply ctx_ok_mono. exact Hst.
    + exists []. split; [done|constructor].
  - (* an inner node: go on in the best child *)
    destruct (best_child_ok node p Hs Hint) as (k & -> & Hk). simpl.
    destruct (shape_child _ _ _ _ Hs k Hk) as [c Hc].
    rewrite (Child_at_vec_at _ _ _ Hc).
    destruct (IH c (Child_at_elem _ _ _ Hc)
                ((set_bound node (bound_expand (bound node) p), k) :: up) p)
      as (l0 & Heq & Harr).
    + done.
    + eapply Inv_child; [split; eauto|exact Hc].
    + simpl. split; [|split; [done|split; [|split]]].
      * split; [|simpl; lia].
        destruct Hs. split; simpl; auto. by rewrite bound_Dim_expand.
      * intros x [->|Hx]; apply Hcov; [by left|right].
        eapply Stored_child; eauto.
      * intros j c' Hne Hc'. split.
        -- eapply Inv_child; [split; eauto|exact Hc'].
        -- intros x Hx. apply Hcov. right. eapply Stored_child; eauto.
      * revert Hup. apply ctx_ok_mono.
        intros x [[->|Hx]|(j & c' & _ & Hc' & Hx)]; [by left|right..];
          eapply Stored_child; eauto.
    + exists l0. split; [done|].
      destruct Harr. split; auto.
      destruct arr_path0 as (path & Hpath & HF).
      exists (path ++ [(set_bound node (bound_expand (bound node) p), k)]).
      split; [by rewrite <- app_assoc|].
      apply Forall_app. split; [done|]. constructor; [|constructor].
      simpl. apply Hcov. by left.
Qed.

(** The split policy is trusted with this much: handed a leaf that has just
    become full, in a tree otherwise in order, it leaves a tree in order. *)
Hypothesis SplitLeafNode_keeps : ∀ l,
  SplitPre d M C l → Inv d M C (root_of (SplitLeafNode l)).

Lemma SplitNode_after_arrival p up l0 :
  Arrived d M C p up l0 →
  ∃ l, SplitNode SplitLeafNode l0 = Returned l ∧ Inv d M C (root_of l).
Proof.
  intros Harr. destruct Harr. unfold SplitNode.
  rewrite arr_leaf0. simpl. rewrite (shape_maxLeafSize _ _ _ _ arr_shape0).
  destruct (Z.ltb_spec (count (this l0)) M).
  - eexists. split; [reflexivity|]. destruct l0 as [up0 t]. simpl in *.
    eapply plug_Inv; [|intros x Hx; exact Hx|exact arr_ctx0].
    split.
    + intros n Hn. apply Node_of_leaf in Hn as ->; [|done].
      split; [done|]. lia.
    + intros n Hn. apply Node_of_leaf in Hn as ->; [|done]. done.
  - eexists. split; [reflexivity|]. apply SplitLeafNode_keeps.
    split; auto. lia.
Qed.

Lemma InsertPoint_Inv (root : Tree) p :
  vec_n_elem p = d → Inv d M C root →
  ∃ l, InsertPoint SplitLeafNode EvalNode [] root p = Returned l ∧
       Inv d M C (root_of l).
Proof.
  intros Hp Hinv.
  destruct (InsertPoint_arrives root [] p Hp Hinv I) as (l0 & -> & Harr).
  by eapply SplitNode_after_arrival.
Qed.

Lemma insert_all_Inv (ps : list point) : ∀ root : Tree,
  Forall (λ p, vec_n_elem p = d) ps → Inv d M C root →
  ∃ t, insert_all SplitLeafNode EvalNode root (Some <$> ps) = Returned t ∧
       Inv d M C t.
Proof.
  induction ps as [|p ps IH]; intros root Hps Hinv; simpl.
  - eauto.
  - apply Forall_cons in Hps as [Hp Hps].
    destruct (InsertPoint_Inv root p Hp Hinv) as (l & -> & Hl). simpl.
    by apply IH.
Qed.

End Policies.

(** *** The fresh root and the halving policy *)

Lemma static_cast_int_small z : 0 ≤ z < 2 ^ 31 → static_cast_int z = z.
Proof. intros Hz. unfold static_cast_int. rewrite Z.mod_small; lia. Qed.

Lemma children_new_length :
  Z.of_nat (length (replicate (Z.to_nat (wrap (C + 1))) (@None Tree))) = C + 1.
Proof.
  rewrite length_replicate, wrap_small; unfold size_t_modulus in *; lia.
Qed.

Lemma RectangleTree_init_Inv minLeafSize_ minNumChildren_ :
  Inv d M C (RectangleTree_init d M minLeafSize_ C minNumChildren_).
Proof.
  split.
  - intros n Hn. apply Node_of_leaf in Hn as ->; [|done].
    split; [|simpl; lia]. split; simpl; try done.
    + by apply bound_Dim_new.
    + apply children_new_length.
    + lia.
    + intros i Hi. lia.
    + unfold n_cols. simpl.
      rewrite length_replicate, static_cast_int_small; lia.
  - intros n Hn x Hx. apply Node_of_leaf in Hn as ->; [|done].
    apply Stored_leaf_inv in Hx as (i & Hi & _); [|done]. simpl in Hi. lia.
Qed.

Lemma half_leaf_ok (t : Tree) from n :
  node_shape d M C t → numChildren t = 0 → count t = M →
  (∀ x, Stored x t → bound_Contains (bound t) x) →
  0 ≤ from → 0 ≤ n < M → from + n ≤ M →
  Inv d M C (half_leaf t from n) ∧
  (∀ x, Stored x (half_leaf t from n) → Stored x t).
Proof.
  intros Hs Hleaf Hfull Hb Hfrom Hn Hsum.
  pose proof (shape_dataset _ _ _ _ Hs) as Hcols. unfold n_cols in Hcols.
  assert (Hst : ∀ x, Stored x (half_leaf t from n) → Stored x t).
  { intros x Hx. apply Stored_leaf_inv in Hx as (i & Hi & Hx); [|done].
    simpl in Hi, Hx.
    rewrite lookup_app_l in Hx
      by (rewrite length_take, length_drop; lia).
    rewrite lookup_take_lt, lookup_drop in Hx by lia.
    eapply (Stored_leaf _ _ (from + i)); [done|lia|].
    by replace (Z.to_nat (from + i)) with (Z.to_nat from + Z.to_nat i)%nat
      by lia. }
  split; [|done]. split.
  - intros m Hm. apply Node_of_leaf in Hm as ->; [|done].
    split; [|simpl; lia]. destruct Hs. split; simpl; try done.
    + by rewrite shape_maxNumChildren0; apply children_new_length.
    + lia.
    + intros i Hi. lia.
    + unfold n_cols. simpl.
      rewrite length_app, length_take, length_drop, length_drop,
        length_replicate.
      rewrite shape_maxLeafSize0, static_cast_int_small; lia.
  - intros m Hm x Hx. apply Node_of_leaf in Hm as ->; [|done].
    simpl. apply Hb. by apply Hst.
Qed.

Lemma HalveSplit_keeps (l : @loc point boundT) :
  2 ≤ M → 1 ≤ C →
  SplitPre d M C l → Inv d M C (root_of (HalveSplit l)).
Proof.
  intros HM2 HC1 Hpre. destruct Hpre. destruct l as [up t]. simpl in *.
  pose proof (shape_children _ _ _ _ pre_shape0) as Hlen.
  set (h := count t / 2).
  assert (Hh : 1 ≤ h < M) by (unfold h; rewrite pre_full0; split;
    [apply Z.div_le_lower_bound|apply Z.div_lt_upper_bound]; lia).
  destruct (half_leaf_ok t 0 h) as [HA HsA]; [done..|lia|lia|lia|].
  destruct (half_leaf_ok t h (count t - h)) as [HB HsB]; [done..|lia|lia|lia|].
  assert (Hch : ∀ j c, Child_at (halve_leaf t) j c →
            (j = 0 ∧ c = half_leaf t 0 h) ∨
            (j = 1 ∧ c = half_leaf t h (count t - h))).
  { intros j c [Hj Hc]. simpl in Hj, Hc.
    destruct (decide (j = 0)) as [->|Hne].
    - left. rewrite list_lookup_insert_eq in Hc
        by (rewrite length_insert; lia).
      split; [done|]. by injection Hc as <-.
    - right. assert (j = 1) as -> by lia. simpl in Hc.
      rewrite list_lookup_insert_ne, list_lookup_insert_eq in Hc by lia.
      split; [done|]. by injection Hc as <-. }
  assert (Hst : ∀ x, Stored x (halve_leaf t) → Stored x t).
  { intros x Hx. inversion Hx as [t' i Hl|t' i c Hc Hxc]; subst.
    - simpl in Hl. lia.
    - destruct (Hch _ _ Hc) as [[_ ->]|[_ ->]]; auto. }
  unfold HalveSplit. simpl.
  eapply plug_Inv; [|exact Hst|exact pre_ctx0].
  split.
  - intros n Hn. inversion Hn as [|t' i c Hc Hnc]; subst.
    + split; [|simpl; lia]. destruct pre_shape0. split; simpl; try done.
      * by rewrite !length_insert.
      * lia.
      * intros i Hi. destruct (decide (i = 0)) as [->|Hne].
        -- eexists. split; [simpl; lia|]. simpl.
           apply list_lookup_insert_eq. rewrite length_insert. lia.
        -- assert (i = 1) as -> by lia.
           eexists. split; [simpl; lia|]. simpl.
           rewrite list_lookup_insert_ne by lia.
           apply list_lookup_insert_eq. lia.
    + destruct (Hch _ _ Hc) as [[_ ->]|[_ ->]]; [by apply HA|by apply HB].
  - intros n Hn x Hx. inversion Hn as [|t' i c Hc Hnc]; subst.
    + simpl. apply pre_bound0. by apply Hst.
    + destruct (Hch _ _ Hc) as [[_ ->]|[_ ->]]; [by apply HA|by apply HB].
Qed.

End Shape.
End Insertion.

(** C5, as the code has it.  A dataset without columns makes the
    constructor return its fresh root, an empty leaf; nothing is reported. *)
Theorem RectangleTree_new_empty_dataset {point boundT : Type}
    `{BoundOps point boundT}
    (SplitLeafNode : @loc point boundT → @loc point boundT)
    (EvalNode : boundT → point → Qc)
    (data : Mat point)
    (maxLeafSize_ minLeafSize_ maxNumChildren_ minNumChildren_
     firstDataIndex : Z) :
  n_cols data = 0 →
  ∃ root,
    RectangleTree_new SplitLeafNode EvalNode data maxLeafSize_ minLeafSize_
      maxNumChildren_ minNumChildren_ firstDataIndex = Returned root ∧
    root = RectangleTree_init (n_rows data) maxLeafSize_ minLeafSize_
             maxNumChildren_ minNumChildren_ ∧
    numChildren root = 0 ∧ count root = 0 ∧
    ∀ p, ¬ Stored p root.
Proof.
  intros Hn. eexists. split; [|split; [reflexivity|]].
  - unfold RectangleTree_new. rewrite Hn.
    destruct (Z.leb_spec 0 (static_cast_int firstDataIndex));
      destruct (Z.ltb_spec (static_cast_int firstDataIndex) 0);
      simpl; first [done|lia].
  - split; [done|]. split; [done|].
    intros p Hp. apply Stored_leaf_inv in Hp as (i & Hi & _); [|done].
    simpl in Hi. lia.
Qed.

(** ** The statements at sample trees *)

Section Witnesses.
Import HRect HRectFacts Samples.

Lemma End_leaf_test_inverted_witness :
  End fresh_root = Aborted IndexOutOfBounds ∧
  End two_leaves = Returned 0.
Proof.
  split.
  - apply (End_leaf_test_inverted fresh_root); [|reflexivity].
    vm_compute. reflexivity.
  - apply (End_leaf_test_inverted two_leaves); [|discriminate].
    vm_compute. reflexivity.
Defined.

Lemma FurthestPointDistance_cases_witness :
  FurthestPointDistance two_leaves = 0%Qc ∧
  FurthestPointDistance fresh_root
    = (half * bound_Diameter (bound fresh_root))%Qc.
Proof.
  split.
  - apply (FurthestPointDistance_cases two_leaves). discriminate.
  - apply (FurthestPointDistance_cases fresh_root). reflexivity.
Defined.

Lemma SplitNode_noop_below_maxLeafSize_witness :
  numChildren fresh_root = 0 ∧ count fresh_root < maxLeafSize fresh_root ∧
  SplitNode HalveSplit (mkLoc [] fresh_root) = Returned (mkLoc [] fresh_root).
Proof.
  split; [reflexivity|]. split; [reflexivity|].
  apply (SplitNode_noop_below_maxLeafSize HalveSplit (mkLoc [] fresh_root));
    reflexivity.
Defined.

Lemma SplitNode_asserts_leaf_witness :
  SplitNode HalveSplit (mkLoc [] two_leaves) = Aborted AssertionFailed ∧
  ∃ l', SplitNode HalveSplit (mkLoc [] fresh_root) = Returned l'.
Proof.
  split.
  - apply (SplitNode_asserts_leaf HalveSplit (mkLoc [] two_leaves)).
    discriminate.
  - apply (SplitNode_asserts_leaf HalveSplit (mkLoc [] fresh_root)).
    reflexivity.
Defined.

Lemma RectangleTree_new_empty_dataset_witness :
  n_cols no_points = 0 ∧
  ∃ root,
    RectangleTree_new HalveSplit EvalNode_flat no_points 20 6 4 0 0
      = Returned root ∧
    root = RectangleTree_init 3 20 6 4 0 ∧
    numChildren root = 0 ∧ count root = 0 ∧
    ∀ p, ¬ Stored p root.
Proof.
  split; [reflexivity|].
  apply (RectangleTree_new_empty_dataset HalveSplit EvalNode_flat no_points
           20 6 4 0 0).
  reflexivity.
Defined.

(** C5, as the claim has it: building from a dataset without points would
    stop with an error.  The constructor returns instead. *)
Lemma RectangleTree_new_empty_dataset_no_error :
  ¬ ∃ f, RectangleTree_new HalveSplit EvalNode_flat no_points 20 6 4 0 0
         = Aborted f.
Proof. intros [f Hf]. vm_compute in Hf. discriminate. Qed.

(** The constructor at work on three points and leaves of two. *)
Example small_tree_shape :
  ∃ t, small_tree = Returned t ∧ numChildren t = 2 ∧ NumPoints t = 0.
Proof. vm_compute. eexists. split; [reflexivity|]. split; reflexivity. Qed.

End Witnesses.

End RTreeFacts.

(** * Facts about nbr_utils.h *)

Module NbrUtilsFacts.
Import NbrUtils.

Lemma vec_at_Some_nonneg {A} (v : list A) i x : vec_at v i = Some x → 0 ≤ i.
Proof.
  revert i. induction v as [|y v IH]; intros i; simpl; [done|].
  destruct (Z.eqb_spec i 0) as [->|Hne]; [done|].
  intros Hv. apply IH in Hv. lia.
Qed.

Section StatFixer.
Context {Param Point Bound Stat : Type} `{StatOps Param Point Bound Stat}.
Variable param_ : Param.
Variable points_ : list Point.

Lemma with_stat_Returned (nodes nodes' : list (Node Bound Stat)) i f :
  with_stat nodes i f = Returned nodes' →
  ∃ n, vec_at nodes i = Some n ∧
       vec_at nodes' i
         = Some (mkNode (f n (stat n)) (bound n) (begin n) (count n)
                   (is_leaf n) (child n)).
Proof.
  unfold with_stat, cache_read.
  destruct (vec_at nodes i) as [n|] eqn:Hn; simpl; [|done].
  intros [= <-]. exists n. split; [done|].
  pose proof (vec_at_Some_nonneg _ _ _ Hn) as Hi.
  rewrite vec_at_lookup in * by done.
  apply list_lookup_insert_eq. by eapply lookup_lt_Some.
Qed.

(** On a node that is not a leaf, a run of [FixRecursively_] that returns
    ends with two applications of [Postprocess] to the node's statistic. *)
Lemma FixRecursively_inner_node fuel i (nodes nodes' : list (Node Bound Stat)) n :
  vec_at nodes i = Some n → is_leaf n = false →
  FixRecursively_ param_ points_ fuel i nodes = Some (Returned nodes') →
  ∃ n' s, vec_at nodes' i = Some n' ∧
          stat n' = Postprocess param_ (bound n') (count n')
                      (Postprocess param_ (bound n') (count n') s).
Proof.
  intros Hn Hleaf. destruct fuel as [|fuel]; simpl; [done|].
  destruct (with_stat nodes i _) as [nodes1|] eqn:H1; [|done].
  apply with_stat_Returned in H1 as (n1 & Hn1 & Hn1').
  unfold cache_read at 1. rewrite Hn1'. simpl.
  assert (n1 = n) as -> by congruence. rewrite Hleaf. simpl.
  match goal with
  | |- match ?e with _ => _ end = _ → _ =>
      destruct e as [[nodes2|]|]; [|done..]
  end.
  destruct (with_stat nodes2 i _) as [nodes3|] eqn:H3; simpl; [|done].
  intros [= H4].
  apply with_stat_Returned in H3 as (n2 & Hn2 & Hn3).
  apply with_stat_Returned in H4 as (n3 & Hn3' & Hn4).
  rewrite Hn3 in Hn3'. injection Hn3' as <-. simpl in Hn4.
  eexists _, (stat n2). split; [exact Hn4|]. done.
Qed.

End StatFixer.

(** C4, at a root over two leaves.  [FixRecursively_] returns; each leaf was
    reset, took its point and was postprocessed once; the root was reset,
    took both children after they were done, and was postprocessed twice. *)
Theorem FixRecursively_postprocesses_inner_node_twice :
  ∃ nodes,
    FixRecursively_ () [10%nat; 20%nat] 2 0 three_nodes
      = Some (Returned nodes) ∧
    stat <$> nodes =
      [ [OpPostprocess; OpPostprocess;
         OpAccumulateChild 1; OpAccumulateChild 1; OpReset];
        [OpPostprocess; OpAccumulatePoint 10%nat; OpReset];
        [OpPostprocess; OpAccumulatePoint 20%nat; OpReset] ] ∧
    postprocess_count <$> (stat <$> nodes) = [2%nat; 1%nat; 1%nat].
Proof. eexists. split; [vm_compute; reflexivity|]. split; reflexivity. Qed.

(** ** The number of grains *)

Lemma to_int_range (x : Z) : - 2 ^ 31 ≤ to_int x < 2 ^ 31.
Proof.
  unfold to_int.
  pose proof (Z.mod_pos_bound (x + 2 ^ 31) (2 ^ 32) ltac:(lia)). lia.
Qed.

Lemma to_int_small (x : Z) : - 2 ^ 31 ≤ x < 2 ^ 31 → to_int x = x.
Proof. intros Hx. unfold to_int. rewrite Z.mod_small; lia. Qed.

Lemma to_int_quotient (x : Z) : ∃ q, to_int x = x + 2 ^ 32 * q.
Proof.
  exists (- ((x + 2 ^ 31) / 2 ^ 32)). unfold to_int.
  pose proof (Z.div_mod (x + 2 ^ 31) (2 ^ 32) ltac:(lia)). lia.
Qed.

Lemma to_int_multiple (x q : Z) : to_int (x + 2 ^ 32 * q) = to_int x.
Proof.
  unfold to_int. f_equal.
  replace (x + 2 ^ 32 * q + 2 ^ 31) with (x + 2 ^ 31 + q * 2 ^ 32) by lia.
  apply Z_mod_plus_full.
Qed.

Lemma length_runs (size n : nat) (nodes : list Z) :
  length (runs size n nodes) = n.
Proof.
  revert nodes. induction n as [|n IH]; intros nodes; simpl; [done|].
  by rewrite IH.
Qed.

Lemma concat_runs (size n : nat) (nodes : list Z) :
  (length nodes ≤ n * size)%nat → concat (runs size n nodes) = nodes.
Proof.
  revert nodes. induction n as [|n IH]; intros nodes Hl; simpl.
  - destruct nodes; [done|simpl in Hl; lia].
  - rewrite IH; [apply take_drop|]. rewrite length_drop. simpl in Hl. lia.
Qed.

(** The groups are as many as were asked for, and together they are the
    nodes, each once and in their order. *)
Lemma SimpleWorkQueue_Init_partition (nodes : list Z) (n_grains : Z) :
  1 ≤ n_grains →
  Z.of_nat (length (SimpleWorkQueue_Init nodes n_grains)) = n_grains ∧
  concat (SimpleWorkQueue_Init nodes n_grains) = nodes.
Proof.
  intros Hn. unfold SimpleWorkQueue_Init.
  set (n := Z.to_nat n_grains). assert (Hpos : (1 ≤ n)%nat) by lia.
  split; [rewrite length_runs; lia|]. apply concat_runs.
  pose proof (Nat.div_mod (length nodes + n - 1) n ltac:(lia)) as Hdm.
  pose proof (Nat.mod_upper_bound (length nodes + n - 1) n ltac:(lia)) as Hm.
  nia.
Qed.

(** C8, as the code has it.  Without an [n_grains] parameter, and with
    [n_threads] threads, the local solver hands the work queue 1 as the
    number of grains when there is one thread and [n_threads * 3]
    otherwise, and the distributed runner [n_threads * n_peers * 3], each
    kept in 32 bits.  Where the number is positive and fits, that is for at
    least one thread (and peer) and a product below [2^31], the query
    tree's nodes are partitioned into that many groups: as many groups, and
    together the nodes, each once. *)
Theorem n_grains_default (module : gmap string Z) (n_peers : Z)
    (nodes : list Z) :
  module !! "n_grains" = None →
  let n_threads := to_int (fx_param_int module "n_threads" 1) in
  Solve_n_grains module
    = (if decide (n_threads = 1) then 1 else to_int (n_threads * 3)) ∧
  SetupMaster_n_grains module n_peers = to_int (n_threads * n_peers * 3) ∧
  (1 ≤ n_threads → n_threads * 3 < 2 ^ 31 →
   Z.of_nat (length (Solve_work_queue module nodes))
     = (if decide (n_threads = 1) then 1 else n_threads * 3) ∧
   concat (Solve_work_queue module nodes) = nodes) ∧
  (1 ≤ n_threads → 1 ≤ n_peers → n_threads * n_peers * 3 < 2 ^ 31 →
   Z.of_nat (length (SetupMaster_work_queue module n_peers nodes))
     = n_threads * n_peers * 3 ∧
   concat (SetupMaster_work_queue module n_peers nodes) = nodes).
Proof.
  intros Hg n_threads.
  assert (HS : Solve_n_grains module
               = if decide (n_threads = 1) then 1 else to_int (n_threads * 3)).
  { unfold Solve_n_grains. fold n_threads. unfold fx_param_int at 1.
    rewrite Hg. cbn [default].
    destruct (Z.eqb_spec n_threads 1); case_decide; try done.
    apply to_int_small, to_int_range. }
  assert (HM : SetupMaster_n_grains module n_peers
               = to_int (n_threads * n_peers * 3)).
  { unfold SetupMaster_n_grains. fold n_threads. unfold fx_param_int at 1.
    rewrite Hg. cbn [default].
    rewrite (to_int_small (to_int _)) by apply to_int_range.
    destruct (to_int_quotient n_peers) as [q1 ->].
    destruct (to_int_quotient (n_threads * (n_peers + 2 ^ 32 * q1)))
      as [q2 ->].
    rewrite <- (to_int_multiple (n_threads * n_peers * 3)
                  (3 * n_threads * q1 + 3 * q2)).
    f_equal. lia. }
  split; [exact HS|]. split; [exact HM|]. split.
  - intros H1 H3. unfold Solve_work_queue. rewrite HS.
    rewrite (to_int_small (n_threads * 3)) by lia.
    apply SimpleWorkQueue_Init_partition. case_decide; lia.
  - intros H1 Hp H3. unfold SetupMaster_work_queue. rewrite HM.
    rewrite to_int_small by nia.
    apply SimpleWorkQueue_Init_partition. nia.
Qed.

Lemma n_grains_default_witness :
  ({["n_threads" := 4]} : gmap string Z) !! "n_grains" = None ∧
  Solve_n_grains {["n_threads" := 4]} = 12 ∧
  SetupMaster_n_grains {["n_threads" := 4]} 5 = 60 ∧
  length (Solve_work_queue {["n_threads" := 4]} (seqZ 0 30)) = 12%nat ∧
  concat (Solve_work_queue {["n_threads" := 4]} (seqZ 0 30)) = seqZ 0 30 ∧
  length (SetupMaster_work_queue {["n_threads" := 4]} 5 (seqZ 0 30))
    = 60%nat.
Proof.
  assert (Hg : ({["n_threads" := 4]} : gmap string Z) !! "n_grains" = None)
    by reflexivity.
  split; [exact Hg|].
  destruct (n_grains_default {["n_threads" := 4]} 5 (seqZ 0 30) Hg)
    as (H1 & H2 & H3 & H4).
  split; [exact H1|]. split; [exact H2|].
  destruct H3 as [H3 H3']; [vm_compute; discriminate|reflexivity|].
  destruct H4 as [H4 _];
    [vm_compute; discriminate|vm_compute; discriminate|reflexivity|].
  split; [|split; [exact H3'|]].
  - apply Nat2Z.inj. exact H3.
  - apply Nat2Z.inj. exact H4.
Defined.

(** C8, as the claim has it: three grains per thread whatever the number
    of threads.  With one thread, and with no parameters at all, the local
    solver asks for one grain, and the nodes of the query tree make one
    group. *)
Lemma Solve_n_grains_one_thread :
  (∅ : gmap string Z) !! "n_grains" = None ∧
  Solve_n_grains ∅ = 1 ∧
  Solve_n_grains ∅ ≠ fx_param_int ∅ "n_threads" 1 * 3 ∧
  Solve_work_queue ∅ [10; 11; 12; 13] = [[10; 11; 12; 13]].
Proof.
  split; [reflexivity|]. split; [reflexivity|].
  split; [vm_compute; discriminate|reflexivity].
Qed.

(** Past the 32 bits the product is not what is handed on: for 715827883
    threads it is 2147483649, and [n_grains] is -2147483647. *)
Example Solve_n_grains_wraps :
  Solve_n_grains {["n_threads" := 715827883]} = -2147483647.
Proof. reflexivity. Qed.

End NbrUtilsFacts.

(** * Facts about the all-k-nearest-neighbour search *)

Module AllkNNFacts.
Import AllkNN.

(** ** The ordered list of a query point *)

Lemma le_dist_trans : Transitive le_dist.
Proof. intros a b c. unfold le_dist. apply Qcle_trans. Qed.
#[local] Existing Instance le_dist_trans.


Section Rows.
Variable ties : tie_rule.
Variable k : nat.

Abbreviation insert := (insert_sorted ties).
Abbreviation insert_k := (insert_topk ties k).

Abbreviation row_ok := (row_ok k).

Lemma goes_before_le e e' :
  goes_before ties e e' = true → (e.2 ≤ e'.2)%Qc.
Proof.
  unfold goes_before. destruct ties.
  - intros Hb%Qcltb_lt. by apply Qclt_le_weak.
  - by intros Hb%Qcleb_le.
  - intros [Hb%Qcltb_lt|[Hb%Qcleb_le _]%andb_prop]%orb_prop;
      [by apply Qclt_le_weak|done].
  - intros [Hb%Qcltb_lt|[Hb%Qcleb_le _]%andb_prop]%orb_prop;
      [by apply Qclt_le_weak|done].
Qed.

Lemma goes_before_ge e e' :
  goes_before ties e e' = false → (e'.2 ≤ e.2)%Qc.
Proof.
  unfold goes_before. destruct ties.
  - by intros Hb%Qcltb_ge.
  - intros Hb%Qcleb_gt. by apply Qclt_le_weak.
  - intros [Hb%Qcltb_ge _]%orb_false_elim. done.
  - intros [Hb%Qcltb_ge _]%orb_false_elim. done.
Qed.

Lemma goes_before_behind e e' :
  (e'.2 < e.2)%Qc → goes_before ties e e' = false.
Proof.
  intros Hlt. unfold goes_before.
  assert (Hge : Qcltb e.2 e'.2 = false)
    by (apply Qcltb_ge; by apply Qclt_le_weak).
  assert (Hgt : Qcleb e.2 e'.2 = false) by (by apply Qcleb_gt).
  destruct ties; rewrite ?Hge, ?Hgt; done.
Qed.





Lemma insert_sorted_Permutation e row : insert e row ≡ₚ e :: row.
Proof.
  induction row as [|e' row IH]; simpl; [done|].
  destruct (goes_before _ e e'); [done|].
  rewrite IH. apply Permutation_swap.
Qed.

Lemma insert_sorted_StronglySorted e row :
  StronglySorted le_dist row → StronglySorted le_dist (insert e row).
Proof.
  induction row as [|e' row IH]; simpl; intros Hs.
  - repeat constructor.
  - apply StronglySorted_cons in Hs as [He' Hs].
    destruct (goes_before _ e e') eqn:Hb.
    + apply goes_before_le in Hb.
      apply StronglySorted_cons. split; [|by apply StronglySorted_cons].
      constructor; [done|].
      eapply Forall_impl; [exact He'|]. intros a Ha.
      unfold le_dist in *. by eapply Qcle_trans.
    + apply goes_before_ge in Hb.
      apply StronglySorted_cons. split; [|by apply IH].
      rewrite insert_sorted_Permutation. by constructor.
Qed.


Lemma insert_sorted_behind e row :
  Forall (λ e', (e'.2 < e.2)%Qc) row → insert e row = row ++ [e].
Proof.
  induction 1 as [|e' row He' _ IH]; simpl; [done|].
  by rewrite goes_before_behind, IH.
Qed.

(** Cutting the list before an insertion does not change what is left
    after it. *)
Lemma take_insert_sorted_take e row :
  take k (insert e (take k row)) = take k (insert e row).
Proof.
  generalize k. clear k. intros n. revert n.
  induction row as [|e' row IH]; intros [|n]; simpl; try done.
  destruct (goes_before _ e e'); simpl.
  - destruct n as [|n]; simpl; [done|]. f_equal. f_equal.
    by rewrite take_take, Nat.min_l by lia.
  - f_equal. apply IH.
Qed.

Lemma foldl_insert_topk es : ∀ row row',
  row = take k row' →
  foldl (λ r e, insert_k e r) row es = take k (foldl (λ r e, insert e r) row' es).
Proof.
  induction es as [|e es IH]; intros row row' ->; simpl; [done|].
  apply IH. unfold insert_topk. apply take_insert_sorted_take.
Qed.

Lemma foldl_insert_Permutation es : ∀ row,
  foldl (λ r e, insert e r) row es ≡ₚ es ++ row.
Proof.
  induction es as [|e es IH]; intros row; simpl; [done|].
  rewrite IH, insert_sorted_Permutation. by rewrite Permutation_middle.
Qed.

Lemma foldl_insert_StronglySorted es : ∀ row,
  StronglySorted le_dist row →
  StronglySorted le_dist (foldl (λ r e, insert e r) row es).
Proof.
  induction es as [|e es IH]; intros row Hs; simpl; [done|].
  by apply IH, insert_sorted_StronglySorted.
Qed.


Lemma StronglySorted_take {A} (R : relation A) n (l : list A) :
  StronglySorted R l → StronglySorted R (take n l).
Proof.
  intros Hs. rewrite <- (take_drop n l) in Hs.
  by apply StronglySorted_app_1_l in Hs.
Qed.

Lemma insert_topk_ok e row : row_ok row → row_ok (insert_k e row).
Proof.
  intros [Hs Hl]. split.
  - by apply StronglySorted_take, insert_sorted_StronglySorted.
  - unfold insert_topk. rewrite length_take. lia.
Qed.

Lemma StronglySorted_lookup_le (row : QueryResult) i j a b :
  StronglySorted le_dist row → (i ≤ j)%nat →
  row !! i = Some a → row !! j = Some b → le_dist a b.
Proof.
  intros Hs. revert i j. induction Hs as [|e row Hs IH He]; intros i j Hij Hi Hj.
  - by rewrite lookup_nil in Hi.
  - destruct i as [|i], j as [|j]; simpl in *; simplify_eq.
    + unfold le_dist. apply Qcle_refl.
    + rewrite Forall_forall in He. apply He. by eapply list_elem_of_lookup_2.
    + lia.
    + eapply IH; [|done..]. lia.
Qed.

(** An entry behind the k-th of a full list leaves the list as it is. *)
Lemma insert_topk_noop e row d :
  row_ok row → kth_best k row = Some d → (d < e.2)%Qc →
  insert_k e row = row.
Proof.
  intros [Hs Hl] Hk Hd. unfold kth_best in Hk.
  destruct (row !! (k - 1)%nat) as [ek|] eqn:Hek; simplify_eq/=.
  pose proof (lookup_lt_Some _ _ _ Hek) as Hlt.
  assert (Hlen : length row = k) by lia.
  unfold insert_topk. rewrite insert_sorted_behind.
  - by apply take_app_length'.
  - apply Forall_forall. intros e' He'.
    apply list_elem_of_lookup in He' as [i Hi].
    pose proof (lookup_lt_Some _ _ _ Hi) as Hilt.
    eapply Qcle_lt_trans; [|exact Hd].
    apply (StronglySorted_lookup_le row i (k - 1) e' ek); [done|lia|done..].
Qed.

End Rows.

(** ** What the traversals do to the results *)

Section Traversal.
Context {point bound : Type}
  `{BoundOps point bound, BoundDiameter bound, Metric point bound,
    !MetricLaws point bound}.
Variable ties : tie_rule.
Variable k : nat.
Variable monochromatic : bool.
Variable queries references : list point.

Abbreviation cand := (candidate monochromatic references).
Abbreviation visit := (visit_range ties k monochromatic references).
Abbreviation eff := (effect ties k monochromatic queries references).
Abbreviation rows_ok := (Forall (row_ok k)).

Lemma visit_range_foldl qi x ris : ∀ row,
  visit qi x ris row
  = foldl (λ r e, insert_topk ties k e r) row (omap (cand qi x) ris).
Proof.
  unfold visit_range.
  induction ris as [|ri ris IH]; intros row; simpl; [done|].
  unfold visit_point at 2. destruct (cand qi x ri); simpl; apply IH.
Qed.

Lemma visit_range_app qi x l1 l2 row :
  visit qi x (l1 ++ l2) row = visit qi x l2 (visit qi x l1 row).
Proof. unfold visit_range. apply foldl_app. Qed.

Lemma visit_range_ok qi x ris : ∀ row,
  row_ok k row → row_ok k (visit qi x ris row).
Proof.
  unfold visit_range.
  induction ris as [|ri ris IH]; intros row Hrow; simpl; [done|].
  apply IH. unfold visit_point. destruct (cand qi x ri); [|done].
  by apply insert_topk_ok.
Qed.

Lemma visit_range_noop qi x ris row d :
  row_ok k row → kth_best k row = Some d →
  (∀ ri y, ri ∈ ris → references !! ri = Some y → (d < Distance x y)%Qc) →
  visit qi x ris row = row.
Proof.
  intros Hrow Hk. unfold visit_range.
  induction ris as [|ri ris IH]; intros Hfar; simpl; [done|].
  assert (Hri : visit_point ties k monochromatic references
                  qi x row ri = row).
  { unfold visit_point, candidate.
    destruct (monochromatic && (qi =? ri)%nat); [done|].
    destruct (references !! ri) as [y|] eqn:Hy; simpl; [|done].
    eapply insert_topk_noop; [done..|]. simpl. apply (Hfar ri); [left|done]. }
  rewrite Hri. apply IH. intros ri' y Hin. apply Hfar. by right.
Qed.

(** *** Effects compose *)

Lemma effect_rows_ok qis ris res res' :
  eff qis ris res res' → rows_ok res → rows_ok res'.
Proof.
  intros [Hlen Heff] Hok. apply Forall_lookup. intros qi row' Hrow'.
  assert (is_Some (res !! qi)) as [row Hrow].
  { apply lookup_lt_is_Some. rewrite <- Hlen. by eapply lookup_lt_Some. }
  pose proof (Forall_lookup_1 _ _ _ _ Hok Hrow) as Hr.
  destruct (Heff qi) as [Hout Hin].
  destruct (decide (qi ∈ qis)) as [Hq|Hq].
  - destruct (Hin Hq row Hrow) as (x & l & _ & _ & Hv).
    rewrite Hv in Hrow'. injection Hrow' as <-. by apply visit_range_ok.
  - rewrite (Hout Hq), Hrow in Hrow'. by injection Hrow' as <-.
Qed.

Lemma effect_Permutation qis ris ris' res res' :
  ris ≡ₚ ris' → eff qis ris res res' → eff qis ris' res res'.
Proof.
  intros Hp [Hlen Heff]. split; [done|]. intros qi.
  destruct (Heff qi) as [Hout Hin]. split; [done|].
  intros Hq row Hrow. destruct (Hin Hq row Hrow) as (x & l & Hx & Hl & Hv).
  exists x, l. split; [done|]. split; [by rewrite Hl|done].
Qed.

Lemma effect_more_references qis rs1 rs2 res res1 res2 :
  eff qis rs1 res res1 → eff qis rs2 res1 res2 →
  eff qis (rs1 ++ rs2) res res2.
Proof.
  intros [Hlen1 Heff1] [Hlen2 Heff2]. split; [congruence|]. intros qi.
  destruct (Heff1 qi) as [Hout1 Hin1], (Heff2 qi) as [Hout2 Hin2]. split.
  - intros Hq. by rewrite Hout2, Hout1.
  - intros Hq row Hrow.
    destruct (Hin1 Hq row Hrow) as (x & l1 & Hx & Hl1 & Hv1).
    destruct (Hin2 Hq _ Hv1) as (x' & l2 & Hx' & Hl2 & Hv2).
    assert (x' = x) as -> by congruence.
    exists x, (l1 ++ l2). split; [done|]. split; [by rewrite Hl1, Hl2|].
    by rewrite visit_range_app.
Qed.

Lemma effect_more_queries qs1 qs2 ris res res1 res2 :
  (∀ qi, qi ∈ qs1 → qi ∉ qs2) →
  eff qs1 ris res res1 → eff qs2 ris res1 res2 →
  eff (qs1 ++ qs2) ris res res2.
Proof.
  intros Hdisj [Hlen1 Heff1] [Hlen2 Heff2]. split; [congruence|]. intros qi.
  destruct (Heff1 qi) as [Hout1 Hin1], (Heff2 qi) as [Hout2 Hin2]. split.
  - intros Hq. rewrite not_elem_of_app in Hq. destruct Hq as [Hq1 Hq2].
    by rewrite Hout2, Hout1.
  - intros Hq row Hrow. destruct (decide (qi ∈ qs1)) as [Hq1|Hq1].
    + destruct (Hin1 Hq1 row Hrow) as (x & l & Hx & Hl & Hv).
      exists x, l. split; [done|]. split; [done|].
      rewrite Hout2; [done|]. by apply Hdisj.
    + apply elem_of_app in Hq as [Hq|Hq2]; [done|].
      apply Hin2; [done|]. by rewrite Hout1.
Qed.

Lemma effect_nothing ris res : eff [] ris res res.
Proof.
  split; [done|]. intros qi. split; [done|]. intros Hq.
  by apply elem_of_nil in Hq.
Qed.

Lemma effect_alter qi x ris res :
  queries !! qi = Some x →
  eff [qi] ris res (alter (visit qi x ris) qi res).
Proof.
  intros Hx. split; [apply length_alter|]. intros qj. split.
  - intros Hq. apply list_lookup_alter_ne. set_solver.
  - intros Hq row Hrow. apply list_elem_of_singleton in Hq as ->.
    exists x, ris. split; [done|]. split; [done|].
    by rewrite list_lookup_alter_eq, Hrow.
Qed.

Lemma effect_foldl (step : list QueryResult → nat → list QueryResult) ris qis :
  NoDup qis →
  (∀ qi res, qi ∈ qis → rows_ok res → eff [qi] ris res (step res qi)) →
  ∀ res, rows_ok res → eff qis ris res (foldl step res qis).
Proof.
  induction 1 as [|qi qis Hqi Hnd IH]; intros Hstep res Hok; simpl.
  - apply effect_nothing.
  - assert (Hone : eff [qi] ris res (step res qi))
      by (apply Hstep; [left|done]).
    apply (effect_more_queries [qi] qis ris res (step res qi)).
    + intros qj Hq. by apply list_elem_of_singleton in Hq as ->.
    + done.
    + apply IH.
      * intros qj res' Hq. apply Hstep. by right.
      * by eapply effect_rows_ok.
Qed.

Lemma BaseCase_effect qis ris res :
  NoDup qis → (∀ qi, qi ∈ qis → is_Some (queries !! qi)) → rows_ok res →
  eff qis ris res
    (BaseCase ties k monochromatic queries references qis ris res).
Proof.
  intros Hnd Hq Hok. unfold BaseCase. apply effect_foldl; [done| |done].
  intros qi res' Hin _. destruct (Hq qi Hin) as [x Hx]. rewrite Hx.
  by apply effect_alter.
Qed.

(** *** Pruning changes nothing *)

Lemma bounds_ok_point points (t : SpatialNode bound) i :
  bounds_ok points t → i ∈ points_under t →
  ∃ x, points !! i = Some x ∧ bound_Contains (node_bound t) x.
Proof.
  intros Hb Hi.
  assert (HF : Forall (λ i, ∃ x, points !! i = Some x ∧
                                 bound_Contains (node_bound t) x)
                 (points_under t)) by (destruct t; apply Hb).
  rewrite Forall_forall in HF. by apply HF.
Qed.

Lemma cannot_improve_true lower row :
  cannot_improve k lower row = true →
  ∃ d, kth_best k row = Some d ∧ (d < lower)%Qc.
Proof.
  unfold cannot_improve. destruct (kth_best k row) as [d|]; [|done].
  intros Hd%Qcltb_lt. eauto.
Qed.

Lemma prune_pair_effect (q r : SpatialNode bound) res :
  bounds_ok queries q → bounds_ok references r → rows_ok res →
  prune_pair k q r res = true →
  eff (points_under q) (points_under r) res res.
Proof.
  intros Hq Hr Hok Hp. split; [done|]. intros qi. split; [done|].
  intros Hqi row Hrow. unfold prune_pair in Hp.
  rewrite forallb_forall in Hp. apply list_elem_of_In, Hp in Hqi as Hc.
  rewrite Hrow in Hc. apply cannot_improve_true in Hc as (d & Hd & Hlt).
  apply list_elem_of_In in Hqi.
  destruct (bounds_ok_point _ _ _ Hq Hqi) as (x & Hx & Hxin).
  exists x, (points_under r). split; [done|]. split; [done|].
  rewrite Hrow. f_equal. symmetry. eapply visit_range_noop; [|exact Hd|].
  - by eapply Forall_lookup_1.
  - intros ri y Hri Hy.
    destruct (bounds_ok_point _ _ _ Hr Hri) as (y' & Hy' & Hyin).
    assert (y' = y) as -> by congruence.
    eapply Qclt_le_trans; [exact Hlt|]. by apply MinDistanceBound_sound.
Qed.

(** *** The dual-tree recursion *)

Abbreviation Dual :=
  (DualTreeTraversal ties k monochromatic queries references).

Lemma DualTreeTraversal_eq (q r : SpatialNode bound) res :
  Dual q r res =
  if prune_pair k q r res then res
  else
    match q, r with
    | Leaf _ qbegin qcount, Leaf _ rbegin rcount =>
        BaseCase ties k monochromatic queries references
          (seq qbegin qcount) (seq rbegin rcount) res
    | Leaf bq _ _, Internal _ r1 r2 =>
        if Qcleb (MinDistanceBound bq (node_bound r1))
                 (MinDistanceBound bq (node_bound r2))
        then Dual q r2 (Dual q r1 res)
        else Dual q r1 (Dual q r2 res)
    | Internal _ q1 q2, Leaf _ _ _ => Dual q2 r (Dual q1 r res)
    | Internal bq q1 q2, Internal br r1 r2 =>
        if Qcleb (bound_Diameter br) (bound_Diameter bq)
        then Dual q2 r (Dual q1 r res)
        else if Qcleb (MinDistanceBound bq (node_bound r1))
                      (MinDistanceBound bq (node_bound r2))
        then Dual q r2 (Dual q r1 res)
        else Dual q r1 (Dual q r2 res)
    end.
Proof. destruct q, r; reflexivity. Qed.

Lemma bounds_ok_Internal points b (l r : SpatialNode bound) :
  bounds_ok points (Internal b l r) → bounds_ok points l ∧ bounds_ok points r.
Proof. intros [_ Hlr]. exact Hlr. Qed.

(** Both children of a reference node, in either order. *)
Lemma effect_both_children qis (r1 r2 : SpatialNode bound)
    (f1 f2 : list QueryResult → list QueryResult) (first_r1 : bool) res :
  rows_ok res →
  (∀ res, rows_ok res → eff qis (points_under r1) res (f1 res)) →
  (∀ res, rows_ok res → eff qis (points_under r2) res (f2 res)) →
  eff qis (points_under r1 ++ points_under r2) res
    (if first_r1 then f2 (f1 res) else f1 (f2 res)).
Proof.
  intros Hok Hf1 Hf2. destruct first_r1.
  - eapply effect_more_references; [by apply Hf1|].
    apply Hf2. eapply effect_rows_ok; [by apply Hf1|done].
  - eapply effect_Permutation; [apply Permutation_app_comm|].
    eapply effect_more_references; [by apply Hf2|].
    apply Hf1. eapply effect_rows_ok; [by apply Hf2|done].
Qed.

Lemma effect_both_queries (q1 q2 : SpatialNode bound) ris
    (f1 f2 : list QueryResult → list QueryResult) res :
  NoDup (points_under q1 ++ points_under q2) → rows_ok res →
  (∀ res, rows_ok res → eff (points_under q1) ris res (f1 res)) →
  (∀ res, rows_ok res → eff (points_under q2) ris res (f2 res)) →
  eff (points_under q1 ++ points_under q2) ris res (f2 (f1 res)).
Proof.
  intros Hnd Hok Hf1 Hf2. apply NoDup_app in Hnd as (_ & Hdisj & _).
  eapply effect_more_queries; [done|by apply Hf1|].
  apply Hf2. eapply effect_rows_ok; [by apply Hf1|done].
Qed.

Lemma DualTreeTraversal_effect (q : SpatialNode bound) : ∀ r res,
  bounds_ok queries q → bounds_ok references r →
  NoDup (points_under q) → rows_ok res →
  eff (points_under q) (points_under r) res (Dual q r res).
Proof.
  induction q as [bq qbegin qcount|bq q1 IH1 q2 IH2]; intros r;
    induction r as [br rbegin rcount|br r1 IHr1 r2 IHr2];
    intros res Hq Hr Hnd Hok; rewrite DualTreeTraversal_eq;
    (destruct (prune_pair k _ _ res) eqn:Hp;
     [by apply prune_pair_effect|]).
  - apply BaseCase_effect; [done| |done].
    intros qi Hqi. destruct (bounds_ok_point _ _ _ Hq Hqi) as (x & -> & _).
    by eexists.
  - destruct (bounds_ok_Internal _ _ _ _ Hr) as [Hr1 Hr2].
    apply (effect_both_children _ r1 r2 (Dual _ r1) (Dual _ r2)); auto.
  - destruct (bounds_ok_Internal _ _ _ _ Hq) as [Hq1 Hq2].
    simpl in Hnd. pose proof Hnd as Hnd'.
    apply NoDup_app in Hnd' as (Hnd1 & _ & Hnd2).
    apply (effect_both_queries q1 q2 _ (Dual q1 _) (Dual q2 _)); auto.
  - destruct (Qcleb (bound_Diameter br) (bound_Diameter bq)).
    + destruct (bounds_ok_Internal _ _ _ _ Hq) as [Hq1 Hq2].
      simpl in Hnd. pose proof Hnd as Hnd'.
      apply NoDup_app in Hnd' as (Hnd1 & _ & Hnd2).
      apply (effect_both_queries q1 q2 _ (Dual q1 _) (Dual q2 _)); auto.
    + destruct (bounds_ok_Internal _ _ _ _ Hr) as [Hr1 Hr2].
      apply (effect_both_children _ r1 r2 (Dual _ r1) (Dual _ r2)); auto.
Qed.

(** *** The single-tree recursion *)

Abbreviation Single :=
  (SingleTreeTraversal ties k monochromatic references).

Lemma SingleTreeTraversal_effect qi x (r : SpatialNode bound) : ∀ res,
  queries !! qi = Some x → bounds_ok references r → rows_ok res →
  eff [qi] (points_under r) res (Single qi x r res).
Proof.
  induction r as [br rbegin rcount|br r1 IH1 r2 IH2]; intros res Hx Hr Hok.
  - simpl. destruct (res !! qi) as [row|] eqn:Hrow.
    + destruct (cannot_improve k _ row) eqn:Hc; [|by apply effect_alter].
      apply cannot_improve_true in Hc as (d & Hd & Hlt).
      split; [done|]. intros qj. split; [done|].
      intros Hq row' Hrow'. apply list_elem_of_singleton in Hq as ->.
      assert (row' = row) as -> by congruence.
      exists x, (seq rbegin rcount). split; [done|]. split; [done|].
      rewrite Hrow. f_equal. symmetry. eapply visit_range_noop; [|exact Hd|].
      * by eapply Forall_lookup_1.
      * intros ri y Hri Hy.
        destruct (bounds_ok_point _ _ _ Hr Hri) as (y' & Hy' & Hyin).
        assert (y' = y) as -> by congruence.
        eapply Qclt_le_trans; [exact Hlt|]. by apply MinDistancePoint_sound.
    + by apply effect_alter.
  - destruct (bounds_ok_Internal _ _ _ _ Hr) as [Hr1 Hr2].
    change (Single qi x (Internal br r1 r2) res) with
      (if match res !! qi with
          | Some row => cannot_improve k (MinDistancePoint br x) row
          | None => false
          end
       then res
       else if Qcleb (MinDistancePoint (node_bound r1) x)
                     (MinDistancePoint (node_bound r2) x)
       then Single qi x r2 (Single qi x r1 res)
       else Single qi x r1 (Single qi x r2 res)).
    destruct (res !! qi) as [row|] eqn:Hrow.
    + destruct (cannot_improve k _ row) eqn:Hc.
      * apply cannot_improve_true in Hc as (d & Hd & Hlt).
        split; [done|]. intros qj. split; [done|].
        intros Hq row' Hrow'. apply list_elem_of_singleton in Hq as ->.
        assert (row' = row) as -> by congruence.
        exists x, (points_under (Internal br r1 r2)).
        split; [done|]. split; [done|]. rewrite Hrow. f_equal.
        symmetry. eapply visit_range_noop; [|exact Hd|].
        -- by eapply Forall_lookup_1.
        -- intros ri y Hri Hy.
           destruct (bounds_ok_point _ _ _ Hr Hri) as (y' & Hy' & Hyin).
           assert (y' = y) as -> by congruence.
           eapply Qclt_le_trans; [exact Hlt|].
           by apply MinDistancePoint_sound.
      * apply (effect_both_children _ r1 r2 (Single qi x r1) (Single qi x r2));
          auto.
    + apply (effect_both_children _ r1 r2 (Single qi x r1) (Single qi x r2));
        auto.
Qed.

Lemma SingleTreeSearch_effect (rtree : SpatialNode bound) res :
  bounds_ok references rtree → rows_ok res →
  eff (seq 0 (length queries)) (points_under rtree) res
    (SingleTreeSearch ties k monochromatic queries references
       rtree res).
Proof.
  intros Hr Hok. unfold SingleTreeSearch.
  apply effect_foldl; [apply NoDup_seq| |done].
  intros qi res' Hqi Hok'. apply elem_of_seq in Hqi.
  destruct (lookup_lt_is_Some_2 queries qi) as [x Hx]; [lia|].
  rewrite Hx. by apply SingleTreeTraversal_effect.
Qed.

(** *** Every mode compares every pair *)

Abbreviation done_ :=
  (searched ties k monochromatic queries references).
Abbreviation empty := (replicate (length queries) (@nil (nat * Qc))).

Lemma rows_ok_empty : rows_ok empty.
Proof. apply Forall_replicate. split; [constructor|simpl; lia]. Qed.

Lemma effect_searched qis ris res :
  qis ≡ₚ seq 0 (length queries) → ris ≡ₚ seq 0 (length references) →
  eff qis ris empty res → done_ res.
Proof.
  intros Hqis Hris [Hlen Heff]. split.
  - by rewrite Hlen, length_replicate.
  - intros qi x Hx. pose proof (lookup_lt_Some _ _ _ Hx) as Hlt.
    destruct (Heff qi) as [_ Hin].
    assert (Hqi : qi ∈ qis).
    { rewrite Hqis. apply elem_of_seq. lia. }
    destruct (Hin Hqi []) as (x' & l & Hx' & Hl & Hres).
    { by apply lookup_replicate_2. }
    assert (x' = x) as -> by congruence.
    exists l. split; [by rewrite Hl|done].
Qed.

Lemma NaiveSearch_searched :
  done_ (NaiveSearch ties k monochromatic queries references empty).
Proof.
  apply (effect_searched (seq 0 (length queries)) (seq 0 (length references)));
    [done..|].
  apply BaseCase_effect; [apply NoDup_seq| |apply rows_ok_empty].
  intros qi Hqi%elem_of_seq. apply lookup_lt_is_Some. lia.
Qed.

Lemma SingleTreeSearch_searched (rtree : SpatialNode bound) :
  tree_over references rtree →
  done_ (SingleTreeSearch ties k monochromatic queries references
           rtree empty).
Proof.
  intros [Hb Hp].
  apply (effect_searched (seq 0 (length queries)) (points_under rtree));
    [done..|].
  apply SingleTreeSearch_effect; [done|apply rows_ok_empty].
Qed.

Lemma DualTreeTraversal_searched (qtree rtree : SpatialNode bound) :
  tree_over queries qtree → tree_over references rtree →
  done_ (Dual qtree rtree empty).
Proof.
  intros [Hbq Hpq] [Hbr Hpr].
  apply (effect_searched (points_under qtree) (points_under rtree)); [done..|].
  apply DualTreeTraversal_effect; [done..| |apply rows_ok_empty].
  rewrite Hpq. apply NoDup_seq.
Qed.

(** *** Two searches agree *)

Lemma visit_range_sorted qi x l :
  visit qi x l []
  = take k (foldl (λ r e, insert_sorted ties e r) []
              (omap (cand qi x) l)).
Proof.
  rewrite visit_range_foldl. apply foldl_insert_topk. by rewrite take_nil.
Qed.

Lemma NoDup_fmap_eq {A B} (f : A → B) (l : list A) a b :
  NoDup (f <$> l) → a ∈ l → b ∈ l → f a = f b → a = b.
Proof.
  induction l as [|c l IH]; csimpl; intros Hnd Ha Hb Hab.
  - by apply elem_of_nil in Ha.
  - apply NoDup_cons in Hnd as [Hc Hnd].
    apply elem_of_cons in Ha as [->|Ha], Hb as [->|Hb]; [done| | |by apply IH].
    + exfalso. apply Hc. rewrite Hab. by apply list_elem_of_fmap_2.
    + exfalso. apply Hc. rewrite <- Hab. by apply list_elem_of_fmap_2.
Qed.

(** The distances do not depend on the order of the visits. *)
Lemma visit_range_distances qi x l l' :
  l ≡ₚ l' → (visit qi x l []).*2 = (visit qi x l' []).*2.
Proof.
  intros Hl. rewrite !visit_range_sorted, !fmap_take. f_equal.
  apply (StronglySorted_unique Qcle).
  - eapply StronglySorted_fmap; [|apply foldl_insert_StronglySorted; constructor].
    done.
  - eapply StronglySorted_fmap; [|apply foldl_insert_StronglySorted; constructor].
    done.
  - apply fmap_Permutation.
    by rewrite !foldl_insert_Permutation, !app_nil_r, Hl.
Qed.

(** Nor do the neighbours, when no two candidates are equally far. *)
Lemma visit_range_no_ties qi x l l' :
  l ≡ₚ l' → NoDup (omap (cand qi x) l).*2 →
  visit qi x l [] = visit qi x l' [].
Proof.
  intros Hl Hnd. rewrite !visit_range_sorted. f_equal.
  assert (Hp : ∀ l0, foldl (λ r e, insert_sorted ties e r) []
                 (omap (cand qi x) l0) ≡ₚ omap (cand qi x) l0).
  { intros l0. by rewrite foldl_insert_Permutation, app_nil_r. }
  apply (StronglySorted_unique_strong le_dist).
  - intros a b Ha Hb Hab Hba. rewrite Hp in Ha, Hb. rewrite <- Hl in Hb.
    apply (NoDup_fmap_eq snd _ a b Hnd Ha Hb).
    by apply Qcle_antisym.
  - apply foldl_insert_StronglySorted. constructor.
  - apply foldl_insert_StronglySorted. constructor.
  - by rewrite !Hp, Hl.
Qed.

Lemma searched_agree res1 res2 :
  done_ res1 → done_ res2 →
  (λ row : QueryResult, row.*2) <$> res1
    = (λ row : QueryResult, row.*2) <$> res2 ∧
  ∀ qi x, queries !! qi = Some x →
    NoDup (candidate_distances monochromatic references qi x) →
    res1 !! qi = res2 !! qi.
Proof.
  intros [Hlen1 Hd1] [Hlen2 Hd2]. split.
  - apply list_eq. intros qi. rewrite !list_lookup_fmap.
    destruct (queries !! qi) as [x|] eqn:Hx.
    + destruct (Hd1 qi x Hx) as (l1 & Hl1 & ->).
      destruct (Hd2 qi x Hx) as (l2 & Hl2 & ->). simpl. f_equal.
      apply visit_range_distances. by rewrite Hl1, Hl2.
    + apply lookup_ge_None in Hx.
      rewrite !(proj2 (lookup_ge_None _ _)) by lia. done.
  - intros qi x Hx Hnd.
    destruct (Hd1 qi x Hx) as (l1 & Hl1 & ->).
    destruct (Hd2 qi x Hx) as (l2 & Hl2 & ->). f_equal.
    apply visit_range_no_ties; [by rewrite Hl1, Hl2|].
    unfold candidate_distances in Hnd. by rewrite Hl1.
Qed.





Lemma searched_row res qi x :
  done_ res → queries !! qi = Some x →
  NoDup (candidate_distances monochromatic references qi x) →
  res !! qi = Some (visit qi x (seq 0 (length references)) []).
Proof.
  intros [_ Hd] Hx Hnd. destruct (Hd qi x Hx) as (l & Hl & ->). f_equal.
  apply visit_range_no_ties; [done|].
  unfold candidate_distances in Hnd. by rewrite Hl.
Qed.

End Traversal.

Lemma ComputeNeighbors_searched {point bound : Type}
    `{BoundOps point bound, BoundDiameter bound, Metric point bound,
      !MetricLaws point bound}
    ties (param : Param) monochromatic
    (queries references : list point) (qtree rtree : SpatialNode bound) :
  tree_over queries qtree → tree_over references rtree →
  ∃ results,
    searched ties (k param) monochromatic queries references
      results ∧
    ComputeNeighbors ties param monochromatic queries references
      qtree rtree
    = ((λ row : QueryResult, row.*1) <$> results,
       (λ row : QueryResult, row.*2) <$> results).
Proof.
  intros Hq Hr. unfold ComputeNeighbors.
  destruct (naive_mode param); [|destruct (single_mode param)];
    eexists; (split; [|reflexivity]).
  - apply NaiveSearch_searched.
  - by apply SingleTreeSearch_searched.
  - by apply DualTreeTraversal_searched.
Qed.

(** Whichever way ties go, the three modes return the same table of
    distances, and the same neighbours for every query point that has no two
    reference points equally far from it. *)
Lemma tie_free_rows_agree {point bound : Type}
    `{BoundOps point bound, BoundDiameter bound, Metric point bound,
      !MetricLaws point bound}
    ties (k : nat) monochromatic
    (queries references : list point) (qtree rtree : SpatialNode bound) :
  tree_over queries qtree → tree_over references rtree →
  let run param :=
    ComputeNeighbors ties param monochromatic queries references
      qtree rtree in
  (run (naive k)).2 = (run (single_tree k)).2 ∧
  (run (naive k)).2 = (run (dual_tree k)).2 ∧
  ∀ qi x, queries !! qi = Some x →
    NoDup (candidate_distances monochromatic references qi x) →
    (run (naive k)).1 !! qi = (run (single_tree k)).1 !! qi ∧
    (run (naive k)).1 !! qi = (run (dual_tree k)).1 !! qi.
Proof.
  intros Hq Hr run. unfold run.
  destruct (ComputeNeighbors_searched ties (naive k) monochromatic
              queries references qtree rtree Hq Hr) as (rn & Hn & ->).
  destruct (ComputeNeighbors_searched ties (single_tree k)
              monochromatic queries references qtree rtree Hq Hr)
    as (rs & Hs & ->).
  destruct (ComputeNeighbors_searched ties (dual_tree k)
              monochromatic queries references qtree rtree Hq Hr)
    as (rd & Hd & ->).
  simpl in *.
  destruct (searched_agree _ _ _ _ _ rn rs Hn Hs) as [Hds His].
  destruct (searched_agree _ _ _ _ _ rn rd Hn Hd) as [Hdd Hid].
  split; [done|]. split; [done|]. intros qi x Hx Hnd.
  rewrite !list_lookup_fmap.
  by rewrite <- (His qi x Hx Hnd), <- (Hid qi x Hx Hnd).
Qed.



Section Scenario.
Import HRect HRectFacts Samples.

Ltac in_range := repeat constructor; vm_compute; discriminate.
Ltac covered :=
  repeat (constructor; [eexists; split; [reflexivity|in_range]|]);
  constructor.

Lemma eleven_tree_over : tree_over eleven_points eleven_tree.
Proof. split; [|reflexivity]. simpl. repeat split; covered. Qed.

Lemma tie_tree_over : tree_over tie_points tie_tree.
Proof. split; [|reflexivity]. simpl. repeat split; covered. Qed.

Lemma Qc_list_eq (l1 l2 : list Qc) :
  Qcanon.this <$> l1 = Qcanon.this <$> l2 → l1 = l2.
Proof.
  revert l2. induction l1 as [|a l1 IH]; intros [|b l2] Heq;
    simplify_eq/=; [done|].
  f_equal; [by apply Qc_decomp|by apply IH].
Qed.

Lemma NoDup_Qc (l : list Qc) :
  bool_decide (NoDup (Qcanon.this <$> l)) = true → NoDup l.
Proof. intros Hd%bool_decide_eq_true. by eapply NoDup_fmap_1. Qed.


(** Were ties broken by the order of the visits, the modes would not
    agree: of the four points [0, 2, -2, -1] the first has two at the same
    distance, and over the tree [tie_tree] the naive mode and the dual-tree
    mode name different ones, whether the one seen first or the one seen
    last goes first. *)
Example order_of_visits_is_no_tie_rule :
  tree_over tie_points tie_tree ∧
  (ComputeNeighbors SeenFirst (naive 2) true tie_points tie_points
     tie_tree tie_tree).1
  ≠ (ComputeNeighbors SeenFirst (dual_tree 2) true tie_points tie_points
       tie_tree tie_tree).1 ∧
  (ComputeNeighbors SeenLast (naive 2) true tie_points tie_points
     tie_tree tie_tree).1
  ≠ (ComputeNeighbors SeenLast (dual_tree 2) true tie_points tie_points
       tie_tree tie_tree).1.
Proof.
  split; [exact tie_tree_over|]. split; vm_compute; discriminate.
Qed.

(** C2.  Over the eleven points of exhaustive_synthetic_test, with
    [k = 10] and whatever trees, each of the three modes gives point 0 the
    neighbours 2, 5, 1, 8, 9, 10, 3, 7, 6, 4 at the squared distances 0.01,
    0.0625, 0.09, 0.16, 0.7225, 0.9025, 1.44, 1.8225, 4.2025 and 25
    (exactly, hence within the tolerance). *)
Theorem eleven_points_neighbours_of_point_0 ties
    (qtree rtree : SpatialNode HRectBound) :
  tree_over eleven_points qtree → tree_over eleven_points rtree →
  Forall (λ param,
            let r := ComputeNeighbors ties param true
                       eleven_points eleven_points qtree rtree in
            r.1 !! 0%nat = Some neighbours_of_point_0 ∧
            r.2 !! 0%nat = Some distances_of_point_0 ∧
            ∃ ds, r.2 !! 0%nat = Some ds ∧
                  Forall2 (within_tolerance tolerance) ds distances_of_point_0)
    [naive 10; single_tree 10; dual_tree 10].
Proof.
  intros Hq Hr.
  assert (Hnd : NoDup (candidate_distances true eleven_points 0 (pt1 5))).
  { apply NoDup_Qc. vm_compute. reflexivity. }
  assert (Htol : Forall2 (within_tolerance tolerance)
                   distances_of_point_0 distances_of_point_0).
  { repeat constructor; vm_compute; discriminate. }
  assert (Hrow : ∀ param, k param = 10%nat →
    let r := ComputeNeighbors ties param true
               eleven_points eleven_points qtree rtree in
    r.1 !! 0%nat = Some neighbours_of_point_0 ∧
    r.2 !! 0%nat = Some distances_of_point_0).
  { intros param Hk.
    destruct (ComputeNeighbors_searched ties param true
                eleven_points eleven_points qtree rtree Hq Hr)
      as (res & Hres & ->).
    rewrite Hk in Hres. simpl. rewrite !list_lookup_fmap.
    rewrite (searched_row _ _ _ _ _ res 0 (pt1 5) Hres eq_refl Hnd). simpl.
    split; f_equal.
    - destruct ties; vm_compute; reflexivity.
    - apply Qc_list_eq. destruct ties; vm_compute; reflexivity. }
  repeat constructor; try (apply Hrow; reflexivity);
    (eexists; split; [apply Hrow; reflexivity|exact Htol]).
Qed.

Lemma eleven_points_neighbours_of_point_0_witness :
  tree_over eleven_points eleven_tree ∧
  (ComputeNeighbors LowerIndex (dual_tree 10) true eleven_points
     eleven_points eleven_tree eleven_tree).1 !! 0%nat
  = Some neighbours_of_point_0 ∧
  (ComputeNeighbors LowerIndex (dual_tree 10) true eleven_points
     eleven_points eleven_tree eleven_tree).2 !! 0%nat
  = Some distances_of_point_0.
Proof.
  split; [exact eleven_tree_over|].
  pose proof (eleven_points_neighbours_of_point_0 LowerIndex eleven_tree
                eleven_tree
                eleven_tree_over eleven_tree_over) as HF.
  apply Forall_cons in HF as [_ HF]. apply Forall_cons in HF as [_ HF].
  apply Forall_cons in HF as [(Hn & Hd & _) _]. split; [exact Hn|exact Hd].
Defined.

(** The whole table of exhaustive_synthetic_test, in the naive mode and
    with the higher index of equally near points first. *)
Example exhaustive_synthetic_test_naive :
  (ComputeNeighbors HigherIndex (naive 10) true eleven_points eleven_points
     eleven_tree eleven_tree).1 = expected_neighbours.
Proof. vm_compute. reflexivity. Qed.

End Scenario.

End AllkNNFacts.

(** * More about nbr_utils.h *)

Module NbrUtilsMore.
Import NbrUtils NbrUtilsFacts.

Lemma vec_at_neg {A} (v : list A) i : i < 0 → vec_at v i = None.
Proof.
  revert i. induction v as [|y v IH]; intros i Hi; simpl; [done|].
  destruct (Z.eqb_spec i 0); [lia|]. apply IH. lia.
Qed.

Lemma vec_at_insert_eq {A} (v : list A) i x y :
  vec_at v i = Some x → vec_at (<[Z.to_nat i := y]> v) i = Some y.
Proof.
  intros Hx. pose proof (vec_at_Some_nonneg _ _ _ Hx) as Hi.
  rewrite vec_at_lookup in * by done.
  apply list_lookup_insert_eq. by eapply lookup_lt_Some.
Qed.

Lemma vec_at_insert_ne {A} (v : list A) i j y :
  0 ≤ i → i ≠ j → vec_at (<[Z.to_nat i := y]> v) j = vec_at v j.
Proof.
  intros Hi Hne. destruct (Z.lt_ge_cases j 0) as [Hj|Hj].
  - by rewrite !vec_at_neg.
  - rewrite !vec_at_lookup by done. apply list_lookup_insert_ne. lia.
Qed.

Section StatFixer.
Context {Param Point Bound Stat : Type} `{StatOps Param Point Bound Stat}.
Variable param_ : Param.
Variable points_ : list Point.

Abbreviation Nodes := (list (Node Bound Stat)).
Abbreviation Fix_ := (FixRecursively_ param_ points_).

Lemma with_stat_eq (nodes : Nodes) i n f :
  vec_at nodes i = Some n →
  with_stat nodes i f
  = Returned (<[Z.to_nat i := set_stat n (f n (stat n))]> nodes).
Proof. intros Hn. unfold with_stat, cache_read. by rewrite Hn. Qed.

Lemma with_stat_structure (nodes nodes' : Nodes) i f :
  with_stat nodes i f = Returned nodes' →
  structure <$> nodes' = structure <$> nodes.
Proof.
  unfold with_stat, cache_read.
  destruct (vec_at nodes i) as [n|] eqn:Hn; simpl; [|done].
  intros [= <-]. pose proof (vec_at_Some_nonneg _ _ _ Hn) as Hi.
  rewrite vec_at_lookup in Hn by done.
  rewrite list_fmap_insert. by apply list_insert_id; rewrite list_lookup_fmap, Hn.
Qed.

Lemma accumulate_points_structure n : ∀ (nodes nodes' : Nodes) i b,
  accumulate_points param_ points_ nodes i n b = Returned nodes' →
  structure <$> nodes' = structure <$> nodes.
Proof.
  induction n as [|n IH]; intros nodes nodes' i b; simpl.
  - by intros [= <-].
  - destruct (cache_read points_ b) as [p|]; simpl; [|done].
    destruct (with_stat nodes i _) as [nodes1|] eqn:H1; simpl; [|done].
    intros Hacc. apply IH in Hacc. rewrite Hacc.
    by eapply with_stat_structure.
Qed.

(** X1.  Whatever the array and the index, a run of [FixRecursively_] that
    returns has changed statistics only: the array has the length it had,
    and every node its bound, range, leaf flag and children. *)
Theorem FixRecursively_keeps_structure fuel : ∀ i (nodes nodes' : Nodes),
  Fix_ fuel i nodes = Some (Returned nodes') →
  structure <$> nodes' = structure <$> nodes ∧ length nodes' = length nodes.
Proof.
  assert (Hs : ∀ i (nodes nodes' : Nodes),
            Fix_ fuel i nodes = Some (Returned nodes') →
            structure <$> nodes' = structure <$> nodes).
  { induction fuel as [|fuel IH]; intros i nodes nodes'; simpl; [done|].
    destruct (with_stat nodes i _) as [nodes1|] eqn:H1; [|done].
    apply with_stat_structure in H1.
    destruct (cache_read nodes1 i) as [node|] eqn:Hnode; [|done].
    assert (Hchild : ∀ k (r : option (outcome Nodes)) nodes2,
      (∀ nodes0, r = Some (Returned nodes0) →
                 structure <$> nodes0 = structure <$> nodes) →
      match r with
      | Some (Returned nodes0) =>
          match cache_read nodes0 i with
          | Aborted f => Some (Aborted f)
          | Returned node0 =>
              match Fix_ fuel (child node0 k) nodes0 with
              | Some (Returned nodes3) =>
                  Some (c ←! cache_read nodes3 (child node0 k);
                        with_stat nodes3 i
                          (λ _, AccumulateChild param_ (stat c) (bound c)
                                  (count c)))
              | other => other
              end
          end
      | other => other
      end = Some (Returned nodes2) →
      structure <$> nodes2 = structure <$> nodes).
    { intros k r nodes2 Hr. destruct r as [[nodes0|]|]; [|done..].
      specialize (Hr nodes0 eq_refl).
      destruct (cache_read nodes0 i) as [node0|]; [|done].
      destruct (Fix_ fuel (child node0 k) nodes0) as [[nodes3|]|] eqn:H3;
        [|done..].
      apply IH in H3.
      destruct (cache_read nodes3 (child node0 k)) as [c|]; simpl; [|done].
      intros [= H4]. apply with_stat_structure in H4. congruence. }
    destruct (negb (is_leaf node)).
    - match goal with
      | |- match ?e with _ => _ end = _ → _ =>
          destruct e as [[nodes2|]|] eqn:H2; [|done..]
      end.
      apply Hchild in H2.
      + destruct (with_stat nodes2 i _) as [nodes3|] eqn:H3; simpl; [|done].
        intros [= H4]. apply with_stat_structure in H3, H4. congruence.
      + intros nodes0 Hr.
        apply (Hchild 0 (Some (Returned nodes1)) nodes0);
          [by intros ? [= <-]|by rewrite Hnode].
    - destruct (accumulate_points _ _ nodes1 i _ _) as [nodes2|] eqn:H2;
        simpl; [|done].
      intros [= H4]. apply with_stat_structure in H4.
      apply accumulate_points_structure in H2. congruence. }
  intros i nodes nodes' Hfix. split; [by eapply Hs|].
  apply Hs in Hfix. by rewrite <- (length_fmap structure), Hfix, length_fmap.
Qed.

Lemma accumulate_points_foldl n : ∀ (nodes : Nodes) i node b,
  vec_at nodes i = Some node → 0 ≤ b →
  b + Z.of_nat n ≤ Z.of_nat (length points_) →
  accumulate_points param_ points_ nodes i n b
  = Returned (<[Z.to_nat i :=
       set_stat node (foldl (λ st p, AccumulatePoint param_ p st) (stat node)
                        (take n (drop (Z.to_nat b) points_)))]> nodes).
Proof.
  induction n as [|n IH]; intros nodes i node b Hnode Hb Hlen.
  - simpl. f_equal. symmetry. apply list_insert_id.
    pose proof (vec_at_Some_nonneg _ _ _ Hnode).
    rewrite vec_at_lookup in Hnode by done. by destruct node.
  - cbn [accumulate_points].
    destruct (lookup_lt_is_Some_2 points_ (Z.to_nat b)) as [p Hp]; [lia|].
    unfold cache_read. rewrite vec_at_lookup, Hp by done. simpl.
    rewrite (with_stat_eq _ _ node) by done. simpl.
    rewrite (IH _ _ (set_stat node (AccumulatePoint param_ p (stat node))));
      [|by eapply vec_at_insert_eq|lia|lia].
    rewrite list_insert_insert_eq. f_equal. f_equal.
    rewrite (drop_S _ _ _ Hp). simpl.
    by replace (Z.to_nat (b + 1)) with (S (Z.to_nat b)) by lia.
Qed.

Lemma shape_root_indices (s : shape (Bound := Bound) (Stat := Stat)) :
  shape_root s ∈ shape_indices s.
Proof. destruct s; by left. Qed.

Lemma shape_ok_nonneg (nodes : Nodes) s :
  shape_ok points_ nodes s → Forall (λ j, 0 ≤ j) (shape_indices s).
Proof.
  induction s as [i n|i n l IHl r IHr]; simpl.
  - intros (Hn & _). repeat constructor. by eapply vec_at_Some_nonneg.
  - intros (Hn & _ & _ & _ & _ & _ & _ & Hl & Hr). constructor.
    + by eapply vec_at_Some_nonneg.
    + apply Forall_app. auto.
Qed.

Lemma shape_ok_ext (nodes nodes' : Nodes) s :
  (∀ j, j ∈ shape_indices s → vec_at nodes' j = vec_at nodes j) →
  shape_ok points_ nodes s → shape_ok points_ nodes' s.
Proof.
  induction s as [i n|i n l IHl r IHr]; simpl; intros Hsame.
  - intros (Hn & Hrest). split; [|done]. rewrite Hsame; [done|by left].
  - intros (Hn & Hleaf & H0 & H1 & Hil & Hir & Hlr & Hl & Hr).
    split; [rewrite Hsame; [done|by left]|].
    do 6 (split; [done|]). split.
    + apply IHl; [|done]. intros j Hj. apply Hsame. set_solver.
    + apply IHr; [|done]. intros j Hj. apply Hsame. set_solver.
Qed.

Lemma shape_ok_insert (nodes : Nodes) s i w :
  0 ≤ i → i ∉ shape_indices s →
  shape_ok points_ nodes s → shape_ok points_ (<[Z.to_nat i := w]> nodes) s.
Proof.
  intros Hi Hout. apply shape_ok_ext. intros j Hj.
  apply vec_at_insert_ne; [done|]. by intros ->.
Qed.

Lemma fixed_nodes_insert s : ∀ (nodes : Nodes) i w,
  0 ≤ i → i ∉ shape_indices s → Forall (λ j, 0 ≤ j) (shape_indices s) →
  fixed_nodes param_ points_ s (<[Z.to_nat i := w]> nodes)
  = <[Z.to_nat i := w]> (fixed_nodes param_ points_ s nodes).
Proof.
  induction s as [j n|j n l IHl r IHr]; intros nodes i w Hi Hout Hnn.
  - cbn [fixed_nodes]. apply list_insert_insert_ne.
    apply Forall_inv in Hnn. cbn in Hout. set_solver by lia.
  - cbn [fixed_nodes]. cbn [shape_indices] in Hout, Hnn.
    apply Forall_cons in Hnn as [Hj Hnn]. apply Forall_app in Hnn as [? ?].
    rewrite IHl, IHr by (done || set_solver).
    apply list_insert_insert_ne. set_solver by lia.
Qed.

Lemma fixed_nodes_outside s : ∀ (nodes : Nodes) j,
  j ∉ shape_indices s → Forall (λ j, 0 ≤ j) (shape_indices s) →
  vec_at (fixed_nodes param_ points_ s nodes) j = vec_at nodes j.
Proof.
  induction s as [i n|i n l IHl r IHr]; intros nodes j Hout Hnn.
  - cbn [fixed_nodes]. apply Forall_inv in Hnn.
    apply vec_at_insert_ne; [done|]. cbn in Hout. set_solver.
  - cbn [fixed_nodes]. cbn [shape_indices] in Hout, Hnn.
    apply Forall_cons in Hnn as [Hj Hnn]. apply Forall_app in Hnn as [? ?].
    rewrite vec_at_insert_ne by (done || set_solver).
    rewrite IHr, IHl by (done || set_solver). done.
Qed.

Lemma fixed_nodes_root (nodes : Nodes) s :
  shape_ok points_ nodes s →
  vec_at (fixed_nodes param_ points_ s nodes) (shape_root s)
  = Some (set_stat (shape_node s) (fixed_stat param_ points_ s)).
Proof.
  intros Hok. pose proof (shape_ok_nonneg _ _ Hok) as Hnn.
  destruct s as [i n|i n l r]; cbn [fixed_nodes shape_root shape_node].
  - destruct Hok as (Hn & _). by eapply vec_at_insert_eq.
  - destruct Hok as (Hn & _ & _ & _ & Hil & Hir & _ & _ & _).
    cbn [shape_indices] in Hnn.
    apply Forall_cons in Hnn as [Hj Hnn]. apply Forall_app in Hnn as [? ?].
    eapply vec_at_insert_eq. rewrite !fixed_nodes_outside by done. done.
Qed.

Lemma FixRecursively_fixed s : ∀ fuel (nodes : Nodes),
  shape_ok points_ nodes s → (shape_height s ≤ fuel)%nat →
  Fix_ fuel (shape_root s) nodes
  = Some (Returned (fixed_nodes param_ points_ s nodes)).
Proof.
  induction s as [i n|i n l IHl r IHr]; intros fuel nodes Hok Hfuel.
  - destruct fuel as [|fuel]; [simpl in Hfuel; lia|].
    destruct Hok as (Hn & Hleaf & Hb & Hc & Hlen).
    cbn [shape_root FixRecursively_ fixed_nodes].
    rewrite (with_stat_eq _ _ n) by done.
    unfold cache_read at 1. rewrite (vec_at_insert_eq _ _ n) by done.
    cbn [is_leaf set_stat count begin]. rewrite Hleaf. cbn [negb].
    rewrite (accumulate_points_foldl _ _ _ (set_stat n (Reset param_ (stat n))));
      [|by eapply vec_at_insert_eq|done|lia].
    cbn [obind]. rewrite list_insert_insert_eq.
    erewrite with_stat_eq by (by eapply vec_at_insert_eq).
    by rewrite list_insert_insert_eq.
  - destruct fuel as [|fuel]; [simpl in Hfuel; lia|].
    pose proof (shape_ok_nonneg _ _ Hok) as Hnn.
    destruct Hok as (Hn & Hleaf & H0 & H1 & Hil & Hir & Hlr & Hl & Hr).
    cbn [shape_indices] in Hnn. cbn [shape_height] in Hfuel.
    apply Forall_cons in Hnn as [Hi Hnn]. apply Forall_app in Hnn as [Hnl Hnr].
    cbn [shape_root FixRecursively_ fixed_nodes].
    rewrite (with_stat_eq _ _ n) by done.
    unfold cache_read at 1. rewrite (vec_at_insert_eq _ _ n) by done.
    cbn [is_leaf set_stat]. rewrite Hleaf. cbn [negb].
    set (R := set_stat n (Reset param_ (stat n))).
    assert (shape_ok points_ (fixed_nodes param_ points_ l nodes) r) as Hr'.
    { apply (shape_ok_ext nodes); [|done].
      intros j Hj. apply fixed_nodes_outside; [|done].
      intros Hjl. by apply (Hlr j). }
    assert (shape_root l ≠ i) as Hli.
    { intros <-. apply Hil, shape_root_indices. }
    assert (shape_root r ≠ i) as Hri.
    { intros <-. apply Hir, shape_root_indices. }
    assert (vec_at (fixed_nodes param_ points_ l nodes) i = Some n) as Hi1.
    { by rewrite fixed_nodes_outside by done. }
    assert (vec_at (fixed_nodes param_ points_ r
                      (fixed_nodes param_ points_ l nodes)) i = Some n) as Hi2.
    { by rewrite !fixed_nodes_outside by done. }
    (* the first child *)
    unfold cache_read. rewrite !(vec_at_insert_eq nodes i n R Hn).
    cbv beta iota. cbn [child R set_stat]. rewrite H0.
    rewrite (IHl fuel) by (by apply shape_ok_insert || lia).
    rewrite fixed_nodes_insert by done. cbv beta iota.
    rewrite vec_at_insert_ne by done.
    rewrite fixed_nodes_root by done. cbn [obind].
    rewrite (with_stat_eq _ _ R) by (by eapply vec_at_insert_eq).
    rewrite list_insert_insert_eq. cbn [stat bound count set_stat R].
    (* the second child *)
    rewrite (vec_at_insert_eq _ i n _ Hi1).
    cbv beta iota. unfold R. cbn [child set_stat]. rewrite H1.
    rewrite (IHr fuel) by (by apply shape_ok_insert || lia).
    rewrite fixed_nodes_insert by done. cbv beta iota.
    rewrite vec_at_insert_ne by done.
    rewrite fixed_nodes_root by done. cbn [obind].
    erewrite with_stat_eq by (by eapply vec_at_insert_eq).
    rewrite list_insert_insert_eq.
    (* the two rounds of postprocessing *)
    erewrite with_stat_eq by (by eapply vec_at_insert_eq).
    cbn [obind]. rewrite list_insert_insert_eq.
    erewrite with_stat_eq by (by eapply vec_at_insert_eq).
    by rewrite list_insert_insert_eq.
Qed.

(** X2.  On an array that holds a tree, [FixRecursively_] at the root
    returns, and returns the array in which every node of the tree has its
    bottom-up statistic: a leaf its reset statistic with its own points
    accumulated in order and postprocessed; a node above the leaves its
    reset statistic with the finished statistic of the first and then of
    the second child accumulated.  Nothing outside the tree changes. *)
Theorem FixRecursively_fixes_tree s fuel (nodes : Nodes) :
  shape_ok points_ nodes s → (shape_height s ≤ fuel)%nat →
  Fix_ fuel (shape_root s) nodes
  = Some (Returned (fixed_nodes param_ points_ s nodes)).
Proof. apply FixRecursively_fixed. Qed.

Lemma fixed_nodes_inside (Q : Z → Node Bound Stat → Prop) :
  (∀ i n, is_leaf n = true →
     Q i (set_stat n (fixed_stat param_ points_ (SLeaf i n)))) →
  (∀ i n l r, is_leaf n = false →
     Q i (set_stat n (fixed_stat param_ points_ (SNode i n l r)))) →
  ∀ s (nodes : Nodes) j,
    shape_ok points_ nodes s → j ∈ shape_indices s →
    ∃ n', vec_at (fixed_nodes param_ points_ s nodes) j = Some n' ∧ Q j n'.
Proof.
  intros Qleaf Qnode.
  induction s as [i n|i n l IHl r IHr]; intros nodes j Hok Hj.
  - apply list_elem_of_singleton in Hj as ->.
    eexists. split; [exact (fixed_nodes_root _ _ Hok)|].
    apply Qleaf. apply Hok.
  - pose proof (shape_ok_nonneg _ _ Hok) as Hnn.
    cbn [shape_indices] in Hj, Hnn.
    apply Forall_cons in Hnn as [Hi Hnn]. apply Forall_app in Hnn as [Hnl Hnr].
    apply elem_of_cons in Hj as [->|Hj].
    { eexists. split; [exact (fixed_nodes_root _ (SNode i n l r) Hok)|].
      apply Qnode. apply Hok. }
    destruct Hok as (Hn & Hleaf & H0 & H1 & Hil & Hir & Hlr & Hl & Hr).
    assert (i ≠ j) as Hij.
    { intros ->. apply elem_of_app in Hj as [?|?]; [by apply Hil|by apply Hir]. }
    cbn [fixed_nodes]. rewrite vec_at_insert_ne by done.
    apply elem_of_app in Hj as [Hj|Hj].
    + rewrite fixed_nodes_outside by (done || by apply Hlr). by apply IHl.
    + apply IHr; [|done]. apply (shape_ok_ext nodes); [|done].
      intros k Hk. apply fixed_nodes_outside; [|done].
      intros Hkl. by apply (Hlr k).
Qed.

End StatFixer.

Lemma postprocess_count_accumulated {Point} (ps : list Point) :
  ∀ log : list (stat_op Point),
    postprocess_count log = 0%nat →
    postprocess_count
      (foldl (λ st p, AccumulatePoint () p st) log ps) = 0%nat.
Proof. induction ps as [|p ps IH]; intros log Hlog; [done|]. by apply IH. Qed.

(** X3.  With the statistic that logs what is applied to it, [InitFix] on
    an array that holds a tree rooted at index 0 returns, and in the array
    it returns every leaf of the tree has been postprocessed once since its
    reset and every other node of the tree twice. *)
Theorem InitFix_postprocess_counts {Point} (points_ : list Point)
    (s : shape) (fuel : nat) (nodes : list (Node unit (list (stat_op Point)))) :
  shape_root s = 0 → shape_ok points_ nodes s → (shape_height s ≤ fuel)%nat →
  ∃ nodes',
    InitFix () points_ fuel nodes = Some (Returned nodes') ∧
    ∀ j, j ∈ shape_indices s →
      ∃ n', vec_at nodes' j = Some n' ∧
            postprocess_count (stat n')
            = if is_leaf n' then 1%nat else 2%nat.
Proof.
  intros Hroot Hok Hfuel.
  pose proof (FixRecursively_fixed () points_ s fuel nodes Hok Hfuel)
    as Hfix.
  rewrite Hroot in Hfix. eexists. split.
  - exact Hfix.
  - intros j Hj.
    apply (fixed_nodes_inside () points_
             (λ _ n', postprocess_count (stat n')
                      = if is_leaf n' then 1%nat else 2%nat)); [| |done..].
    + intros i n Hleaf. cbn [stat is_leaf set_stat]. rewrite Hleaf.
      cbn [fixed_stat Postprocess stat_log postprocess_count]. f_equal.
      by apply postprocess_count_accumulated.
    + intros i n l r Hleaf. cbn [stat is_leaf set_stat]. by rewrite Hleaf.
Qed.

Section StatFixer_scenario.

Lemma three_shape_ok : shape_ok [10%nat; 20%nat] three_nodes three_shape.
Proof.
  simpl. repeat split; try done; try lia.
  - by intros ?%list_elem_of_singleton.
  - by intros ?%list_elem_of_singleton.
  - intros j ->%list_elem_of_singleton. by intros ?%list_elem_of_singleton.
Defined.

Lemma FixRecursively_keeps_structure_witness :
  ∃ nodes',
    FixRecursively_ () [10%nat; 20%nat] 2 0 three_nodes
      = Some (Returned nodes') ∧
    structure <$> nodes' = structure <$> three_nodes ∧
    length nodes' = length three_nodes.
Proof.
  eexists. split; [vm_compute; reflexivity|].
  apply (FixRecursively_keeps_structure () [10%nat; 20%nat] 2 0 three_nodes).
  vm_compute. reflexivity.
Defined.

Lemma FixRecursively_fixes_tree_witness :
  FixRecursively_ () [10%nat; 20%nat] 2 0 three_nodes
  = Some (Returned (fixed_nodes () [10%nat; 20%nat] three_shape three_nodes)).
Proof.
  apply (FixRecursively_fixes_tree () [10%nat; 20%nat] three_shape 2
           three_nodes three_shape_ok).
  simpl. lia.
Defined.

Lemma InitFix_postprocess_counts_witness :
  ∃ nodes',
    InitFix () [10%nat; 20%nat] 2 three_nodes = Some (Returned nodes') ∧
    ∀ j, j ∈ shape_indices three_shape →
      ∃ n', vec_at nodes' j = Some n' ∧
            postprocess_count (stat n')
            = if is_leaf n' then 1%nat else 2%nat.
Proof.
  apply (InitFix_postprocess_counts [10%nat; 20%nat] three_shape 2
           three_nodes eq_refl three_shape_ok).
  simpl. lia.
Defined.

End StatFixer_scenario.

(** ** The worker threads *)

Section Threads.
Context {Queue : Type} (GetWork : Queue → list Z * Queue).
Implicit Types (s : solver Queue) (l : list worker).

Lemma queue_after_S (q : Queue) m :
  queue_after GetWork q (S m) = (GetWork (queue_after GetWork q m)).2.
Proof. revert q. induction m as [|m IH]; intros q; [done|]. apply IH. Qed.

Lemma handed_unfold (q : Queue) m :
  handed GetWork q (S m)
  = (GetWork q).1 :: handed GetWork (GetWork q).2 m.
Proof. simpl. by destruct (GetWork q). Qed.

Lemma handed_S (q : Queue) m :
  handed GetWork q (S m)
  = handed GetWork q m ++ [(GetWork (queue_after GetWork q m)).1].
Proof.
  revert q. induction m as [|m IH]; intros q.
  - by rewrite handed_unfold.
  - rewrite handed_unfold, IH, (handed_unfold q m). done.
Qed.

Lemma concat_insert {A} (f : worker → list A) l t a b :
  l !! t = Some a →
  ∃ R, concat (f <$> l) ≡ₚ f a ++ R ∧
       concat (f <$> <[t := b]> l) ≡ₚ f b ++ R.
Proof.
  revert t. induction l as [|c l IH]; intros [|t] Ht; simplify_eq/=.
  - by exists (concat (f <$> l)).
  - destruct (IH t Ht) as (R & H1 & H2). exists (f c ++ R).
    rewrite H1, H2. split; apply Permutation_app_swap_app.
Qed.

Lemma sum_list_insert (g : worker → nat) l t a b :
  l !! t = Some a →
  (sum_list (g <$> <[t := b]> l) + g a = sum_list (g <$> l) + g b)%nat.
Proof.
  revert t. induction l as [|c l IH]; intros [|t] Ht; simplify_eq/=; [lia|].
  specialize (IH t Ht). lia.
Qed.

Lemma fmap_insert_same {A} (f : worker → A) l t a b :
  l !! t = Some a → f b = f a → f <$> <[t := b]> l = f <$> l.
Proof.
  intros Ht Hf. rewrite list_fmap_insert. apply list_insert_id.
  by rewrite list_lookup_fmap, Ht, Hf.
Qed.

(** One step of one thread keeps the account of the grains. *)
Lemma WorkerTask_step_inv (q0 : Queue) m n s t s' :
  solver_inv GetWork q0 m n s →
  WorkerTask_step GetWork s t = Some s' →
  length (workers s') = length (workers s) ∧
  ∃ m', solver_inv GetWork q0 m' (S n) s' ∧
        ∀ N, (∀ k, (N ≤ k)%nat →
                   (GetWork (queue_after GetWork q0 k)).1 = []) →
             (m ≤ N + sum_list (stopped <$> workers s))%nat →
             (m' ≤ N + sum_list (stopped <$> workers s'))%nat.
Proof.
  intros [Hq Hok Hg Hr Hn]. unfold WorkerTask_step.
  destruct (workers s !! t) as [w|] eqn:Ht; [|done].
  pose proof (Forall_lookup_1 _ _ _ _ Hok Ht) as Hw.
  destruct w as [|work i|work i|work i|]; [| | | |done].
  - (* GetWork *)
    destruct (GetWork (work_queue_ s)) as [work q] eqn:HG.
    intros [= <-]. cbn [workers]. split; [by rewrite length_insert|].
    set (b := if decide (length work = 0%nat) then Stopped
              else AtSubmodule work 0).
    assert (Hb : to_register b = work ∧ to_accumulate b = work ∧
                 steps_on_grain b = 0%nat ∧ worker_ok b ∧
                 (work = [] → stopped b = 1%nat)).
    { unfold b. destruct (decide (length work = 0%nat)) as [Hl|Hl].
      - apply nil_length_inv in Hl as ->. done.
      - simpl. rewrite drop_0. repeat split; [lia|].
        intros ->. done. }
    destruct Hb as (Hb1 & Hb2 & Hb3 & Hb4 & Hb5).
    exists (S m). split.
    + split; cbn [work_queue_ grains_ global_result_ workers].
      * by rewrite queue_after_S, <- Hq, HG.
      * by apply Forall_insert.
      * destruct (concat_insert to_register (workers s) t _ b Ht)
          as (R & H1 & H2).
        rewrite handed_S, <- Hq, HG, concat_app, Hg, H1, H2, Hb1. simpl.
        rewrite app_nil_r. by rewrite (Permutation_app_comm work R),
          !app_assoc.
      * destruct (concat_insert to_accumulate (workers s) t _ b Ht)
          as (R & H1 & H2).
        rewrite handed_S, <- Hq, HG, concat_app, Hr, H1, H2, Hb2. simpl.
        rewrite app_nil_r. by rewrite (Permutation_app_comm work R),
          !app_assoc.
      * pose proof (sum_list_insert steps_on_grain _ t _ b Ht) as Hs.
        simpl in Hs. lia.
    + intros N HN Hm.
      pose proof (sum_list_insert stopped _ t _ b Ht) as Hs. simpl in Hs.
      destruct (decide (N ≤ m)%nat) as [Hle|Hgt]; [|lia].
      specialize (HN m Hle). rewrite <- Hq, HG in HN. simpl in HN.
      rewrite (Hb5 HN) in Hs. lia.
  - (* fx_submodule *)
    simpl in Hw. destruct (work !! i) as [x|] eqn:Hx; [|done].
    intros [= <-]. cbn [workers]. split; [by rewrite length_insert|].
    exists m. split.
    + split; cbn [work_queue_ grains_ global_result_ workers].
      * done.
      * by apply Forall_insert.
      * destruct (concat_insert to_register (workers s) t _
                    (AtInitSolve work i) Ht) as (R & H1 & H2).
        rewrite Hg, H1, H2. simpl. rewrite (drop_S _ _ _ Hx).
        rewrite <- !app_assoc. done.
      * by rewrite (fmap_insert_same to_accumulate _ _ _ _ Ht).
      * pose proof (sum_list_insert steps_on_grain _ t _
                      (AtInitSolve work i) Ht) as Hs.
        simpl in Hs. lia.
    + intros N _ Hm.
      by rewrite (fmap_insert_same stopped _ _ _ _ Ht).
  - (* solver.InitSolve *)
    intros [= <-]. cbn [workers]. split; [by rewrite length_insert|].
    exists m. split.
    + split; cbn [work_queue_ grains_ global_result_ workers].
      * done.
      * by apply Forall_insert.
      * by rewrite (fmap_insert_same to_register _ _ _ _ Ht).
      * by rewrite (fmap_insert_same to_accumulate _ _ _ _ Ht).
      * pose proof (sum_list_insert steps_on_grain _ t _
                      (AtAccumulate work i) Ht) as Hs.
        simpl in Hs. lia.
    + intros N _ Hm.
      by rewrite (fmap_insert_same stopped _ _ _ _ Ht).
  - (* Accumulate *)
    simpl in Hw. destruct (work !! i) as [x|] eqn:Hx; [|done].
    intros [= <-]. cbn [workers]. split; [by rewrite length_insert|].
    set (b := if (S i <? length work)%nat then AtSubmodule work (S i)
              else AtGetWork).
    assert (Hb : to_register b = drop (S i) work ∧
                 to_accumulate b = drop (S i) work ∧
                 steps_on_grain b = 0%nat ∧ worker_ok b ∧
                 stopped b = 0%nat).
    { unfold b. destruct (Nat.ltb_spec (S i) (length work)); [done|].
      simpl. by rewrite drop_ge. }
    destruct Hb as (Hb1 & Hb2 & Hb3 & Hb4 & Hb5).
    exists m. split.
    + split; cbn [work_queue_ grains_ global_result_ workers].
      * done.
      * by apply Forall_insert.
      * rewrite (fmap_insert_same to_register _ _ _ _ Ht); done.
      * destruct (concat_insert to_accumulate (workers s) t _ b Ht)
          as (R & H1 & H2).
        rewrite Hr, H1, H2, Hb2. simpl. rewrite (drop_S _ _ _ Hx).
        rewrite <- !app_assoc. done.
      * pose proof (sum_list_insert steps_on_grain _ t _ b Ht) as Hs.
        simpl in Hs. rewrite length_app. simpl. lia.
    + intros N _ Hm.
      pose proof (sum_list_insert stopped _ t _ b Ht) as Hs.
      simpl in Hs. lia.
Qed.

Lemma run_inv (q0 : Queue) schedule : ∀ m n s s',
  solver_inv GetWork q0 m n s →
  run GetWork schedule s = Some s' →
  length (workers s') = length (workers s) ∧
  ∃ m', solver_inv GetWork q0 m' (n + length schedule) s' ∧
        ∀ N, (∀ k, (N ≤ k)%nat →
                   (GetWork (queue_after GetWork q0 k)).1 = []) →
             (m ≤ N + sum_list (stopped <$> workers s))%nat →
             (m' ≤ N + sum_list (stopped <$> workers s'))%nat.
Proof.
  induction schedule as [|t schedule IH]; intros m n s s' Hinv; simpl.
  - intros [= <-]. split; [done|]. exists m. by rewrite Nat.add_0_r.
  - destruct (WorkerTask_step GetWork s t) as [s1|] eqn:Hstep; [|done].
    destruct (WorkerTask_step_inv q0 m n s t s1 Hinv Hstep)
      as (Hlen1 & m1 & Hinv1 & Hst1).
    intros Hrun. destruct (IH m1 (S n) s1 s' Hinv1 Hrun)
      as (Hlen' & m' & Hinv' & Hst').
    split; [congruence|]. exists m'.
    replace (n + S (length schedule))%nat with (S n + length schedule)%nat
      by lia.
    split; [done|]. intros N HN Hm. apply Hst'; [done|]. by apply Hst1.
Qed.

Lemma concat_nothing {A} (f : worker → list A) (g : worker → nat) k w :
  f w = [] → g w = 0%nat →
  concat (f <$> replicate k w) = [] ∧ sum_list (g <$> replicate k w) = 0%nat.
Proof.
  intros Hf Hg. induction k as [|k [IH1 IH2]]; [done|].
  cbn [replicate fmap list_fmap concat sum_list] in *.
  by rewrite Hf, Hg, IH1, IH2.
Qed.

Lemma InitSolve_start_inv n_threads (q0 : Queue) :
  solver_inv GetWork q0 0 0 (InitSolve_start n_threads q0).
Proof.
  split; simpl.
  - done.
  - by apply Forall_replicate.
  - by rewrite (proj1 (concat_nothing to_register stopped _ AtGetWork
                         eq_refl eq_refl)).
  - by rewrite (proj1 (concat_nothing to_accumulate stopped _ AtGetWork
                         eq_refl eq_refl)).
  - by rewrite (proj2 (concat_nothing to_register steps_on_grain _ AtGetWork
                         eq_refl eq_refl)).
Qed.

Lemma joined_nothing {A} (f : worker → list A) l :
  Forall (λ w, w = Stopped) l → f Stopped = [] → concat (f <$> l) = [].
Proof.
  intros Hl Hf. induction Hl as [|w l -> _ IH]; [done|].
  cbn [fmap list_fmap concat] in *. by rewrite Hf, IH.
Qed.

(** X15.  Whatever the order in which the worker threads take their steps,
    at every moment the grains the queue has handed out are those that
    were given a submodule together with those a worker still has to give
    one, and they are those whose result was accumulated together with
    those a worker still has to accumulate.  Once every worker has stopped,
    each grain handed out was given one submodule and was accumulated
    once. *)
Theorem workers_lose_no_grain (n_threads : Z) (q0 : Queue)
    (schedule : list nat) (s : solver Queue) :
  run GetWork schedule (InitSolve_start n_threads q0) = Some s →
  ∃ m,
    work_queue_ s = queue_after GetWork q0 m ∧
    concat (handed GetWork q0 m)
      ≡ₚ grains_ s ++ concat (to_register <$> workers s) ∧
    concat (handed GetWork q0 m)
      ≡ₚ global_result_ s ++ concat (to_accumulate <$> workers s) ∧
    (joined s →
     grains_ s ≡ₚ concat (handed GetWork q0 m) ∧
     global_result_ s ≡ₚ concat (handed GetWork q0 m)).
Proof.
  intros Hrun.
  destruct (run_inv q0 schedule 0 0 _ s (InitSolve_start_inv n_threads q0)
              Hrun) as (_ & m & [Hq Hok Hg Hr Hn] & _).
  exists m. split; [done|]. split; [done|]. split; [done|].
  intros Hj. unfold joined in Hj.
  rewrite (joined_nothing to_register _ Hj eq_refl), app_nil_r in Hg.
  rewrite (joined_nothing to_accumulate _ Hj eq_refl), app_nil_r in Hr.
  done.
Qed.

Lemma steps_on_grain_bound l :
  Forall worker_ok l →
  (sum_list (steps_on_grain <$> l)
   ≤ 3 * length (concat (to_accumulate <$> l)))%nat.
Proof.
  induction 1 as [|w l Hw _ IH]; [simpl; lia|].
  cbn [fmap list_fmap concat sum_list]. unfold id in *. rewrite length_app.
  assert (steps_on_grain w ≤ 3 * length (to_accumulate w))%nat; [|lia].
  destruct w as [|work i|work i|work i|]; simpl in *;
    rewrite ?length_drop; lia.
Qed.

Lemma stopped_bound l : (sum_list (stopped <$> l) ≤ length l)%nat.
Proof.
  induction l as [|w l IH]; [simpl; lia|].
  cbn [fmap list_fmap sum_list length]. unfold id in *.
  destruct w; simpl; lia.
Qed.

Lemma handed_exhausted (q0 : Queue) N :
  (∀ k, (N ≤ k)%nat → (GetWork (queue_after GetWork q0 k)).1 = []) →
  ∀ m, (length (concat (handed GetWork q0 m))
        ≤ length (concat (handed GetWork q0 N)))%nat.
Proof.
  intros HN.
  assert (Hmono : ∀ a b, (length (concat (handed GetWork q0 a))
                          ≤ length (concat (handed GetWork q0 (a + b))))%nat).
  { intros a b. induction b as [|b IH].
    - by rewrite Nat.add_0_r.
    - replace (a + S b)%nat with (S (a + b)) by lia.
      rewrite handed_S, concat_app, length_app. lia. }
  assert (Hflat : ∀ b, length (concat (handed GetWork q0 (N + b)))
                       = length (concat (handed GetWork q0 N))).
  { intros b. induction b as [|b IH].
    - by rewrite Nat.add_0_r.
    - replace (N + S b)%nat with (S (N + b)) by lia.
      rewrite handed_S, concat_app, length_app, HN by lia. simpl. lia. }
  intros m. destruct (decide (m ≤ N)%nat) as [Hle|Hgt].
  - replace N with (m + (N - m))%nat by lia. apply Hmono.
  - replace m with (N + (m - N))%nat by lia. by rewrite Hflat.
Qed.

(** X16.  The workers neither get stuck nor run on: as long as one of
    them has not stopped, one of them can take a step; and if the queue
    hands out nothing from its [N]-th call on, no run is longer than [N]
    steps and one per thread, for the calls of [GetWork], and three for
    each grain the queue holds. *)
Theorem workers_stop (n_threads : Z) (q0 : Queue)
    (schedule : list nat) (s : solver Queue) :
  run GetWork schedule (InitSolve_start n_threads q0) = Some s →
  (¬ joined s → ∃ t s', WorkerTask_step GetWork s t = Some s') ∧
  ∀ N, (∀ k, (N ≤ k)%nat → (GetWork (queue_after GetWork q0 k)).1 = []) →
       (length schedule
        ≤ N + Z.to_nat n_threads
          + 3 * length (concat (handed GetWork q0 N)))%nat.
Proof.
  intros Hrun.
  destruct (run_inv q0 schedule 0 0 _ s (InitSolve_start_inv n_threads q0)
              Hrun) as (Hlen & m & [Hq Hok Hg Hr Hn] & Hst).
  split.
  - intros Hj. unfold joined in Hj.
    apply not_Forall_Exists in Hj;
      [|intros w; destruct w; first [by left|by right]].
    apply Exists_exists in Hj as (w & Hin & Hw).
    apply list_elem_of_lookup in Hin as [t Ht]. exists t.
    pose proof (Forall_lookup_1 _ _ _ _ Hok Ht) as Hwok.
    unfold WorkerTask_step. rewrite Ht.
    destruct w as [|work i|work i|work i|]; simpl in Hwok;
      [| | | |by exfalso; apply Hw].
    + destruct (GetWork (work_queue_ s)); eauto.
    + destruct (lookup_lt_is_Some_2 work i Hwok) as [x ->]. eauto.
    + eauto.
    + destruct (lookup_lt_is_Some_2 work i Hwok) as [x ->]. eauto.
  - intros N HN. specialize (Hst N HN). simpl in Hst, Hlen, Hn.
    rewrite length_replicate in Hlen.
    pose proof (stopped_bound (workers s)) as Hsb.
    pose proof (steps_on_grain_bound _ Hok) as Hgb.
    pose proof (handed_exhausted q0 N HN m) as Hh.
    apply Permutation_length in Hr. rewrite length_app in Hr.
    assert (m ≤ N + sum_list (stopped <$> workers s))%nat by (apply Hst; lia).
    lia.
Qed.

End Threads.

Lemma list_queue_exhausted (q : list (list Z)) : ∀ k,
  (length q ≤ k)%nat →
  (list_GetWork (queue_after list_GetWork q k)).1 = [].
Proof.
  induction q as [|work q IH]; intros k Hk.
  - clear Hk. induction k as [|k IHk]; [done|]. exact IHk.
  - destruct k as [|k]; [simpl in Hk; lia|].
    apply IH. simpl in Hk. lia.
Qed.

Lemma two_workers_run :
  run list_GetWork two_workers_schedule (InitSolve_start 2 two_batches)
  = Some (mkSolver [] [1; 3; 2] [1; 3; 2] [Stopped; Stopped]).
Proof. vm_compute. reflexivity. Qed.

Lemma workers_lose_no_grain_witness :
  ∃ m,
    joined (mkSolver (Queue := list (list Z)) [] [1; 3; 2] [1; 3; 2]
              [Stopped; Stopped]) ∧
    [1; 3; 2] ≡ₚ concat (handed list_GetWork two_batches m).
Proof.
  destruct (workers_lose_no_grain list_GetWork 2 two_batches
              two_workers_schedule _ two_workers_run)
    as (m & _ & _ & _ & Hj).
  exists m.
  assert (Hjoined : joined
            (mkSolver (Queue := list (list Z)) [] [1; 3; 2] [1; 3; 2]
               [Stopped; Stopped])).
  { repeat constructor. }
  split; [exact Hjoined|]. exact (proj2 (Hj Hjoined)).
Defined.

Lemma workers_stop_witness :
  (length two_workers_schedule
   ≤ 2 + Z.to_nat 2
     + 3 * length (concat (handed list_GetWork two_batches 2)))%nat.
Proof.
  destruct (workers_stop list_GetWork 2 two_batches two_workers_schedule _
              two_workers_run) as [_ Hbound].
  apply (Hbound 2%nat). intros k Hk. apply list_queue_exhausted.
  simpl. lia.
Defined.

End NbrUtilsMore.

(** * More about rectangle_tree_impl.hpp *)

Module RTreeMore.
Import RTree RTreeFacts.

(** ** The loops over the children *)

Section Loops.
Context {T A : Type}.
Implicit Types (f : T → outcome Z) (cs : list (option T)).

Lemma for_children_0 f (step : A → Z → A) cs acc :
  for_children f step cs 0 acc = Returned acc.
Proof. by destruct cs. Qed.

(** A child that answers as the one it replaces changes nothing. *)
Lemma for_children_replace f (step : A → Z → A) c c' cs : ∀ i k acc,
  cs !! i = Some (Some c) → f c' = f c →
  for_children f step (<[i := Some c']> cs) k acc
  = for_children f step cs k acc.
Proof.
  induction cs as [|o cs IH]; intros i k acc Hc Hf; [done|].
  destruct i as [|i]; simpl in *.
  - injection Hc as ->. destruct k; simpl; [done|]. by rewrite Hf.
  - destruct k; simpl; [done|]. destruct o as [c0|]; [|done].
    destruct (f c0); simpl; [|done]. by apply IH.
Qed.

Lemma for_children_replace_eq f (step : A → Z → A) c c' cs i k acc :
  (i < length cs)%nat → f c' = f c →
  for_children f step (<[i := Some c']> cs) k acc
  = for_children f step (<[i := Some c]> cs) k acc.
Proof.
  intros Hi Hf. rewrite <- (list_insert_insert_eq cs i (Some c') (Some c)).
  apply (for_children_replace _ _ c); [|done]. by apply list_lookup_insert_eq.
Qed.


(** A loop that returns has had an answer from each child it came to. *)
Lemma for_children_child_returns f (step : A → Z → A) cs : ∀ i k acc r c,
  for_children f step cs k acc = Returned r →
  cs !! i = Some (Some c) → (i < k)%nat → ∃ x, f c = Returned x.
Proof.
  induction cs as [|o cs IH]; intros i k acc r c Hr Hc Hik; [done|].
  destruct k as [|k]; [lia|]. destruct i as [|i]; simpl in *.
  - injection Hc as ->. destruct (f c); [eauto|done].
  - destruct o as [c0|]; [|done]. destruct (f c0); simpl in Hr; [|done].
    eapply IH; [done..|lia].
Qed.

End Loops.

Lemma wrap_add_l a b : wrap (wrap a + b) = wrap (a + b).
Proof. unfold wrap. by rewrite Z.add_mod_idemp_l. Qed.

Lemma wrap_add_r a b : wrap (a + wrap b) = wrap (a + b).
Proof. unfold wrap. by rewrite Z.add_mod_idemp_r. Qed.

Section Sums.
Context {T : Type}.
Implicit Types (f : T → outcome Z) (cs : list (option T)).

Lemma for_children_sum_shift f cs : ∀ k n r δ,
  for_children f (λ n x, wrap (n + x)) cs k n = Returned r →
  for_children f (λ n x, wrap (n + x)) cs k (wrap (n + δ))
  = Returned (wrap (r + δ)).
Proof.
  induction cs as [|o cs IH]; intros k n r δ.
  - destruct k; simpl; [|done]. by intros [= ->].
  - destruct k; simpl; [by intros [= ->]|]. destruct o as [c|]; [|done].
    destruct (f c) as [x|]; simpl; [|done]. intros Hr.
    rewrite <- (IH _ _ _ δ Hr). f_equal.
    rewrite !wrap_add_l. f_equal. lia.
Qed.

(** A child that answers one more than the one it replaces raises the sum
    by one. *)
Lemma for_children_sum_replace f c c' x cs : ∀ i k n r,
  cs !! i = Some (Some c) → (i < k)%nat →
  f c = Returned x → f c' = Returned (wrap (x + 1)) →
  for_children f (λ n x, wrap (n + x)) cs k n = Returned r →
  for_children f (λ n x, wrap (n + x)) (<[i := Some c']> cs) k n
  = Returned (wrap (r + 1)).
Proof.
  induction cs as [|o cs IH]; intros i k n r Hc Hik Hx Hx'; [done|].
  destruct k as [|k]; [lia|]. destruct i as [|i]; simpl in *.
  - injection Hc as ->. rewrite Hx, Hx'. simpl. intros Hr.
    rewrite <- (for_children_sum_shift _ _ _ _ _ 1 Hr). f_equal.
    rewrite wrap_add_r, wrap_add_l. f_equal. lia.
  - destruct o as [c0|]; [|done]. destruct (f c0); simpl; [|done].
    apply IH; [done|lia|done..].
Qed.

Lemma for_children_sum_range f cs : ∀ k n r,
  0 ≤ n < size_t_modulus →
  for_children f (λ n x, wrap (n + x)) cs k n = Returned r →
  0 ≤ r < size_t_modulus.
Proof.
  induction cs as [|o cs IH]; intros k n r Hn.
  - destruct k; simpl; [|done]. by intros [= <-].
  - destruct k; simpl; [by intros [= <-]|]. destruct o as [c|]; [|done].
    destruct (f c) as [x|]; simpl; [|done]. apply IH.
    apply Z.mod_pos_bound. done.
Qed.

End Sums.

Lemma vec_at_Some_lookup {A} (v : list A) i x :
  vec_at v i = Some x → 0 ≤ i ∧ v !! Z.to_nat i = Some x.
Proof.
  intros Hv. assert (0 ≤ i) as Hi.
  { destruct (Z.lt_ge_cases i 0) as [Hi|Hi]; [exfalso|done].
    revert i Hi Hv. induction v as [|y v IH]; intros i Hi; simpl; [done|].
    destruct (Z.eqb_spec i 0); [lia|]. apply IH. lia. }
  split; [done|]. by rewrite <- vec_at_lookup.
Qed.

Section Counting.
Context {point boundT : Type} `{BoundOps point boundT}.
Abbreviation Tree := (RectangleTree point boundT).

Lemma TreeSize_unfold (t : Tree) :
  TreeSize t =
  (n ←! for_children TreeSize
          (λ n x, static_cast_int (wrap (wrap n + x)))
          (children t) (Z.to_nat (numChildren t)) 0;
   Returned (wrap (static_cast_int (n + 1)))).
Proof. by destruct t. Qed.

Lemma TreeDepth_unfold (t : Tree) :
  TreeDepth t =
  (maxSubDepth ←! for_children TreeDepth
          (λ maxSubDepth x,
             let d := static_cast_int x in
             if d >? maxSubDepth then d else maxSubDepth)
          (children t) (Z.to_nat (numChildren t)) 0;
   Returned (wrap (static_cast_int (maxSubDepth + 1)))).
Proof. by destruct t. Qed.

Lemma NumDescendants_unfold (t : Tree) :
  NumDescendants t =
  if numChildren t =? 0 then Returned (count t)
  else for_children NumDescendants (λ n x, wrap (n + x))
         (children t) (Z.to_nat (numChildren t)) 0.
Proof. by destruct t. Qed.

End Counting.

(** ** What an insertion does to the tree *)

Section Insertion.
Context {point boundT : Type} `{BoundOps point boundT}.
Variable EvalNode : boundT → point → Qc.

Abbreviation Tree := (RectangleTree point boundT).

Lemma InsertPoint_split_last (SplitLeafNode : @loc point boundT → loc)
    (node : Tree) : ∀ up p,
  InsertPoint SplitLeafNode EvalNode up node p
  = (l0 ←! InsertPoint (λ l, l) EvalNode up node p;
     SplitNode SplitLeafNode l0).
Proof.
  induction node as [node IH] using Tree_children_ind. intros up p.
  rewrite !InsertPoint_unfold. cbv zeta.
  destruct (Z.eqb_spec (numChildren node) 0) as [Hleaf|Hint].
  - destruct (Mat_set_col _ _ _) as [m|]; simpl; [|done].
    unfold SplitNode at 2. simpl. rewrite Hleaf. simpl.
    by destruct (_ <? _).
  - destruct (best_child _ _ _) as [k|]; simpl; [|done].
    destruct (vec_at (children node) k) as [[c|]|] eqn:Hc; [|done..].
    apply IH. apply vec_at_Some_lookup in Hc as [_ Hc].
    by eapply list_elem_of_lookup_2.
Qed.

Lemma WF_child d M C (t : Tree) i c :
  WF d M C t → Child_at t i c → WF d M C c.
Proof. intros Hwf Hc n Hn. apply Hwf. eapply Node_child; eauto. Qed.

Lemma Stored_inner (t : Tree) x :
  numChildren t ≠ 0 →
  Stored x t ↔ ∃ j c, Child_at t j c ∧ Stored x c.
Proof.
  intros Hn. split.
  - intros Hx. destruct Hx as [t i Hl|t i c Hc Hx]; [done|eauto].
  - intros (j & c & Hc & Hx). eapply Stored_child; eauto.
Qed.

Lemma root_of_snoc (path : list (Tree * Z)) fr (t : Tree) :
  root_of (mkLoc (path ++ [fr]) t) = plug_frame fr (root_of (mkLoc path t)).
Proof. unfold root_of. simpl. by rewrite fold_left_app. Qed.

Lemma root_of_app (path up : list (Tree * Z)) (t : Tree) :
  root_of (mkLoc (path ++ up) t) = root_of (mkLoc up (root_of (mkLoc path t))).
Proof. unfold root_of. simpl. by rewrite fold_left_app. Qed.

(** *** Choosing the child *)

Lemma best_child_loop_least (t : Tree) (p : point) (score : Z → Qc) :
  (∀ j c, Child_at t j c → score j = EvalNode (bound c) p) →
  (∀ i, 0 ≤ i < numChildren t → ∃ c, Child_at t i c) →
  ∀ n i minScore bestIndex,
    0 ≤ bestIndex < i → i + Z.of_nat n = numChildren t →
    minScore = score bestIndex →
    (∀ j, 0 ≤ j < i →
       (minScore ≤ score j)%Qc ∧ (j < bestIndex → (minScore < score j)%Qc)) →
    ∃ b, best_child_loop EvalNode t p n i minScore bestIndex = Returned b ∧
         0 ≤ b < numChildren t ∧
         ∀ j, 0 ≤ j < numChildren t →
           (score b ≤ score j)%Qc ∧ (j < b → (score b < score j)%Qc).
Proof.
  intros Hscore Hch.
  induction n as [|n IH]; intros i ms best Hb Hn -> Hinv; simpl.
  - exists best. split; [done|]. split; [lia|]. intros j Hj. apply Hinv. lia.
  - destruct (Hch i) as [c Hc]; [lia|].
    unfold child_Bound. rewrite (Child_at_vec_at _ _ _ Hc). simpl.
    rewrite <- (Hscore _ _ Hc).
    destruct (Qcltb (score i) (score best)) eqn:Hlt.
    + apply Qcltb_lt in Hlt. apply IH; [lia|lia|done|].
      intros j Hj. destruct (decide (j = i)) as [->|Hne].
      * split; [apply Qcle_refl|lia].
      * destruct (Hinv j) as [Hle _]; [lia|]. split.
        -- apply Qclt_le_weak. by eapply Qclt_le_trans.
        -- intros _. by eapply Qclt_le_trans.
    + apply Qcltb_ge in Hlt. apply IH; [lia|lia|done|].
      intros j Hj. destruct (decide (j = i)) as [->|Hne].
      * split; [done|lia].
      * apply Hinv. lia.
Qed.

(** X8.  In a node whose children are there, the loop of [InsertPoint]
    settles on a child of least score, and on the first of them: every
    child before it scores strictly more. *)
Theorem best_child_least (t : Tree) (p : point) :
  0 < numChildren t →
  (∀ i, 0 ≤ i < numChildren t → ∃ c, Child_at t i c) →
  ∃ b cb,
    best_child EvalNode t p = Returned b ∧ Child_at t b cb ∧
    ∀ j c, Child_at t j c →
      (EvalNode (bound cb) p ≤ EvalNode (bound c) p)%Qc ∧
      (j < b → (EvalNode (bound cb) p < EvalNode (bound c) p)%Qc).
Proof.
  intros Hn Hch.
  set (score := λ j : Z,
         match children t !! Z.to_nat j with
         | Some (Some c) => EvalNode (bound c) p
         | _ => 0%Qc
         end).
  assert (Hscore : ∀ j c, Child_at t j c → score j = EvalNode (bound c) p).
  { intros j c [_ Hc]. unfold score. by rewrite Hc. }
  destruct (Hch 0) as [c0 Hc0]; [lia|].
  unfold best_child, child_Bound. rewrite (Child_at_vec_at _ _ _ Hc0). simpl.
  destruct (best_child_loop_least t p score Hscore Hch
              (Z.to_nat (numChildren t - 1)) 1 (EvalNode (bound c0) p) 0)
    as (b & -> & Hb & Hleast); [lia|lia|by rewrite (Hscore _ _ Hc0)| |].
  { intros j Hj. assert (j = 0) as -> by lia.
    rewrite (Hscore _ _ Hc0). split; [apply Qcle_refl|lia]. }
  destruct (Hch b Hb) as [cb Hcb]. exists b, cb.
  split; [done|]. split; [done|]. intros j c Hc.
  rewrite <- (Hscore _ _ Hcb), <- (Hscore _ _ Hc). apply Hleast, Hc.
Qed.

Section Shape.
Variables d M C : Z.
Hypothesis HM : 1 ≤ M < 2 ^ 31 - 1.

(** The way down, seen from the node it starts at: the leaf it ends in and
    the path to it are the node again, with one point more. *)
Lemma InsertPoint_effect (node : Tree) : ∀ up p,
  WF d M C node →
  ∃ path leaf,
    InsertPoint (λ l, l) EvalNode up node p
      = Returned (mkLoc (path ++ up) leaf) ∧
    numChildren leaf = 0 ∧ 1 ≤ count leaf ≤ M ∧ maxLeafSize leaf = M ∧
    let node' := root_of (mkLoc path leaf) in
    numChildren node' = numChildren node ∧
    (∀ x, Stored x node' ↔ x = p ∨ Stored x node) ∧
    (∀ n, NumDescendants node = Returned n →
          NumDescendants node' = Returned (wrap (n + 1))) ∧
    TreeSize node' = TreeSize node ∧
    TreeDepth node' = TreeDepth node.
Proof.
  induction node as [node IH] using Tree_children_ind.
  intros up p Hwf. rewrite InsertPoint_unfold. cbv zeta.
  destruct (Hwf node (Node_self _)) as [Hs Hleafc].
  destruct (Z.eqb_spec (numChildren node) 0) as [Hleaf|Hint].
  - specialize (Hleafc Hleaf). pose proof (shape_dataset _ _ _ _ Hs) as Hcols.
    unfold Mat_set_col. simpl.
    destruct (Z.leb_spec 0 (count node)); [|lia].
    destruct (Z.ltb_spec (count node) (n_cols (dataset node))); [|lia].
    simpl. unfold SplitNode. simpl. rewrite Hleaf. simpl.
    assert (Hw : wrap (count node + 1) = count node + 1).
    { apply wrap_small. unfold size_t_modulus. lia. }
    exists []. eexists. split; [by destruct (_ <? _)|].
    simpl. split; [done|]. split; [lia|].
    split; [apply (shape_maxLeafSize _ _ _ _ Hs)|].
    unfold root_of. simpl. split; [done|]. split; [|split; [|split]].
    + intros x. split.
      * intros Hx. apply Stored_leaf_inv in Hx; [|done].
        destruct Hx as (i & Hi & Hx). simpl in Hi, Hx. rewrite Hw in Hi.
        destruct (decide (i = count node)) as [->|Hne].
        -- rewrite list_lookup_insert_eq in Hx by (unfold n_cols in *; lia).
           left. congruence.
        -- rewrite list_lookup_insert_ne in Hx by lia.
           right. eapply Stored_leaf; [done| |exact Hx]. lia.
      * intros [->|Hx].
        -- eapply (Stored_leaf _ _ (count node)); simpl; [done|lia|].
           apply list_lookup_insert_eq. unfold n_cols in *. lia.
        -- apply Stored_leaf_inv in Hx as (i & Hi & Hx); [|done].
           eapply (Stored_leaf _ _ i); simpl; [done|lia|].
           rewrite list_lookup_insert_ne by lia. done.
    + intros n. rewrite !NumDescendants_unfold. simpl. rewrite Hleaf. simpl.
      by intros [= <-].
    + by rewrite !TreeSize_unfold.
    + by rewrite !TreeDepth_unfold.
  - destruct (best_child_ok d M C EvalNode node p Hs Hint) as (k & -> & Hk).
    simpl. destruct (shape_child _ _ _ _ Hs k Hk) as [c Hc].
    rewrite (Child_at_vec_at _ _ _ Hc).
    set (node1 := set_bound node (bound_expand (bound node) p)).
    destruct (IH c (Child_at_elem _ _ _ Hc) ((node1, k) :: up) p)
      as (path & leaf & Heq & Hl & Hcount & Hmax & Hnum & Hst & Hnd & Hts & Htd);
      [by eapply WF_child|].
    cbv zeta in Hnum, Hst, Hnd, Hts, Htd.
    exists (path ++ [(node1, k)]), leaf.
    split; [by rewrite <- app_assoc|]. do 3 (split; [done|]).
    cbv zeta. rewrite root_of_snoc.
    set (c' := root_of (mkLoc path leaf)) in *.
    pose proof (shape_children _ _ _ _ Hs) as Hlen.
    pose proof (shape_numChildren _ _ _ _ Hs) as Hrange.
    assert (Hlook : children node !! Z.to_nat k = Some (Some c)) by apply Hc.
    split; [done|]. split; [|split; [|split]].
    + intros x. rewrite !Stored_inner by done. split.
      * intros (j & c0 & Hc0 & Hx).
        apply Child_at_plug_frame in Hc0; [|lia|simpl; lia].
        destruct Hc0 as [(-> & -> & _)|[Hne Hc0]].
        -- apply Hst in Hx as [->|Hx]; [by left|right; eauto].
        -- right; eauto.
      * intros [->|(j & c0 & Hc0 & Hx)].
        -- exists k, c'. split; [|apply Hst; by left].
           apply Child_at_plug_frame; [lia|simpl; lia|]. left. done.
        -- destruct (decide (j = k)) as [->|Hne].
           ++ rewrite (Child_at_inj _ _ _ _ Hc0 Hc) in Hx.
              exists k, c'. split; [|apply Hst; by right].
              apply Child_at_plug_frame; [lia|simpl; lia|]. left. done.
           ++ exists j, c0. split; [|done].
              apply Child_at_plug_frame; [lia|simpl; lia|]. right. done.
    + intros n. rewrite !NumDescendants_unfold. simpl.
      destruct (Z.eqb_spec (numChildren node) 0); [done|]. intros Hn.
      destruct (for_children_child_returns _ _ _ (Z.to_nat k) _ _ _ c Hn)
        as [x Hx]; [done|lia|].
      apply (for_children_sum_replace _ c c' x); [done|lia|done| |done].
      by apply Hnd.
    + rewrite !TreeSize_unfold. simpl.
      by rewrite (for_children_replace _ _ c) by done.
    + rewrite !TreeDepth_unfold. simpl.
      by rewrite (for_children_replace _ _ c) by done.
Qed.

(** The way down again: every node passed is a node of the tree, it is
    left with its bound enlarged by the point, and the child gone into is
    the one the descent policy chooses; the leaf reached is a leaf of the
    tree with its bound enlarged and the point behind its points. *)
Lemma InsertPoint_descent (node : Tree) : ∀ up p,
  WF d M C node →
  ∃ path leaf n,
    InsertPoint (λ l, l) EvalNode up node p
      = Returned (mkLoc (path ++ up) leaf) ∧
    Forall (λ f, ∃ m, Node_of m node ∧ numChildren m ≠ 0 ∧
                      f.1 = set_bound m (bound_expand (bound m) p) ∧
                      best_child EvalNode m p = Returned f.2) path ∧
    Node_of n node ∧ numChildren n = 0 ∧
    bound leaf = bound_expand (bound n) p ∧
    count leaf = count n + 1 ∧
    cols (dataset leaf) = <[Z.to_nat (count n) := Some p]> (cols (dataset n)).
Proof.
  induction node as [node IH] using Tree_children_ind.
  intros up p Hwf. rewrite InsertPoint_unfold. cbv zeta.
  destruct (Hwf node (Node_self _)) as [Hs Hleafc].
  destruct (Z.eqb_spec (numChildren node) 0) as [Hleaf|Hint].
  - specialize (Hleafc Hleaf). pose proof (shape_dataset _ _ _ _ Hs) as Hcols.
    unfold Mat_set_col. simpl.
    destruct (Z.leb_spec 0 (count node)); [|lia].
    destruct (Z.ltb_spec (count node) (n_cols (dataset node))); [|lia].
    simpl. unfold SplitNode. simpl. rewrite Hleaf. simpl.
    assert (Hw : wrap (count node + 1) = count node + 1).
    { apply wrap_small. unfold size_t_modulus. lia. }
    exists []. eexists. exists node. split; [by destruct (_ <? _)|].
    simpl. split; [constructor|]. split; [constructor|]. done.
  - destruct (best_child_ok d M C EvalNode node p Hs Hint) as (k & Hbest & Hk).
    rewrite Hbest. simpl. destruct (shape_child _ _ _ _ Hs k Hk) as [c Hc].
    rewrite (Child_at_vec_at _ _ _ Hc).
    set (node1 := set_bound node (bound_expand (bound node) p)).
    destruct (IH c (Child_at_elem _ _ _ Hc) ((node1, k) :: up) p)
      as (path & leaf & n & Heq & HF & Hn & Hnl & Hb & Hcn & Hcols);
      [by eapply WF_child|].
    exists (path ++ [(node1, k)]), leaf, n.
    split; [by rewrite <- app_assoc|]. split; [|split].
    + apply Forall_app. split.
      * eapply Forall_impl; [exact HF|]. intros f (m & Hm & Hrest).
        exists m. split; [|done]. eapply Node_child; eauto.
      * constructor; [|constructor]. exists node. simpl.
        split; [constructor|]. done.
    + eapply Node_child; eauto.
    + done.
Qed.

Lemma NumDescendants_range (t : Tree) n :
  WF d M C t → NumDescendants t = Returned n → 0 ≤ n < size_t_modulus.
Proof.
  intros Hwf. destruct (Hwf t (Node_self _)) as [Hs Hleafc].
  rewrite NumDescendants_unfold.
  destruct (Z.eqb_spec (numChildren t) 0) as [Hleaf|Hint].
  - intros [= <-]. specialize (Hleafc Hleaf). unfold size_t_modulus. lia.
  - by apply for_children_sum_range.
Qed.


Variable SplitLeafNode : @loc point boundT → @loc point boundT.



End Shape.

End Insertion.

(** X5.  [InsertPoint] consults the split policy last and once: the way
    down and the leaf it ends in are those of the run with a policy that
    does nothing, and the policy is then tried, through [SplitNode], on
    that leaf. *)
Theorem InsertPoint_policy_last {point boundT : Type}
    `{BoundOps point boundT}
    (SplitLeafNode : @loc point boundT → @loc point boundT)
    (EvalNode : boundT → point → Qc)
    (up : list (RectangleTree point boundT * Z))
    (node : RectangleTree point boundT) (p : point) :
  InsertPoint SplitLeafNode EvalNode up node p
  = (l0 ←! InsertPoint (λ l, l) EvalNode up node p;
     SplitNode SplitLeafNode l0).
Proof. apply InsertPoint_split_last. Qed.

(** ** What the constructor builds *)

Section Construction.
Context {point boundT : Type} `{BoundLaws point boundT}.
Abbreviation Tree := (RectangleTree point boundT).
Abbreviation frame_ok :=
  (λ fr : Tree * Z,
     0 ≤ fr.2 < numChildren fr.1 ∧
     fr.2 < Z.of_nat (length (children fr.1))).

Lemma ctx_ok_frames d M C (P : point → Prop) (up : list (Tree * Z)) :
  ctx_ok d M C P up → Forall frame_ok up.
Proof.
  revert P. induction up as [|[parent i] up IH]; intros P; [constructor|].
  simpl. intros ([Hs _] & Hi & _ & _ & Hup). constructor; [|by eapply IH].
  simpl. split; [done|].
  rewrite (shape_children _ _ _ _ Hs).
  pose proof (shape_numChildren _ _ _ _ Hs). lia.
Qed.

Lemma root_of_cons fr (up : list (Tree * Z)) (t : Tree) :
  root_of (mkLoc (fr :: up) t) = root_of (mkLoc up (plug_frame fr t)).
Proof. done. Qed.

Lemma Stored_plug_frame (parent : Tree) i (t : Tree) x :
  frame_ok (parent, i) →
  Stored x (plug_frame (parent, i) t) ↔
  Stored x t ∨ ∃ j c, j ≠ i ∧ Child_at parent j c ∧ Stored x c.
Proof.
  simpl. intros [Hi Hlen]. rewrite Stored_inner by (simpl; lia). split.
  - intros (j & c & Hc & Hx).
    apply Child_at_plug_frame in Hc; [|lia|lia].
    destruct Hc as [(-> & -> & _)|[Hne Hc]]; [by left|right; eauto].
  - intros [Hx|(j & c & Hne & Hc & Hx)].
    + exists i, t. split; [|done].
      apply Child_at_plug_frame; [lia|lia|]. by left.
    + exists j, c. split; [|done].
      apply Child_at_plug_frame; [lia|lia|]. by right.
Qed.

Lemma Stored_root_of_congr (up : list (Tree * Z)) : ∀ t t' : Tree,
  Forall frame_ok up → (∀ x, Stored x t' ↔ Stored x t) →
  ∀ x, Stored x (root_of (mkLoc up t')) ↔ Stored x (root_of (mkLoc up t)).
Proof.
  induction up as [|[parent i] up IH]; intros t t' Hup Ht x; [apply Ht|].
  apply Forall_cons in Hup as [Hfr Hup]. rewrite !root_of_cons.
  apply IH; [done|]. intros y. rewrite !Stored_plug_frame by done.
  by rewrite Ht.
Qed.

Lemma NumDescendants_root_of_congr (up : list (Tree * Z)) : ∀ t t' : Tree,
  Forall frame_ok up → NumDescendants t' = NumDescendants t →
  NumDescendants (root_of (mkLoc up t'))
  = NumDescendants (root_of (mkLoc up t)).
Proof.
  induction up as [|[parent i] up IH]; intros t t' Hup Ht; [apply Ht|].
  apply Forall_cons in Hup as [[Hi Hlen] Hup]. rewrite !root_of_cons.
  apply IH; [done|]. rewrite !NumDescendants_unfold. simpl in *.
  destruct (_ =? _); [done|]. apply for_children_replace_eq; [lia|done].
Qed.

Section Shape.
Variables d M C : Z.
Hypothesis Hd : 0 ≤ d.
Hypothesis HM : 1 ≤ M < 2 ^ 31 - 1.
Hypothesis HC : 0 ≤ C < size_t_modulus - 1.

(** *** The halving policy keeps what is stored *)

Lemma Stored_half_leaf (t : Tree) from n x :
  node_shape d M C t → 0 ≤ from → 0 ≤ n → from + n ≤ M →
  Stored x (half_leaf t from n) ↔
  ∃ i, from ≤ i < from + n ∧ cols (dataset t) !! Z.to_nat i = Some (Some x).
Proof.
  intros Hs Hfrom Hn Hsum.
  pose proof (shape_dataset _ _ _ _ Hs) as Hcols. unfold n_cols in Hcols.
  assert (Hlook : ∀ i, 0 ≤ i < n →
            cols (dataset (half_leaf t from n)) !! Z.to_nat i
            = cols (dataset t) !! Z.to_nat (from + i)).
  { intros i Hi. simpl.
    rewrite lookup_app_l by (rewrite length_take, length_drop; lia).
    rewrite lookup_take_lt, lookup_drop by lia. f_equal. lia. }
  split.
  - intros Hx. apply Stored_leaf_inv in Hx as (i & Hi & Hx); [|done].
    simpl in Hi. rewrite Hlook in Hx by done. exists (from + i).
    split; [lia|done].
  - intros (i & Hi & Hx). eapply (Stored_leaf _ _ (i - from)); [done|simpl; lia|].
    rewrite Hlook by lia. by replace (from + (i - from)) with i by lia.
Qed.

Lemma halve_leaf_children (t : Tree) j c :
  node_shape d M C t → 1 ≤ C →
  Child_at (halve_leaf t) j c ↔
  (j = 0 ∧ c = half_leaf t 0 (count t / 2)) ∨
  (j = 1 ∧ c = half_leaf t (count t / 2) (count t - count t / 2)).
Proof.
  intros Hs HC1. pose proof (shape_children _ _ _ _ Hs) as Hlen.
  unfold Child_at. simpl. split.
  - intros [Hj Hc]. destruct (decide (j = 0)) as [->|Hne].
    + left. rewrite list_lookup_insert_eq in Hc
        by (rewrite length_insert; lia).
      split; [done|]. by injection Hc as <-.
    + right. assert (j = 1) as -> by lia. simpl in Hc.
      rewrite list_lookup_insert_ne, list_lookup_insert_eq in Hc by lia.
      split; [done|]. by injection Hc as <-.
  - intros [[-> ->]|[-> ->]]; (split; [lia|]).
    + apply list_lookup_insert_eq. rewrite length_insert. lia.
    + simpl. rewrite list_lookup_insert_ne by lia.
      apply list_lookup_insert_eq. lia.
Qed.

Lemma Stored_halve_leaf (t : Tree) x :
  node_shape d M C t → numChildren t = 0 → count t = M → 1 ≤ C →
  Stored x (halve_leaf t) ↔ Stored x t.
Proof.
  intros Hs Hleaf Hfull HC1.
  assert (Hh : 0 ≤ count t / 2 ≤ M).
  { rewrite Hfull. split; [apply Z.div_pos; lia|].
    apply Z.div_le_upper_bound; lia. }
  rewrite Stored_inner by done. split.
  - intros (j & c & Hc & Hx). apply halve_leaf_children in Hc; [|done..].
    destruct Hc as [[-> ->]|[-> ->]];
      apply Stored_half_leaf in Hx as (i & Hi & Hx); try done; try lia;
      eapply (Stored_leaf _ _ i); first [done|lia].
  - intros Hx. apply Stored_leaf_inv in Hx as (i & Hi & Hx); [|done].
    destruct (Z.lt_ge_cases i (count t / 2)).
    + exists 0, (half_leaf t 0 (count t / 2)).
      split; [apply halve_leaf_children; auto|].
      apply Stored_half_leaf; [done|lia..|]. exists i. split; [lia|done].
    + exists 1, (half_leaf t (count t / 2) (count t - count t / 2)).
      split; [apply halve_leaf_children; auto|].
      apply Stored_half_leaf; [done|lia..|]. exists i. split; [lia|done].
Qed.

Lemma NumDescendants_halve_leaf (t : Tree) :
  node_shape d M C t → numChildren t = 0 → count t = M → 1 ≤ C →
  NumDescendants (halve_leaf t) = NumDescendants t.
Proof.
  intros Hs Hleaf Hfull HC1. pose proof (shape_children _ _ _ _ Hs) as Hlen.
  rewrite (NumDescendants_unfold (halve_leaf t)), (NumDescendants_unfold t),
    Hleaf.
  cbn [numChildren halve_leaf children Z.eqb].
  destruct (children t) as [|o1 [|o2 cs]]; simpl in Hlen; [lia..|].
  cbn [for_children list_insert insert].
  change (Z.to_nat 2) with 2%nat. cbv iota beta.
  rewrite !(NumDescendants_unfold (half_leaf _ _ _)). simpl.
  rewrite for_children_0. f_equal. rewrite wrap_add_l.
  replace (0 + count t / 2 + (count t - count t / 2)) with (count t) by lia.
  apply wrap_small. unfold size_t_modulus. lia.
Qed.

Lemma HalveSplit_contract (l : @loc point boundT) :
  2 ≤ M → 1 ≤ C → SplitPre d M C l →
  Inv d M C (root_of (HalveSplit l)) ∧
  (∀ x, Stored x (root_of (HalveSplit l)) ↔ Stored x (root_of l)) ∧
  NumDescendants (root_of (HalveSplit l)) = NumDescendants (root_of l).
Proof.
  intros HM2 HC1 Hpre. split; [by apply (HalveSplit_keeps d M C HM HC)|].
  destruct Hpre. destruct l as [up t]. simpl in *.
  pose proof (ctx_ok_frames _ _ _ _ _ pre_ctx0) as Hup.
  unfold HalveSplit. simpl. split.
  - apply Stored_root_of_congr; [done|]. intros x.
    by apply Stored_halve_leaf.
  - apply NumDescendants_root_of_congr; [done|].
    by apply NumDescendants_halve_leaf.
Qed.

(** *** One insertion, and all of them *)

(** Putting a subtree whose bounds are in order back under parents that
    are: the bounds of the whole are in order, full leaf or not. *)
Lemma plug_BoundInv up : ∀ (t : Tree) (P : point → Prop),
  BoundInv t → (∀ x, Stored x t → P x) → ctx_ok d M C P up →
  BoundInv (root_of (mkLoc up t)).
Proof.
  induction up as [|[parent i] up IH]; intros t P Ht HP Hup; [done|].
  simpl in Hup. destruct Hup as (Hok & Hi & Hcov & Hsib & Hup).
  rewrite root_of_cons. destruct Hok as [Hshape Hleafc].
  assert (Hlen : Z.of_nat (length (children parent)) > i).
  { rewrite (shape_children _ _ _ _ Hshape).
    pose proof (shape_numChildren _ _ _ _ Hshape). lia. }
  assert (Hch : ∀ j c, Child_at (plug_frame (parent, i) t) j c →
            BoundInv c ∧
            (∀ x, Stored x c →
               bound_Contains (bound parent) x ∧
               (P x ∨ ∃ j c, j ≠ i ∧ Child_at parent j c ∧ Stored x c))).
  { intros j c Hc. apply Child_at_plug_frame in Hc; [|lia|lia].
    destruct Hc as [(-> & -> & _)|[Hne Hc]].
    - split; [done|]. intros x Hx. split; [apply Hcov|left]; auto.
    - destruct (Hsib j c Hne Hc) as [Hc1 Hc2]. split; [apply Hc1|].
      intros x Hx. split; [auto|]. right. eauto. }
  assert (Hst : ∀ x, Stored x (plug_frame (parent, i) t) →
            bound_Contains (bound parent) x ∧
            (P x ∨ ∃ j c, j ≠ i ∧ Child_at parent j c ∧ Stored x c)).
  { intros x Hx. inversion Hx as [t' k Hl|t' k c Hc Hxc]; subst.
    - simpl in Hl. lia.
    - destruct (Hch _ _ Hc) as [_ Hc2]. auto. }
  refine (IH _ _ _ (λ x Hx, proj2 (Hst x Hx)) Hup).
  intros n Hn x Hx. inversion Hn as [|t' k c Hc Hnc]; subst.
  - apply (Hst x Hx).
  - destruct (Hch _ _ Hc) as [Hb _]. by apply Hb.
Qed.

Section Keeping.
Variable SplitLeafNode : @loc point boundT → @loc point boundT.
Variable EvalNode : boundT → point → Qc.

Hypothesis SplitLeafNode_Inv : ∀ l,
  SplitPre d M C l → Inv d M C (root_of (SplitLeafNode l)).

Lemma InsertPoint_step_Inv (root : Tree) p :
  vec_n_elem p = d → Inv d M C root →
  ∃ l0 l,
    InsertPoint SplitLeafNode EvalNode [] root p = Returned l ∧
    Inv d M C (root_of l) ∧
    (l = l0 ∨ (l = SplitLeafNode l0 ∧ SplitPre d M C l0)) ∧
    (∀ x, Stored x (root_of l0) ↔ x = p ∨ Stored x root) ∧
    (∀ n, NumDescendants root = Returned n →
          NumDescendants (root_of l0) = Returned (wrap (n + 1))).
Proof.
  intros Hp Hinv.
  destruct (InsertPoint_arrives d M C HM (λ l, l) EvalNode root [] p Hp Hinv I)
    as (l0 & Heq0 & Harr).
  assert (SplitNode (λ l, l) l0 = Returned l0) as Hid.
  { unfold SplitNode. rewrite (arr_leaf _ _ _ _ _ _ Harr). simpl.
    by destruct (_ <? _). }
  rewrite Hid in Heq0.
  destruct (InsertPoint_effect EvalNode d M C HM root [] p (proj1 Hinv))
    as (path & leaf & Heq & _ & _ & _ & _ & Hst & Hnd & _).
  rewrite app_nil_r, Heq0 in Heq. injection Heq as ->.
  destruct (SplitNode_after_arrival d M C SplitLeafNode SplitLeafNode_Inv
              p [] _ Harr)
    as (l & Hl & HInv).
  exists (mkLoc path leaf), l.
  rewrite InsertPoint_split_last, Heq0. simpl.
  split; [done|]. split; [done|]. split; [|done].
  revert Hl. unfold SplitNode. destruct Harr. simpl in *.
  rewrite arr_leaf0. simpl. rewrite (shape_maxLeafSize _ _ _ _ arr_shape0).
  destruct (Z.ltb_spec (count leaf) M); intros [= <-]; [by left|right].
  split; [done|]. split; auto. simpl. lia.
Qed.

(** A sequence of insertions returns a tree in order; it stores the points
    inserted and what was stored before, nothing else, if the split policy
    loses and adds no point. *)
Lemma insert_all_stored (ps : list point) : ∀ root : Tree,
  Forall (λ p, vec_n_elem p = d) ps → Inv d M C root →
  ∃ t, insert_all SplitLeafNode EvalNode root (Some <$> ps) = Returned t ∧
       Inv d M C t ∧
       ((∀ l, SplitPre d M C l →
           ∀ x, Stored x (root_of (SplitLeafNode l)) ↔ Stored x (root_of l)) →
        ∀ x, Stored x t ↔ x ∈ ps ∨ Stored x root).
Proof.
  induction ps as [|p ps IH]; intros root Hps Hinv;
    cbn [fmap list_fmap insert_all].
  - exists root. split; [done|]. split; [done|].
    intros _ x. rewrite elem_of_nil. tauto.
  - apply Forall_cons in Hps as [Hp Hps].
    destruct (InsertPoint_step_Inv root p Hp Hinv)
      as (l0 & l & -> & Hl & Hcase & Hst & _).
    cbn [obind]. destruct (IH (root_of l) Hps Hl) as (t & -> & Ht & Hstt).
    exists t. split; [done|]. split; [done|].
    intros Hkeep x. rewrite (Hstt Hkeep), elem_of_cons.
    assert (Stored x (root_of l) ↔ x = p ∨ Stored x root) as ->; [|tauto].
    destruct Hcase as [->|[-> Hpre]]; [done|].
    by rewrite (Hkeep _ Hpre).
Qed.

(** One insertion: where [SplitNode] is called. *)
Lemma InsertPoint_call (root : Tree) p :
  vec_n_elem p = d → Inv d M C root →
  ∃ l0,
    InsertPoint (λ l, l) EvalNode [] root p = Returned l0 ∧
    InsertPoint SplitLeafNode EvalNode [] root p
      = SplitNode SplitLeafNode l0 ∧
    numChildren (this l0) = 0 ∧
    Stored p (this l0) ∧
    bound_Contains (bound (this l0)) p ∧
    Forall (λ f, bound_Contains (bound f.1) p) (ctx l0) ∧
    Forall (λ f, ∃ m, Node_of m root ∧ numChildren m ≠ 0 ∧
                      f.1 = set_bound m (bound_expand (bound m) p) ∧
                      best_child EvalNode m p = Returned f.2) (ctx l0) ∧
    (∃ n, Node_of n root ∧ numChildren n = 0 ∧
          bound (this l0) = bound_expand (bound n) p ∧
          count (this l0) = count n + 1 ∧
          cols (dataset (this l0))
          = <[Z.to_nat (count n) := Some p]> (cols (dataset n))) ∧
    (∀ x, Stored x (root_of l0) ↔ x = p ∨ Stored x root) ∧
    BoundInv (root_of l0).
Proof.
  intros Hp Hinv.
  destruct (InsertPoint_arrives d M C HM (λ l, l) EvalNode root [] p Hp Hinv I)
    as (l0 & Heq0 & Harr).
  assert (SplitNode (λ l, l) l0 = Returned l0) as Hid.
  { unfold SplitNode. rewrite (arr_leaf _ _ _ _ _ _ Harr). simpl.
    by destruct (_ <? _). }
  rewrite Hid in Heq0.
  destruct (InsertPoint_effect EvalNode d M C HM root [] p (proj1 Hinv))
    as (path & leaf & Heq & _ & _ & _ & _ & Hst & _).
  destruct (InsertPoint_descent EvalNode d M C HM root [] p (proj1 Hinv))
    as (path' & leaf' & n & Heq' & HF & Hn & Hnl & Hb & Hcn & Hcols).
  rewrite app_nil_r, Heq0 in Heq. rewrite app_nil_r, Heq0 in Heq'.
  injection Heq as ->. injection Heq' as <- <-. cbv zeta in Hst.
  exists (mkLoc path leaf). split; [done|].
  split; [by rewrite InsertPoint_split_last, Heq0|].
  destruct Harr. simpl in *. split; [done|]. split; [done|].
  split; [by apply arr_bound0|].
  split; [destruct arr_path0 as (path0 & -> & HFp); by rewrite app_nil_r|].
  split; [done|]. split; [by exists n|]. split; [done|].
  eapply plug_BoundInv; [|intros x Hx; exact Hx|exact arr_ctx0].
  intros m Hm. apply Node_of_leaf in Hm as ->; [|done]. done.
Qed.

End Keeping.

Section Policies.
Variable SplitLeafNode : @loc point boundT → @loc point boundT.
Variable EvalNode : boundT → point → Qc.

Hypothesis SplitLeafNode_keeps : ∀ l,
  SplitPre d M C l →
  Inv d M C (root_of (SplitLeafNode l)) ∧
  ∀ x, Stored x (root_of (SplitLeafNode l)) ↔ Stored x (root_of l).

Lemma InsertPoint_step (root : Tree) p :
  vec_n_elem p = d → Inv d M C root →
  ∃ l0 l,
    InsertPoint SplitLeafNode EvalNode [] root p = Returned l ∧
    Inv d M C (root_of l) ∧
    (l = l0 ∨ (l = SplitLeafNode l0 ∧ SplitPre d M C l0)) ∧
    (∀ x, Stored x (root_of l0) ↔ x = p ∨ Stored x root) ∧
    (∀ n, NumDescendants root = Returned n →
          NumDescendants (root_of l0) = Returned (wrap (n + 1))).
Proof.
  apply InsertPoint_step_Inv. intros l Hl. apply SplitLeafNode_keeps, Hl.
Qed.

Lemma insert_all_effect (ps : list point) : ∀ root : Tree,
  Forall (λ p, vec_n_elem p = d) ps → Inv d M C root →
  ∃ t, insert_all SplitLeafNode EvalNode root (Some <$> ps) = Returned t ∧
       Inv d M C t ∧
       (∀ x, Stored x t ↔ x ∈ ps ∨ Stored x root) ∧
       ((∀ l, SplitPre d M C l →
           NumDescendants (root_of (SplitLeafNode l))
           = NumDescendants (root_of l)) →
        ∀ n, NumDescendants root = Returned n →
             NumDescendants t
             = Returned (wrap (n + Z.of_nat (length ps)))).
Proof.
  induction ps as [|p ps IH]; intros root Hps Hinv;
    cbn [fmap list_fmap insert_all length].
  - exists root. split; [done|]. split; [done|]. split.
    + intros x. rewrite elem_of_nil. tauto.
    + intros _ n Hn. rewrite Hn. f_equal.
      rewrite Z.add_0_r, wrap_small; [done|].
      by eapply (NumDescendants_range d M C HM), Hn; apply Hinv.
  - apply Forall_cons in Hps as [Hp Hps].
    destruct (InsertPoint_step root p Hp Hinv)
      as (l0 & l & -> & Hl & Hcase & Hst & Hnd).
    cbn [obind]. destruct (IH (root_of l) Hps Hl) as (t & -> & Ht & Hstt & Hndt).
    exists t. split; [done|]. split; [done|]. split.
    + intros x. rewrite Hstt, elem_of_cons.
      assert (Stored x (root_of l) ↔ x = p ∨ Stored x root) as ->; [|tauto].
      destruct Hcase as [->|[-> Hpre]]; [done|].
      by rewrite (proj2 (SplitLeafNode_keeps _ Hpre)).
    + intros Hkeep n Hn.
      rewrite (Hndt Hkeep (wrap (n + 1))).
      * f_equal. rewrite wrap_add_l. f_equal. lia.
      * destruct Hcase as [->|[-> Hpre]]; [by apply Hnd|].
        rewrite (Hkeep _ Hpre). by apply Hnd.
Qed.

(** X9.  Handed columns of the dimension of the data, and a split policy
    that keeps the tree in order and loses no point, the constructor
    returns a tree in order that stores the columns from [firstDataIndex]
    on and nothing else; the bound of its root contains them all. *)
Theorem RectangleTree_new_stores_the_data (data : Mat point)
    (minLeafSize_ minNumChildren_ firstDataIndex : Z) (ps : list point) :
  n_rows data = d → 0 ≤ firstDataIndex < 2 ^ 31 →
  drop (Z.to_nat firstDataIndex) (cols data) = Some <$> ps →
  Forall (λ p, vec_n_elem p = d) ps →
  ∃ t,
    RectangleTree_new SplitLeafNode EvalNode data M minLeafSize_ C
      minNumChildren_ firstDataIndex = Returned t ∧
    Inv d M C t ∧
    (∀ x, Stored x t ↔ x ∈ ps) ∧
    (∀ x, x ∈ ps → bound_Contains (bound t) x).
Proof.
  intros Hrows Hf Hdrop Hps.
  assert (Hroot : Inv d M C (RectangleTree_init d M minLeafSize_ C
                               minNumChildren_)).
  { by apply RectangleTree_init_Inv. }
  assert (Hempty : ∀ x, ¬ Stored x (RectangleTree_init d M minLeafSize_ C
                                      minNumChildren_)).
  { intros x Hx. apply Stored_leaf_inv in Hx as (i & Hi & _); [|done].
    simpl in Hi. lia. }
  assert (∃ t,
    RectangleTree_new SplitLeafNode EvalNode data M minLeafSize_ C
      minNumChildren_ firstDataIndex = Returned t ∧
    Inv d M C t ∧ (∀ x, Stored x t ↔ x ∈ ps)) as (t & Ht & Hinv & Hst).
  { unfold RectangleTree_new. rewrite Hrows, static_cast_int_small by done.
    destruct (Z.leb_spec 0 firstDataIndex); [|lia].
    destruct (Z.ltb_spec firstDataIndex (n_cols data)); cbn [andb].
    - rewrite Hdrop.
      destruct (insert_all_effect ps _ Hps Hroot) as (t & -> & Ht & Hst & _).
      exists t. split; [done|]. split; [done|].
      intros x. rewrite Hst. specialize (Hempty x). tauto.
    - rewrite drop_ge in Hdrop by (unfold n_cols in *; lia).
      symmetry in Hdrop. apply fmap_nil_inv in Hdrop as ->.
      eexists. split; [done|]. split; [done|].
      intros x. rewrite elem_of_nil. specialize (Hempty x). tauto. }
  exists t. split; [done|]. split; [done|]. split; [done|].
  intros x Hx. apply (proj2 Hinv t (Node_self _)). by apply Hst.
Qed.

(** X10.  If the split policy also keeps the number of descendants, the
    tree the constructor returns has as many descendants as columns were
    inserted. *)
Theorem RectangleTree_new_NumDescendants (data : Mat point)
    (minLeafSize_ minNumChildren_ firstDataIndex : Z) (ps : list point) :
  n_rows data = d → 0 ≤ firstDataIndex < 2 ^ 31 →
  drop (Z.to_nat firstDataIndex) (cols data) = Some <$> ps →
  Forall (λ p, vec_n_elem p = d) ps →
  (∀ l, SplitPre d M C l →
     NumDescendants (root_of (SplitLeafNode l))
     = NumDescendants (root_of l)) →
  ∃ t,
    RectangleTree_new SplitLeafNode EvalNode data M minLeafSize_ C
      minNumChildren_ firstDataIndex = Returned t ∧
    NumDescendants t = Returned (wrap (Z.of_nat (length ps))).
Proof.
  intros Hrows Hf Hdrop Hps Hkeep.
  assert (Hroot : Inv d M C (RectangleTree_init d M minLeafSize_ C
                               minNumChildren_)).
  { by apply RectangleTree_init_Inv. }
  unfold RectangleTree_new. rewrite Hrows, static_cast_int_small by done.
  destruct (Z.leb_spec 0 firstDataIndex); [|lia].
  destruct (Z.ltb_spec firstDataIndex (n_cols data)); cbn [andb].
  - rewrite Hdrop.
    destruct (insert_all_effect ps _ Hps Hroot) as (t & -> & _ & _ & Hnd).
    exists t. split; [done|]. by apply (Hnd Hkeep 0).
  - rewrite drop_ge in Hdrop by (unfold n_cols in *; lia).
    symmetry in Hdrop. apply fmap_nil_inv in Hdrop as ->.
    eexists. split; [done|]. done.
Qed.

End Policies.

(** X13.  The second constructor makes an empty leaf in order: it has the
    limits and the dimension of the parent, room for [maxLeafSize + 1]
    columns and [maxNumChildren + 1] children, and stores nothing. *)
Theorem RectangleTree_child_Inv (parentNode : Tree) :
  maxLeafSize parentNode = M → maxNumChildren parentNode = C →
  bound_Dim (bound parentNode) = d →
  Inv d M C (RectangleTree_child parentNode) ∧
  IsLeaf (RectangleTree_child parentNode) = true ∧
  NumPoints (RectangleTree_child parentNode) = 0 ∧
  n_cols (dataset (RectangleTree_child parentNode)) = M + 1 ∧
  ∀ x, ¬ Stored x (RectangleTree_child parentNode).
Proof.
  intros HpM HpC Hpd.
  assert (Hempty : ∀ x, ¬ Stored x (RectangleTree_child parentNode)).
  { intros x Hx. apply Stored_leaf_inv in Hx as (i & Hi & _); [|done].
    simpl in Hi. lia. }
  assert (Hcols : n_cols (dataset (RectangleTree_child parentNode)) = M + 1).
  { unfold n_cols. simpl.
    rewrite length_replicate, HpM, static_cast_int_small; lia. }
  split; [|done]. split.
  - intros n Hn. apply Node_of_leaf in Hn as ->; [|done].
    split; [|simpl; lia]. split; simpl; try done.
    + rewrite Hpd. by apply bound_Dim_new.
    + rewrite HpC. by apply children_new_length.
    + lia.
    + intros i Hi. lia.
  - intros n Hn x Hx. apply Node_of_leaf in Hn as ->; [|done].
    by apply Hempty in Hx.
Qed.

End Shape.
End Construction.

(** C3.  Starting from a tree in which every node's bound contains the
    points of its subtree, every sequence of [InsertPoint] calls returns and
    leaves such a tree, which stores the points inserted and what was stored
    before, nothing else, if the split policy loses and adds no point.  Each
    call comes down to a leaf [l0], where it calls [SplitNode]: every node
    passed on the way is a node of the tree, left with its bound enlarged by
    the point before the child that the descent policy chooses is entered;
    the leaf is a leaf of the tree with its bound enlarged and the point
    behind its points; the tree of [l0] stores the point and what was stored
    before, nothing else, and every node's bound in it contains the points
    of its subtree.  The split policy is a template argument: it is assumed
    to keep the tree in order. *)
Theorem InsertPoint_keeps_bounds {point boundT : Type}
    `{BoundLaws point boundT}
    (SplitLeafNode : @loc point boundT → @loc point boundT)
    (EvalNode : boundT → point → Qc)
    (d M C : Z) (root : RectangleTree point boundT) (ps : list point) :
  0 ≤ d → 1 ≤ M < 2 ^ 31 - 1 → 0 ≤ C < size_t_modulus - 1 →
  (∀ l, SplitPre d M C l → Inv d M C (root_of (SplitLeafNode l))) →
  Inv d M C root →
  Forall (λ p, vec_n_elem p = d) ps →
  (∃ t, insert_all SplitLeafNode EvalNode root (Some <$> ps) = Returned t ∧
        Inv d M C t ∧ BoundInv t ∧
        ((∀ l, SplitPre d M C l →
            ∀ x, Stored x (root_of (SplitLeafNode l)) ↔ Stored x (root_of l)) →
         ∀ x, Stored x t ↔ x ∈ ps ∨ Stored x root)) ∧
  (∀ p, vec_n_elem p = d →
     ∃ l0, InsertPoint (λ l, l) EvalNode [] root p = Returned l0 ∧
           InsertPoint SplitLeafNode EvalNode [] root p
             = SplitNode SplitLeafNode l0 ∧
           numChildren (this l0) = 0 ∧
           Stored p (this l0) ∧
           bound_Contains (bound (this l0)) p ∧
           Forall (λ f, bound_Contains (bound f.1) p) (ctx l0) ∧
           Forall (λ f, ∃ m, Node_of m root ∧ numChildren m ≠ 0 ∧
                             f.1 = set_bound m (bound_expand (bound m) p) ∧
                             best_child EvalNode m p = Returned f.2)
             (ctx l0) ∧
           (∃ n, Node_of n root ∧ numChildren n = 0 ∧
                 bound (this l0) = bound_expand (bound n) p ∧
                 count (this l0) = count n + 1 ∧
                 cols (dataset (this l0))
                 = <[Z.to_nat (count n) := Some p]> (cols (dataset n))) ∧
           (∀ x, Stored x (root_of l0) ↔ x = p ∨ Stored x root) ∧
           BoundInv (root_of l0)).
Proof.
  intros Hd HM HC Hsplit Hinv Hps. split.
  - destruct (insert_all_stored d M C HM HC SplitLeafNode EvalNode Hsplit ps
                root)
      as (t & Ht & Hi & Hst); [done..|].
    exists t. split; [done|]. split; [done|]. split; [apply Hi|done].
  - intros p Hp.
    by apply (InsertPoint_call d M C HM SplitLeafNode EvalNode).
Qed.

(** ** The constructor on little data, and its first index *)

Section Little.
Context {point boundT : Type} `{BoundOps point boundT}.
Variable SplitLeafNode : @loc point boundT → @loc point boundT.
Variable EvalNode : boundT → point → Qc.
Abbreviation Tree := (RectangleTree point boundT).

Lemma insert_all_leaf (a b : Z) (ch : list (option Tree)) (M m r : Z)
    (ps : list point) : ∀ (done : list point) (bd : boundT),
  M < size_t_modulus →
  Z.of_nat (length done + length ps) < M →
  insert_all SplitLeafNode EvalNode
    (mkRectangleTree a b 0 ch 0 (Z.of_nat (length done)) M m bd
       (mkMat r ((Some <$> done)
                 ++ replicate (Z.to_nat (M + 1) - length done) None)))
    (Some <$> ps)
  = Returned
      (mkRectangleTree a b 0 ch 0 (Z.of_nat (length (done ++ ps))) M m
         (foldl bound_expand bd ps)
         (mkMat r ((Some <$> (done ++ ps))
                   ++ replicate (Z.to_nat (M + 1) - length (done ++ ps))
                        None))).
Proof.
  induction ps as [|p ps IH]; intros done bd HM Hlen.
  - by rewrite app_nil_r.
  - cbn [fmap list_fmap insert_all]. rewrite InsertPoint_unfold. cbv zeta.
    cbn [numChildren set_bound dataset count bound Z.eqb].
    rewrite length_cons in Hlen.
    unfold Mat_set_col, n_cols. cbn [cols n_rows].
    rewrite length_app, length_fmap, length_replicate.
    destruct (Z.leb_spec 0 (Z.of_nat (length done))); [|lia].
    destruct (Z.ltb_spec (Z.of_nat (length done))
                (Z.of_nat (length done
                           + (Z.to_nat (M + 1) - length done)))); [|lia].
    cbn [andb obind]. unfold SplitNode, set_points, set_bound.
    cbn [this maxNumChildren minNumChildren numChildren children begin
         count maxLeafSize minLeafSize bound dataset n_rows cols].
    change (negb (0 =? 0)) with false. cbv iota.
    rewrite wrap_small by (unfold size_t_modulus in *; lia).
    destruct (Z.ltb_spec (Z.of_nat (length done) + 1) M); [|lia].
    cbn [obind]. unfold root_of. cbn [ctx this fold_left].
    rewrite Nat2Z.id.
    rewrite insert_app_r_alt by (rewrite length_fmap; lia).
    rewrite length_fmap, Nat.sub_diag.
    destruct (Z.to_nat (M + 1) - length done)%nat as [|k] eqn:Hk; [lia|].
    cbn [replicate insert list_insert].
    specialize (IH (done ++ [p]) (bound_expand bd p) HM).
    rewrite length_app in IH. cbn [length] in IH.
    replace (Z.of_nat (length done) + 1)
      with (Z.of_nat (length done + 1)) by lia.
    replace (Z.to_nat (M + 1) - (length done + 1))%nat with k in IH by lia.
    rewrite fmap_app in IH. cbn [fmap list_fmap] in IH.
    rewrite <- !app_assoc in IH. cbn [app] in IH.
    by rewrite IH by lia.
Qed.

(** X11.  Fewer points than [maxLeafSize] make one leaf: the constructor
    returns its root with the columns of the data in the first columns of
    its own matrix, in their order, the count of them, and the bound grown
    by each of them in turn.  Neither policy is consulted. *)
Theorem RectangleTree_new_few_points (data : Mat point)
    (maxLeafSize_ minLeafSize_ maxNumChildren_ minNumChildren_ : Z)
    (ps : list point) :
  1 ≤ maxLeafSize_ < 2 ^ 31 - 1 →
  cols data = Some <$> ps → Z.of_nat (length ps) < maxLeafSize_ →
  RectangleTree_new SplitLeafNode EvalNode data maxLeafSize_ minLeafSize_
    maxNumChildren_ minNumChildren_ 0
  = Returned
      (mkRectangleTree maxNumChildren_ minNumChildren_ 0
         (replicate (Z.to_nat (wrap (maxNumChildren_ + 1))) None)
         0 (Z.of_nat (length ps)) maxLeafSize_ minLeafSize_
         (foldl bound_expand (bound_new (n_rows data)) ps)
         (mkMat (n_rows data)
            ((Some <$> ps)
             ++ replicate (Z.to_nat (maxLeafSize_ + 1) - length ps) None))).
Proof.
  intros HM Hcols Hlen. unfold RectangleTree_new, n_cols.
  change (static_cast_int 0) with 0. rewrite Hcols, length_fmap.
  cbn [Z.leb Z.compare andb Z.to_nat drop].
  pose proof (insert_all_leaf maxNumChildren_ minNumChildren_
                (replicate (Z.to_nat (wrap (maxNumChildren_ + 1))) None)
                maxLeafSize_ minLeafSize_ (n_rows data) ps []
                (bound_new (n_rows data))) as Hins.
  cbn [length app fmap list_fmap Nat.add] in Hins.
  rewrite Nat.sub_0_r in Hins.
  unfold RectangleTree_init, Mat_new.
  rewrite static_cast_int_small by lia.
  destruct (Z.ltb_spec 0 (Z.of_nat (length ps))).
  - apply Hins; [unfold size_t_modulus|]; lia.
  - destruct ps; [|simpl in *; lia]. simpl. by rewrite Nat.sub_0_r.
Qed.

(** X12.  The first index is taken as an [int]: indices that differ by a
    multiple of 2^32 build the same tree, and an index that is, as an
    [int], negative or not below the number of columns leaves the fresh
    root, with nothing inserted. *)
Theorem RectangleTree_new_firstDataIndex_int (data : Mat point)
    (maxLeafSize_ minLeafSize_ maxNumChildren_ minNumChildren_
     firstDataIndex : Z) :
  (∀ k,
     RectangleTree_new SplitLeafNode EvalNode data maxLeafSize_ minLeafSize_
       maxNumChildren_ minNumChildren_ (firstDataIndex + k * 2 ^ 32)
     = RectangleTree_new SplitLeafNode EvalNode data maxLeafSize_
         minLeafSize_ maxNumChildren_ minNumChildren_ firstDataIndex) ∧
  (static_cast_int firstDataIndex < 0 ∨
   n_cols data ≤ static_cast_int firstDataIndex →
   RectangleTree_new SplitLeafNode EvalNode data maxLeafSize_ minLeafSize_
     maxNumChildren_ minNumChildren_ firstDataIndex
   = Returned (RectangleTree_init (n_rows data) maxLeafSize_ minLeafSize_
                 maxNumChildren_ minNumChildren_)).
Proof.
  split.
  - intros k. unfold RectangleTree_new.
    replace (static_cast_int (firstDataIndex + k * 2 ^ 32))
      with (static_cast_int firstDataIndex); [done|].
    unfold static_cast_int. f_equal.
    replace (firstDataIndex + k * 2 ^ 32 + 2 ^ 31)
      with (firstDataIndex + 2 ^ 31 + k * 2 ^ 32) by lia.
    by rewrite Z_mod_plus_full.
  - intros Hout. unfold RectangleTree_new.
    destruct (Z.leb_spec 0 (static_cast_int firstDataIndex));
      destruct (Z.ltb_spec (static_cast_int firstDataIndex) (n_cols data));
      cbn [andb]; first [done|lia].
Qed.

End Little.

(** ** The statements at sample trees *)

Section Witnesses.
Import HRect HRectFacts Samples.




Lemma two_leaves_children :
  ∀ i, 0 ≤ i < numChildren two_leaves → ∃ c, Child_at two_leaves i c.
Proof.
  intros i Hi. change (numChildren two_leaves) with 2 in Hi.
  destruct (decide (i = 0)) as [->|Hne].
  - eexists. split; [done|reflexivity].
  - assert (i = 1) as -> by lia. eexists. split; [done|reflexivity].
Qed.

Lemma best_child_least_witness :
  ∃ b cb,
    best_child EvalNode_flat two_leaves (pt1 5) = Returned b ∧
    Child_at two_leaves b cb ∧
    ∀ j c, Child_at two_leaves j c →
      (EvalNode_flat (bound cb) (pt1 5) ≤ EvalNode_flat (bound c) (pt1 5))%Qc ∧
      (j < b →
       (EvalNode_flat (bound cb) (pt1 5) < EvalNode_flat (bound c) (pt1 5))%Qc).
Proof.
  apply (best_child_least EvalNode_flat two_leaves (pt1 5)); [done|].
  exact two_leaves_children.
Defined.

Lemma HalveSplit_contract_2_4 (l : @loc vec HRectBound) :
  SplitPre 1 2 4 l →
  Inv 1 2 4 (root_of (HalveSplit l)) ∧
  ∀ x, Stored x (root_of (HalveSplit l)) ↔ Stored x (root_of l).
Proof.
  intros Hpre.
  destruct (HalveSplit_contract (point := vec) 1 2 4) with (l := l)
    as (Hi & Hs & _); [unfold size_t_modulus; lia..|done|done].
Qed.

Lemma HalveSplit_descendants_2_4 (l : @loc vec HRectBound) :
  SplitPre 1 2 4 l →
  NumDescendants (root_of (HalveSplit l)) = NumDescendants (root_of l).
Proof.
  intros Hpre.
  destruct (HalveSplit_contract (point := vec) 1 2 4) with (l := l)
    as (_ & _ & Hn); [unfold size_t_modulus; lia..|done|done].
Qed.

Lemma three_points_dim :
  Forall (λ p : vec, vec_n_elem p = 1) [pt1 5; pt1 35; pt1 15].
Proof. repeat constructor. Qed.

Lemma Returned_inj {A} (a b : A) : Returned a = Returned b → a = b.
Proof. by intros [= ->]. Qed.

Lemma sizes_2_4 :
  0 ≤ 1 ∧ 1 ≤ 2 < 2 ^ 31 - 1 ∧ 0 ≤ 4 < size_t_modulus - 1.
Proof. unfold size_t_modulus. lia. Qed.

Lemma small_tree_split_root : small_tree = Returned split_root.
Proof. vm_compute. reflexivity. Qed.

Lemma small_tree_run :
  small_tree
  = insert_all HalveSplit EvalNode_flat (RectangleTree_init 1 2 1 4 0)
      (Some <$> [pt1 5; pt1 35; pt1 15]).
Proof. vm_compute. reflexivity. Qed.

Lemma split_root_Inv : Inv 1 2 4 split_root.
Proof.
  destruct sizes_2_4 as (Hd & HM & HC).
  destruct (insert_all_effect (point := vec) 1 2 4 HM HC HalveSplit
              EvalNode_flat HalveSplit_contract_2_4 [pt1 5; pt1 35; pt1 15]
              (RectangleTree_init 1 2 1 4 0) three_points_dim
              (RectangleTree_init_Inv 1 2 4 Hd HM HC 1 0))
    as (t & Ht & Hi & _).
  pose proof small_tree_run as Hrun.
  rewrite small_tree_split_root in Hrun. rewrite Ht in Hrun.
  apply Returned_inj in Hrun. rewrite Hrun. exact Hi.
Qed.

(** In [split_root] the point 0.25 goes down two levels, into a leaf that
    is full with it, and two insertions make four more nodes. *)
Lemma split_root_call :
  ∃ l0, InsertPoint (λ l, l) EvalNode_flat [] split_root (pt1 25)
          = Returned l0 ∧
        length (ctx l0) = 2%nat ∧ count (this l0) = maxLeafSize (this l0).
Proof.
  eexists. split; [vm_compute; reflexivity|]. split; vm_compute; reflexivity.
Qed.

Lemma split_root_two_more :
  TreeSize split_root = Returned 5 ∧
  ∃ t, insert_all HalveSplit EvalNode_flat split_root
         (Some <$> [pt1 25; pt1 45]) = Returned t ∧
       TreeSize t = Returned 9.
Proof.
  split; [vm_compute; reflexivity|].
  eexists. split; [vm_compute; reflexivity|]. vm_compute. reflexivity.
Qed.

Lemma two_points_dim : Forall (λ p : vec, vec_n_elem p = 1) [pt1 25; pt1 45].
Proof. repeat constructor. Qed.

Lemma InsertPoint_keeps_bounds_witness :
  Inv 1 2 4 split_root ∧ TreeSize split_root = Returned 5 ∧
  (∃ t, insert_all HalveSplit EvalNode_flat split_root
          (Some <$> [pt1 25; pt1 45]) = Returned t ∧
        Inv 1 2 4 t ∧ BoundInv t ∧
        (∀ x, Stored x t ↔ x ∈ [pt1 25; pt1 45] ∨ Stored x split_root) ∧
        TreeSize t = Returned 9) ∧
  (∃ l0, InsertPoint HalveSplit EvalNode_flat [] split_root (pt1 25)
           = SplitNode HalveSplit l0 ∧
         length (ctx l0) = 2%nat ∧
         count (this l0) = maxLeafSize (this l0) ∧
         Stored (pt1 25) (this l0) ∧
         bound_Contains (bound (this l0)) (pt1 25) ∧
         Forall (λ f, bound_Contains (bound f.1) (pt1 25)) (ctx l0) ∧
         (∀ x, Stored x (root_of l0) ↔ x = pt1 25 ∨ Stored x split_root) ∧
         BoundInv (root_of l0)).
Proof.
  destruct sizes_2_4 as (Hd & HM & HC).
  destruct split_root_two_more as (Hsize & t' & Ht' & Hsize').
  destruct split_root_call as (l0' & Hl0' & Hlen & Hfull).
  split; [exact split_root_Inv|]. split; [exact Hsize|].
  destruct (InsertPoint_keeps_bounds HalveSplit EvalNode_flat 1 2 4
              split_root [pt1 25; pt1 45] Hd HM HC
              (λ l Hl, proj1 (HalveSplit_contract_2_4 l Hl))
              split_root_Inv two_points_dim)
    as [(t & Ht & Hi & Hb & Hst) Hcall].
  split.
  - exists t. rewrite Ht in Ht'. apply Returned_inj in Ht'.
    rewrite <- Ht' in Hsize'.
    split; [exact Ht|]. split; [exact Hi|]. split; [exact Hb|].
    split; [|exact Hsize'].
    exact (Hst (λ l Hl, proj2 (HalveSplit_contract_2_4 l Hl))).
  - destruct (Hcall (pt1 25) (eq_refl 1))
      as (l0 & Hid & Hrun & _ & Hp & Hbp & HF & _ & _ & Hstored & Hbounds).
    exists l0. rewrite Hid in Hl0'. apply Returned_inj in Hl0'.
    rewrite <- Hl0' in Hlen, Hfull.
    split; [exact Hrun|]. split; [exact Hlen|]. split; [exact Hfull|].
    split; [exact Hp|]. split; [exact Hbp|]. split; [exact HF|].
    split; [exact Hstored|exact Hbounds].
Defined.

Lemma RectangleTree_new_stores_the_data_witness :
  ∃ t, small_tree = Returned t ∧ Inv 1 2 4 t ∧
       (∀ x, Stored x t ↔ x ∈ [pt1 5; pt1 35; pt1 15]) ∧
       (∀ x, x ∈ [pt1 5; pt1 35; pt1 15] → bound_Contains (bound t) x).
Proof.
  apply (RectangleTree_new_stores_the_data 1 2 4);
    first [exact HalveSplit_contract_2_4|exact three_points_dim
          |reflexivity|unfold size_t_modulus; lia].
Defined.

Lemma RectangleTree_new_NumDescendants_witness :
  ∃ t, small_tree = Returned t ∧ NumDescendants t = Returned 3.
Proof.
  apply (RectangleTree_new_NumDescendants 1 2 4)
    with (ps := [pt1 5; pt1 35; pt1 15]);
    first [exact HalveSplit_contract_2_4|exact HalveSplit_descendants_2_4
          |exact three_points_dim|reflexivity|unfold size_t_modulus; lia].
Defined.

Lemma RectangleTree_child_Inv_witness :
  Inv 1 20 4 (RectangleTree_child fresh_root) ∧
  IsLeaf (RectangleTree_child fresh_root) = true ∧
  NumPoints (RectangleTree_child fresh_root) = 0 ∧
  n_cols (dataset (RectangleTree_child fresh_root)) = 20 + 1 ∧
  ∀ x, ¬ Stored x (RectangleTree_child fresh_root).
Proof.
  apply (RectangleTree_child_Inv (point := vec) 1 20 4);
    first [reflexivity|unfold size_t_modulus; lia].
Defined.

Lemma RectangleTree_new_few_points_witness :
  RectangleTree_new HalveSplit EvalNode_flat three_points 20 6 4 0 0
  = Returned
      (mkRectangleTree 4 0 0 (replicate (Z.to_nat (wrap (4 + 1))) None)
         0 (Z.of_nat (length [pt1 5; pt1 35; pt1 15])) 20 6
         (foldl bound_expand (bound_new (n_rows three_points))
            [pt1 5; pt1 35; pt1 15])
         (mkMat (n_rows three_points)
            ((Some <$> [pt1 5; pt1 35; pt1 15])
             ++ replicate (Z.to_nat (20 + 1)
                           - length [pt1 5; pt1 35; pt1 15]) None))).
Proof.
  apply (RectangleTree_new_few_points HalveSplit EvalNode_flat three_points
           20 6 4 0 [pt1 5; pt1 35; pt1 15]); [lia|reflexivity|simpl; lia].
Defined.

Lemma RectangleTree_new_firstDataIndex_int_witness :
  RectangleTree_new HalveSplit EvalNode_flat three_points 20 6 4 0
    (0 + 1 * 2 ^ 32)
  = RectangleTree_new HalveSplit EvalNode_flat three_points 20 6 4 0 0 ∧
  RectangleTree_new HalveSplit EvalNode_flat three_points 20 6 4 0 3
  = Returned (RectangleTree_init (n_rows three_points) 20 6 4 0).
Proof.
  split.
  - apply (RectangleTree_new_firstDataIndex_int HalveSplit EvalNode_flat
             three_points 20 6 4 0 0).
  - apply (RectangleTree_new_firstDataIndex_int HalveSplit EvalNode_flat
             three_points 20 6 4 0 3).
    right. vm_compute. discriminate.
Defined.

End Witnesses.

End RTreeMore.

(** * More about allknn_test.cc *)

Module AllkNNMore.
Import AllkNN AllkNNFacts HRect HRectFacts Samples.

Lemma Qc_table_eq (t1 t2 : list (list Qc)) :
  (λ row : list Qc, Qcanon.this <$> row) <$> t1
  = (λ row : list Qc, Qcanon.this <$> row) <$> t2 → t1 = t2.
Proof.
  revert t2. induction t1 as [|a t1 IH]; intros [|b t2] Heq;
    simplify_eq/=; [done|].
  f_equal; [by apply Qc_list_eq|by apply IH].
Qed.

Lemma eleven_points_no_ties qi x :
  eleven_points !! qi = Some x → qi ≠ 1%nat → qi ≠ 5%nat →
  NoDup (candidate_distances true eleven_points qi x).
Proof.
  intros Hx H1 H5.
  do 11 (destruct qi as [|qi];
         [first [done|injection Hx as <-; apply NoDup_Qc; vm_compute;
                      reflexivity]|]).
  done.
Qed.

(** X14.  The whole table of exhaustive_synthetic_test.  Over the eleven
    points, with [k = 10], whatever the trees and whichever way ties go,
    each of the three modes returns the expected squared distances for
    every point, and the expected neighbours for every point but 1 and 5,
    which have two neighbours equally far. *)
Theorem exhaustive_synthetic_test_table ties
    (qtree rtree : SpatialNode HRectBound) :
  tree_over eleven_points qtree → tree_over eleven_points rtree →
  Forall (λ param,
            let r := ComputeNeighbors ties param true
                       eleven_points eleven_points qtree rtree in
            r.2 = expected_distances ∧
            ∀ qi, qi ≠ 1%nat → qi ≠ 5%nat →
                  r.1 !! qi = expected_neighbours !! qi)
    [naive 10; single_tree 10; dual_tree 10].
Proof.
  intros Hq Hr.
  assert (Hrow : ∀ param, k param = 10%nat →
    let r := ComputeNeighbors ties param true
               eleven_points eleven_points qtree rtree in
    r.2 = expected_distances ∧
    ∀ qi, qi ≠ 1%nat → qi ≠ 5%nat → r.1 !! qi = expected_neighbours !! qi).
  { intros param Hk.
    destruct (ComputeNeighbors_searched ties param true
                eleven_points eleven_points qtree rtree Hq Hr)
      as (res & Hres & ->).
    destruct (ComputeNeighbors_searched ties (naive 10) true
                eleven_points eleven_points qtree rtree Hq Hr)
      as (res0 & Hres0 & Heq0).
    rewrite Hk in Hres. simpl in Hres0.
    destruct (searched_agree _ _ _ _ _ res res0 Hres Hres0) as [Hd Hi].
    cbn [fst snd]. split.
    - rewrite Hd. injection Heq0 as _ <-.
      apply Qc_table_eq. destruct ties; vm_compute; reflexivity.
    - intros qi H1 H5. rewrite list_lookup_fmap.
      destruct (eleven_points !! qi) as [x|] eqn:Hx.
      + rewrite (searched_row _ _ _ _ _ res qi x Hres Hx
                   (eleven_points_no_ties qi x Hx H1 H5)).
        do 11 (destruct qi as [|qi];
               [first [done|injection Hx as <-;
                            destruct ties; vm_compute;
                            reflexivity]|]).
        done.
      + apply lookup_ge_None in Hx.
        rewrite (proj2 (lookup_ge_None res qi))
          by (rewrite (proj1 Hres); done).
        symmetry. apply lookup_ge_None. simpl in *. lia. }
  repeat constructor; apply Hrow; reflexivity.
Qed.

Lemma exhaustive_synthetic_test_table_witness :
  (ComputeNeighbors LowerIndex (dual_tree 10) true eleven_points
     eleven_points eleven_tree eleven_tree).2 = expected_distances ∧
  (ComputeNeighbors LowerIndex (dual_tree 10) true eleven_points
     eleven_points eleven_tree eleven_tree).1 !! 4%nat
  = expected_neighbours !! 4%nat.
Proof.
  pose proof (exhaustive_synthetic_test_table LowerIndex eleven_tree
                eleven_tree
                eleven_tree_over eleven_tree_over) as HF.
  apply Forall_cons in HF as [_ HF]. apply Forall_cons in HF as [_ HF].
  apply Forall_cons in HF as [(Hd & Hn) _].
  split; [exact Hd|]. apply Hn; discriminate.
Defined.

End AllkNNMore.
